(** * Referral network and growth simulation: a shallow embedding

    The development follows [ReferralNetwork.js] (class [ReferralNetwork])
    and [Simulation.js] (class [Simulation]).

    - JavaScript [Map]s keyed by user id are [gmap string _].  The [Set]
      of users, whose iteration order is insertion order, is the list of
      its elements in that order; so are the [Set]s of direct referrals.
      A [Set] that the code only tests for membership and measures
      ([visited], the reach sets, [covered]) is a [gset string].
    - JavaScript numbers are kept abstract behind the interface [Number]:
      every function of [Simulation] is written once against it.  The
      interface has two instances: IEEE-754 binary64 (Rocq's primitive
      floats, the arithmetic the program runs on) and exact rationals.
      What the proofs use of the arithmetic is stated as laws; the laws
      that are proved for binary64 are proved below, those that are not
      (addition and [Math.floor] are monotone, halving converges) are
      proved for the rationals and assumed of binary64 where a theorem
      says so.  Day counts and targets are integers ([Z]).
    - A [throw] is the constructor [Throw] of [result].
    - A [while] loop, and the recursive [dfs], run on fuel: the result is
      an [option], and [None] is fuel running out (or, in
      [ReferralNetwork], a field of an object that is [undefined]).  The
      theorems show a result, so they show that neither happens. *)

From Stdlib Require Import ZArith QArith Qround Lia List Bool.
From Stdlib Require Import Floats.
From stdpp Require Import gmap strings list sorting relations.

(** ** Results of calls that may throw *)

Inductive error :=
| UnknownUser          (* "... does not exist in the network" *)
| InvalidProbability   (* "Probability p must be between 0 and 1" *)
| InvalidDuration      (* "Days must be non-negative" *)
| InvalidTarget        (* "Target total/hires must be non-negative" *)
| InvalidPrecision.    (* "Precision eps must be positive" *)

Inductive result (A : Type) :=
| Ok (a : A)
| Throw (e : error).
Arguments Ok {A} a.
Arguments Throw {A} e.

(** ** JavaScript numbers *)

Module Num.

(** The operations on numbers that [Simulation.js] uses.  [a > b] is
    [ltb b a] and [a >= b] is [leb b a]. *)
Class Number (num : Type) := {
  of_Z : Z -> num;                (* integer literals and loop counters *)
  add : num -> num -> num;
  sub : num -> num -> num;
  mul : num -> num -> num;
  div : num -> num -> num;
  ltb : num -> num -> bool;
  leb : num -> num -> bool;
  eqb : num -> num -> bool;       (* === on numbers *)
  floor : num -> num;             (* Math.floor *)
  ceil : num -> num;              (* Math.ceil *)
}.

(** *** IEEE-754 binary64 *)

(** The double nearest to an integer (ties to even). *)
Definition float_of_Z (z : Z) : float :=
  SF2Prim (binary_normalize prec emax z 0 false).

(** [Math.floor]: a finite float with a negative exponent [e] is
    [m * 2^e]; everything else (an integer, a zero, an infinity, NaN) is
    returned as it is. *)
Definition float_floor (x : float) : float :=
  match Prim2SF x with
  | S754_finite s m e =>
      if (0 <=? e)%Z then x
      else
        let q := Z.shiftr (Zpos m) (- e) in
        let exact := (Z.shiftl q (- e) =? Zpos m)%Z in
        if s then (if exact then float_of_Z (- q) else float_of_Z (- (q + 1)))
        else float_of_Z q
  | _ => x
  end.

Definition float_ceil (x : float) : float :=
  PrimFloat.opp (float_floor (PrimFloat.opp x)).

#[export] Instance float_number : Number float := {|
  of_Z := float_of_Z;
  add := PrimFloat.add;
  sub := PrimFloat.sub;
  mul := PrimFloat.mul;
  div := PrimFloat.div;
  ltb := PrimFloat.ltb;
  leb := PrimFloat.leb;
  eqb := PrimFloat.eqb;
  floor := float_floor;
  ceil := float_ceil;
|}.

(** *** Exact rationals, kept in lowest terms *)

#[export] Instance Q_number : Number Q := {|
  of_Z := inject_Z;
  add := fun x y => Qred (x + y);
  sub := fun x y => Qred (x - y);
  mul := fun x y => Qred (x * y);
  div := fun x y => Qred (x / y);
  ltb := fun x y => negb (Qle_bool y x);
  leb := Qle_bool;
  eqb := Qeq_bool;
  floor := fun x => inject_Z (Qfloor x);
  ceil := fun x => inject_Z (Qceiling x);
|}.

(** *** Laws

    The facts about numbers that the proofs below use, in four groups so
    that each theorem assumes no more than it needs. *)

(** Closed facts about the literals [0], [1] and [10]. *)
Class GroundLaws {num : Type} (N : Number num) : Prop := {
  add_0_0 : add (of_Z 0) (of_Z 0) = of_Z 0;
  floor_0 : floor (of_Z 0) = of_Z 0;
  leb_0_0 : leb (of_Z 0) (of_Z 0) = true;
  leb_0_1 : leb (of_Z 0) (of_Z 1) = true;
  ltb_0_0 : ltb (of_Z 0) (of_Z 0) = false;
  eqb_0_0 : eqb (of_Z 0) (of_Z 0) = true;
  ltb_1_0 : ltb (of_Z 1) (of_Z 0) = false;
  leb_10_0 : leb (of_Z 10) (of_Z 0) = false;
}.

(** The three comparisons agree with each other. *)
Class CompareLaws {num : Type} (N : Number num) : Prop := {
  leb_not_gt : forall x y, leb x y = true -> ltb y x = false;
  ltb_asym : forall x y, ltb x y = true -> ltb y x = false;
  ltb_leb : forall x y, ltb x y = true -> leb x y = true;
  ltb_not_eq : forall x y, ltb x y = true -> eqb y x = false;
}.

(** Order and arithmetic: [<=] is transitive, adding a non-negative
    number to a non-negative number does not make it smaller, and
    [Math.floor] is monotone.  Rounding to nearest keeps all three. *)
Class OrderLaws {num : Type} (N : Number num) : Prop := {
  leb_trans : forall x y z, leb x y = true -> leb y z = true -> leb x z = true;
  add_nonneg_le : forall x y,
    leb (of_Z 0) x = true -> leb (of_Z 0) y = true -> leb x (add x y) = true;
  floor_mono : forall x y, leb x y = true -> leb (floor x) (floor y) = true;
}.

(** The bracket of [minBonusForTarget]: starting from [0, 10000], moving
    the lower end to the midpoint again and again brings the width down
    to every [eps] that passes the check [eps <= 0].  In exact arithmetic
    the width is halved each time; on binary64 the lower end is 10000
    itself after 53 steps. *)
Class BracketLaw {num : Type} (N : Number num) : Prop := {
  bracket_closes : forall eps,
    leb eps (of_Z 0) = false ->
    exists n : nat,
      ltb eps (sub (of_Z 10000)
                 (Nat.iter n (fun l => div (add l (of_Z 10000)) (of_Z 2))
                    (of_Z 0))) = false;
}.

End Num.
Import Num.

(** ** Simulation.js *)

Module Simulation.

Section Simulation.
Context {num : Type} {N : Number num}.

(** [constructor()] *)
Definition initialActiveReferrers : nat := 100.
Definition referralCapacity : num := of_Z 10.

(** The caps of [simulate]. *)
Definition MAX_REFERRERS : nat := 5000.
Definition MAX_DAYS : Z := 100.

(** The inner loop [for (let i = 0; i < referrerCounts.length; i++)]:
    a referrer below capacity adds [p] to the day's referrals and to
    its own count.  Returns the updated counts and [dailyReferrals]. *)
Fixpoint process_referrers (p : num) (referrerCounts : list num)
    (dailyReferrals : num) : list num * num :=
  match referrerCounts with
  | [] => ([], dailyReferrals)
  | c :: rest =>
      if leb referralCapacity c then
        let '(rest', d) := process_referrers p rest dailyReferrals in
        (c :: rest', d)
      else
        let '(rest', d) := process_referrers p rest (add dailyReferrals p) in
        (add c p :: rest', d)
  end.

(** [for (let i = 0; i < newReferrerCount && referrerCounts.length <
    MAX_REFERRERS; i++) referrerCounts.push(0)].  [room] is
    [MAX_REFERRERS - referrerCounts.length]: it is positive exactly when
    the second condition holds, and a push lowers it by one. *)
Fixpoint add_referrers (room : nat) (i : Z) (newReferrerCount : num)
    (referrerCounts : list num) : list num :=
  match room with
  | O => referrerCounts
  | S room' =>
      if ltb (of_Z i) newReferrerCount
      then add_referrers room' (i + 1) newReferrerCount
             (referrerCounts ++ [of_Z 0])
      else referrerCounts
  end.

(** One iteration of the loop over days, on the pair
    [(referrerCounts, totalReferrals)]. *)
Definition day_step (p : num) (st : list num * num) : list num * num :=
  let '(counts1, dailyReferrals) := process_referrers p (fst st) (of_Z 0) in
  let newReferrerCount := floor dailyReferrals in
  let counts2 :=
    add_referrers (MAX_REFERRERS - length counts1) 0 newReferrerCount counts1 in
  (counts2, add (snd st) dailyReferrals).

(** The loop over days; the list returned is what the iterations push
    to [cumulativeReferrals], in order.  The [break] is the empty tail. *)
Fixpoint simulate_days (days : nat) (p : num) (st : list num * num)
    : list num :=
  match days with
  | O => []
  | S days' =>
      let st' := day_step p st in
      floor (snd st') ::
        (if (MAX_REFERRERS <=? length (fst st'))%nat then []
         else simulate_days days' p st')
  end.

(** The state when the loop starts. *)
Definition initial_state : list num * num :=
  (repeat (of_Z 0) initialActiveReferrers, of_Z 0).

Definition simulate (p : num) (days : Z) : result (list num) :=
  let days := if (MAX_DAYS <? days)%Z then MAX_DAYS else days in
  if ltb p (of_Z 0) || ltb (of_Z 1) p then Throw InvalidProbability
  else if (days <? 0)%Z then Throw InvalidDuration
  else Ok (simulate_days (Z.to_nat days) p initial_state).

(** [result[result.length - 1] >= target]: on the empty array the left
    side is [undefined] and the comparison is false. *)
Definition last_ge (res : list num) (target : num) : bool :=
  match last res with
  | Some x => leb target x
  | None => false
  end.

(** [result[result.length - 1] < target], false as well on the empty
    array. *)
Definition ltb_last (res : list num) (target : num) : bool :=
  match last res with
  | Some x => ltb x target
  | None => false
  end.

(** What [daysToTarget] returns: a day count or [Infinity]. *)
Inductive day_count :=
| Days (d : Z)
| Unbounded.

(** [while (left < right)] of [daysToTarget].  [None] is fuel running
    out before the loop ends. *)
Fixpoint search_days (fuel : nat) (p : num) (targetTotal : Z)
    (left right : Z) : option (result Z) :=
  match fuel with
  | O => None
  | S fuel' =>
      if (left <? right)%Z then
        let mid := ((left + right) / 2)%Z in
        match simulate p mid with
        | Throw e => Some (Throw e)
        | Ok res =>
            if last_ge res (of_Z targetTotal)
            then search_days fuel' p targetTotal left mid
            else search_days fuel' p targetTotal (mid + 1) right
        end
      else Some (Ok left)
  end.

Definition daysToTarget (p : num) (targetTotal : Z)
    : option (result day_count) :=
  if ltb p (of_Z 0) || ltb (of_Z 1) p then Some (Throw InvalidProbability)
  else if (targetTotal <? 0)%Z then Some (Throw InvalidTarget)
  else if (targetTotal =? 0)%Z then Some (Ok (Days 0))
  else if eqb p (of_Z 0) then Some (Ok Unbounded)
  else
    let right := Z.max 1 targetTotal in
    match search_days (S (Z.to_nat right)) p targetTotal 0 right with
    | Some (Ok d) => Some (Ok (Days d))
    | Some (Throw e) => Some (Throw e)
    | None => None
    end.

(** What [minBonusForTarget] returns: a bonus or [null]. *)
Inductive bonus :=
| Bonus (b : num)
| Impossible.

(** [while (maxBonus - minBonus > eps)] of [minBonusForTarget]; returns
    the final [maxBonus]. *)
Fixpoint search_bonus (fuel : nat) (days targetHires : Z)
    (adoptionProb : num -> num) (eps minBonus maxBonus : num)
    : option (result num) :=
  match fuel with
  | O => None
  | S fuel' =>
      if ltb eps (sub maxBonus minBonus) then
        let midBonus := div (add minBonus maxBonus) (of_Z 2) in
        let prob := adoptionProb midBonus in
        if ltb (of_Z 0) prob then
          match simulate prob days with
          | Throw e => Some (Throw e)
          | Ok res =>
              if last_ge res (of_Z targetHires)
              then search_bonus fuel' days targetHires adoptionProb eps
                     minBonus midBonus
              else search_bonus fuel' days targetHires adoptionProb eps
                     midBonus maxBonus
          end
        else search_bonus fuel' days targetHires adoptionProb eps
               midBonus maxBonus
      else Some (Ok maxBonus)
  end.

(** The re-verification that ends [minBonusForTarget]. *)
Definition verify_bonus (days targetHires : Z) (adoptionProb : num -> num)
    (finalBonus : num) : result bonus :=
  let finalProb := adoptionProb finalBonus in
  if ltb (of_Z 0) finalProb then
    match simulate finalProb days with
    | Throw e => Throw e
    | Ok finalResult =>
        if last_ge finalResult (of_Z targetHires)
        then Ok (Bonus finalBonus) else Ok Impossible
    end
  else Ok Impossible.

(** [minBonusForTarget] from the binary search on: the search, the
    rounding up to a multiple of [eps], and the re-verification. *)
Definition search_and_verify (fuel : nat) (days targetHires : Z)
    (adoptionProb : num -> num) (eps : num) : option (result bonus) :=
  let minBonus := of_Z 0 in
  let maxBonus := of_Z 10000 in
  match search_bonus fuel days targetHires adoptionProb eps
          minBonus maxBonus with
  | None => None
  | Some (Throw e) => Some (Throw e)
  | Some (Ok maxBonus') =>
      let finalBonus := mul (ceil (div maxBonus' eps)) eps in
      Some (verify_bonus days targetHires adoptionProb finalBonus)
  end.

Definition minBonusForTarget (fuel : nat) (days targetHires : Z)
    (adoptionProb : num -> num) (eps : num) : option (result bonus) :=
  if (days <? 0)%Z then Some (Throw InvalidDuration)
  else if (targetHires <? 0)%Z then Some (Throw InvalidTarget)
  else if leb eps (of_Z 0) then Some (Throw InvalidPrecision)
  else if (targetHires =? 0)%Z then Some (Ok (Bonus (of_Z 0)))
  else
    let maxBonus := of_Z 10000 in
    let maxProb := adoptionProb maxBonus in
    if ltb (of_Z 0) maxProb then
      match simulate maxProb days with
      | Throw e => Some (Throw e)
      | Ok maxResult =>
          if ltb_last maxResult (of_Z targetHires)
          then Some (Ok Impossible)
          else search_and_verify fuel days targetHires adoptionProb eps
      end
    else search_and_verify fuel days targetHires adoptionProb eps.


(** *** Vocabulary of the specification *)

(** The pair [(referrerCounts, totalReferrals)] after [k] iterations of
    the loop over days, were none of them to [break]. *)
Definition state_after (p : num) (k : nat) : list num * num :=
  Nat.iter k (day_step p) initial_state.

(** Each entry is at least the entry before it. *)
Definition nondecreasing (l : list num) : Prop :=
  forall (i : nat) (x y : num),
    l !! i = Some x -> l !! S i = Some y -> leb x y = true.

(** [p] lies in the interval from 0 to 1. *)
Definition probability (p : num) : Prop :=
  leb (of_Z 0) p = true /\ leb p (of_Z 1) = true.

(** [simulate(p, days)] returns, and its last entry is at least
    [target]. *)
Definition reaches (p : num) (target days : Z) : bool :=
  match simulate p days with
  | Ok l => last_ge l (of_Z target)
  | Throw _ => false
  end.

End Simulation.

End Simulation.

Import Simulation.

(** ** ReferralNetwork.js *)

Module ReferralNetwork.

(** The four fields of the class.  [users] is a JavaScript [Set]: the
    list of its elements in insertion order, which is the order in which
    [for (const user of this.users)] visits them.  The [Set]s stored in
    [directReferrals] are lists in the same way. *)
Record network := Network {
  graph : gmap string (list string);
  users : list string;
  directReferrals : gmap string (list string);
  referrerOf : gmap string string;
}.

(** [constructor()] *)
Definition new_network : network := Network ∅ [] ∅ ∅.

(** [Set.prototype.add] *)
Definition set_add (x : string) (s : list string) : list string :=
  if decide (x ∈ s) then s else s ++ [x].

(** [this.users.has(userId)] *)
Definition has_user (net : network) (userId : string) : bool :=
  bool_decide (userId ∈ users net).

Definition addUser (userId : string) (net : network) : network :=
  Network
    (match graph net !! userId with
     | Some _ => graph net
     | None => <[userId := []]> (graph net)
     end)
    (set_add userId (users net))
    (match directReferrals net !! userId with
     | Some _ => directReferrals net
     | None => <[userId := []]> (directReferrals net)
     end)
    (referrerOf net).

(** [this.graph.get(node) || []] *)
Definition neighbors (net : network) (node : string) : list string :=
  default [] (graph net !! node).

(** The loop [for (const neighbor of neighbors) if (dfs(neighbor)) return
    true;] followed by [return false], over a given [dfs].  The set
    [visited] is shared by all the calls, so it is threaded through. *)
Fixpoint dfs_neighbors
    (dfs : gset string -> string -> option (bool * gset string))
    (visited : gset string) (ns : list string) : option (bool * gset string) :=
  match ns with
  | [] => Some (false, visited)
  | neighbor :: rest =>
      match dfs visited neighbor with
      | None => None
      | Some (true, visited') => Some (true, visited')
      | Some (false, visited') => dfs_neighbors dfs visited' rest
      end
  end.

(** The closure [dfs] of [wouldCreateCycle].  [fuel] bounds the depth of
    the recursion; [None] is fuel running out. *)
Fixpoint dfs (fuel : nat) (net : network) (referrerId : string)
    (visited : gset string) (node : string) : option (bool * gset string) :=
  match fuel with
  | O => None
  | S fuel' =>
      if decide (node = referrerId) then Some (true, visited)
      else if decide (node ∈ visited) then Some (false, visited)
      else dfs_neighbors (dfs fuel' net referrerId) ({[node]} ∪ visited)
             (neighbors net node)
  end.

Definition wouldCreateCycle (net : network) (referrerId candidateId : string)
    : option bool :=
  fst <$> dfs (S (size (graph net))) net referrerId ∅ candidateId.

(** [addReferral] returns what the call returns or throws, and the
    network after the call.  [None]: the model has no answer, because
    fuel ran out or because [this.graph.get(referrerId)] or
    [this.directReferrals.get(referrerId)] was [undefined]. *)
Definition addReferral (referrerId candidateId : string) (net : network)
    : option (result bool * network) :=
  if negb (has_user net referrerId) then Some (Throw UnknownUser, net)
  else if negb (has_user net candidateId) then Some (Throw UnknownUser, net)
  else if decide (referrerId = candidateId) then Some (Ok false, net)
  else if decide (is_Some (referrerOf net !! candidateId))
       then Some (Ok false, net)
  else
    cyclic ← wouldCreateCycle net referrerId candidateId;
    if (cyclic : bool) then Some (Ok false, net)
    else
      referred ← graph net !! referrerId;
      direct ← directReferrals net !! referrerId;
      Some (Ok true,
            Network
              (<[referrerId := referred ++ [candidateId]]> (graph net))
              (users net)
              (<[referrerId := set_add candidateId direct]>
                 (directReferrals net))
              (<[candidateId := referrerId]> (referrerOf net))).

Definition getDirectReferrals (net : network) (userId : string)
    : result (list string) :=
  if negb (has_user net userId) then Throw UnknownUser
  else Ok (default [] (directReferrals net !! userId)).

(** *** Breadth-first traversals

    The three traversals keep a queue and take its head with [shift()];
    each models [while (queue.length > 0)] with fuel, [None] being fuel
    running out. *)

(** [totalReferrals]: the state is [(queue, visited, count)]. *)
Fixpoint count_neighbors (ns : list string)
    (st : list string * gset string * nat) : list string * gset string * nat :=
  match ns with
  | [] => st
  | neighbor :: rest =>
      let '(queue, visited, count) := st in
      if decide (neighbor ∈ visited) then count_neighbors rest st
      else count_neighbors rest
             (queue ++ [neighbor], {[neighbor]} ∪ visited, S count)
  end.

Fixpoint count_loop (fuel : nat) (net : network)
    (st : list string * gset string * nat) : option nat :=
  let '(queue, visited, count) := st in
  match queue with
  | [] => Some count
  | current :: queue' =>
      match fuel with
      | O => None
      | S fuel' =>
          count_loop fuel' net
            (count_neighbors (neighbors net current) (queue', visited, count))
      end
  end.

Definition totalReferrals (net : network) (userId : string)
    : option (result nat) :=
  if negb (has_user net userId) then Some (Throw UnknownUser)
  else Ok <$> count_loop (length (users net)) net ([userId], {[userId]}, O).

(** [getReachSet]: the state is [(queue, reachable)].  The callers use
    the returned [Set] through [has] and [size] only, so it is a [gset]. *)
Fixpoint reach_neighbors (ns : list string)
    (st : list string * gset string) : list string * gset string :=
  match ns with
  | [] => st
  | neighbor :: rest =>
      let '(queue, reachable) := st in
      if decide (neighbor ∈ reachable) then reach_neighbors rest st
      else reach_neighbors rest (queue ++ [neighbor], {[neighbor]} ∪ reachable)
  end.

Fixpoint reach_loop (fuel : nat) (net : network)
    (st : list string * gset string) : option (gset string) :=
  let '(queue, reachable) := st in
  match queue with
  | [] => Some reachable
  | current :: queue' =>
      match fuel with
      | O => None
      | S fuel' =>
          reach_loop fuel' net
            (reach_neighbors (neighbors net current) (queue', reachable))
      end
  end.

Definition getReachSet (net : network) (userId : string)
    : option (gset string) :=
  reach_loop (length (users net)) net ([userId], {[userId]}).

(** [bfsShortestPaths]: the state is [(queue, distances)];
    [distances.get(current)] is [d]. *)
Fixpoint relax_neighbors (ns : list string) (d : nat)
    (st : list string * gmap string nat) : list string * gmap string nat :=
  match ns with
  | [] => st
  | neighbor :: rest =>
      let '(queue, distances) := st in
      match distances !! neighbor with
      | Some _ => relax_neighbors rest d st
      | None =>
          relax_neighbors rest d
            (queue ++ [neighbor], <[neighbor := d + 1]> distances)
      end
  end.

Fixpoint distance_loop (fuel : nat) (net : network)
    (st : list string * gmap string nat) : option (gmap string nat) :=
  let '(queue, distances) := st in
  match queue with
  | [] => Some distances
  | current :: queue' =>
      match fuel with
      | O => None
      | S fuel' =>
          d ← distances !! current;
          distance_loop fuel' net
            (relax_neighbors (neighbors net current) d (queue', distances))
      end
  end.

Definition bfsShortestPaths (net : network) (source : string)
    : option (gmap string nat) :=
  distance_loop (length (users net)) net ([source], {[source := O]}).

(** *** uniqueReachExpansion *)

(** [for (const user of this.users) reachSets.set(user, getReachSet(user))]
    and likewise for [shortestPaths]. *)
Fixpoint tabulate {A : Type} (f : string -> option A) (us : list string)
    (table : gmap string A) : option (gmap string A) :=
  match us with
  | [] => Some table
  | user :: rest => a ← f user; tabulate f rest (<[user := a]> table)
  end.

(** The scan for the user that adds the most new coverage; the state is
    [(bestUser, bestCoverage)].  [None] when [reachSets] has no entry for
    a user. *)
Fixpoint best_user (reachSets : gmap string (gset string))
    (selected : list string) (covered : gset string) (us : list string)
    (best : option string * nat) : option (option string * nat) :=
  match us with
  | [] => Some best
  | user :: rest =>
      if decide (user ∈ selected)
      then best_user reachSets selected covered rest best
      else
        userReach ← reachSets !! user;
        let newCoverage := size (userReach ∖ covered) in
        if (snd best <? newCoverage)%nat
        then best_user reachSets selected covered rest (Some user, newCoverage)
        else best_user reachSets selected covered rest best
  end.

(** [for (const user of this.users) if (!selected.includes(user))
    selected.push(user)] *)
Fixpoint add_remaining (us : list string) (selected : list string)
    : list string :=
  match us with
  | [] => selected
  | user :: rest =>
      if decide (user ∈ selected) then add_remaining rest selected
      else add_remaining rest (selected ++ [user])
  end.

(** [while (selected.length < this.users.size)] *)
Fixpoint select_loop (fuel : nat) (net : network)
    (reachSets : gmap string (gset string))
    (selected : list string) (covered : gset string) : option (list string) :=
  if (length selected <? length (users net))%nat then
    match fuel with
    | O => None
    | S fuel' =>
        best ← best_user reachSets selected covered (users net) (None, O);
        match best with
        | (Some bestUser, S _) =>
            bestUserReach ← reachSets !! bestUser;
            select_loop fuel' net reachSets (selected ++ [bestUser])
              (covered ∪ bestUserReach)
        | _ => Some (add_remaining (users net) selected)
        end
    end
  else Some selected.

Definition uniqueReachExpansion (net : network) : option (list string) :=
  if (length (users net) =? 0)%nat then Some []
  else
    reachSets ← tabulate (getReachSet net) (users net) ∅;
    select_loop (length (users net)) net reachSets [] ∅.

(** *** flowCentrality *)

(** The body of the loop over [v], for fixed [s] and [t]. *)
Definition count_between (shortestPaths : gmap string (gmap string nat))
    (s t : string) (sPaths : gmap string nat) (distST : nat)
    (centrality : gmap string nat) (v : string) : option (gmap string nat) :=
  if decide (v = s ∨ v = t) then Some centrality
  else
    vPaths ← shortestPaths !! v;
    match sPaths !! v, vPaths !! t with
    | Some distSV, Some distVT =>
        if (distSV + distVT =? distST)%nat
        then score ← centrality !! v; Some (<[v := score + 1]> centrality)
        else Some centrality
    | _, _ => Some centrality
    end.

(** A [for ... of] loop whose body may have no answer. *)
Fixpoint for_each {A S : Type} (body : S -> A -> option S) (l : list A)
    (st : S) : option S :=
  match l with
  | [] => Some st
  | x :: rest => st' ← body st x; for_each body rest st'
  end.

(** The body of the loop over [t], for fixed [s]. *)
Definition count_target (net : network)
    (shortestPaths : gmap string (gmap string nat)) (s : string)
    (centrality : gmap string nat) (t : string) : option (gmap string nat) :=
  if decide (s = t) then Some centrality
  else
    sPaths ← shortestPaths !! s;
    match sPaths !! t with
    | Some distST =>
        for_each (count_between shortestPaths s t sPaths distST)
          (users net) centrality
    | None => Some centrality
    end.

(** [centralityList.sort((a, b) => b.centralityScore - a.centralityScore)]:
    [Array.prototype.sort] is stable, and so is this insertion sort. *)
Fixpoint insert_desc (x : string * nat) (l : list (string * nat))
    : list (string * nat) :=
  match l with
  | [] => [x]
  | y :: rest =>
      if (snd x <? snd y)%nat then y :: insert_desc x rest else x :: l
  end.

Definition sort_desc (l : list (string * nat)) : list (string * nat) :=
  foldr insert_desc [] l.

(** [centrality] is a [Map] filled in the order of [users], so that is
    the order in which [for (const [user, score] of centrality)] reads
    it. *)
Definition flowCentrality (net : network) : option (list (string * nat)) :=
  if (length (users net) <=? 1)%nat then Some []
  else
    shortestPaths ← tabulate (bfsShortestPaths net) (users net) ∅;
    let zero := foldl (fun c user => <[user := O]> c) ∅ (users net) in
    centrality ←
      for_each
        (fun c s => for_each (count_target net shortestPaths s) (users net) c)
        (users net) zero;
    centralityList ← mapM (fun user => score ← centrality !! user;
                                        Some (user, score)) (users net);
    Some (sort_desc centralityList).

(** *** Sequences of calls *)

Inductive call :=
| AddUser (userId : string)
| AddReferral (referrerId candidateId : string).

(** The network after a call; a call that throws leaves the network as
    it was. *)
Definition after_call (c : call) (net : network) : option network :=
  match c with
  | AddUser userId => Some (addUser userId net)
  | AddReferral referrerId candidateId =>
      snd <$> addReferral referrerId candidateId net
  end.

Fixpoint after_calls (cs : list call) (net : network) : option network :=
  match cs with
  | [] => Some net
  | c :: rest => net' ← after_call c net; after_calls rest net'
  end.

(** *** Vocabulary of the specification *)

(** [referrer -> candidate] is an edge of the adjacency view. *)
Definition edge (net : network) (referrer candidate : string) : Prop :=
  candidate ∈ neighbors net referrer.

(** There is a directed path, possibly empty, from [x] to [y]. *)
Definition path (net : network) (x y : string) : Prop := rtc (edge net) x y.

(** No node is reachable from itself along one edge or more. *)
Definition acyclic (net : network) : Prop :=
  forall x : string, ~ tc (edge net) x x.

(** The network that a successful [addReferral] builds. *)
Definition commit (referrerId candidateId : string) (net : network) : network :=
  Network
    (<[referrerId := neighbors net referrerId ++ [candidateId]]> (graph net))
    (users net)
    (<[referrerId := default [] (directReferrals net !! referrerId)
                     ++ [candidateId]]> (directReferrals net))
    (<[candidateId := referrerId]> (referrerOf net)).

(** The state that the calls keep: [users] has no duplicates and is the
    key set of [graph]; [directReferrals] holds the same lists as [graph];
    the edges are the entries of [referrerOf]; no adjacency list repeats
    a candidate; every candidate is a user; there is no cycle. *)
Record well_formed (net : network) : Prop := {
  wf_users : NoDup (users net);
  wf_graph : forall u, u ∈ users net <-> is_Some (graph net !! u);
  wf_direct : directReferrals net = graph net;
  wf_referrer : forall r c, edge net r c <-> referrerOf net !! c = Some r;
  wf_nodup : forall r, NoDup (neighbors net r);
  wf_candidate : forall r c, edge net r c -> c ∈ users net;
  wf_acyclic : acyclic net;
}.

(** The score that [flowCentrality] is to give [v]: the number of ordered
    pairs [(s, t)] of users, with [s], [t] and [v] pairwise different,
    whose three distances are finite and add up. *)
Definition between (dist : string -> string -> option nat)
    (v : string) (st : string * string) : bool :=
  let '(s, t) := st in
  bool_decide (s <> t /\ v <> s /\ v <> t) &&
  match dist s t, dist s v, dist v t with
  | Some dST, Some dSV, Some dVT => (dSV + dVT =? dST)%nat
  | _, _, _ => false
  end.

Definition flow_score (us : list string)
    (dist : string -> string -> option nat) (v : string) : nat :=
  length (filter (fun st => between dist v st = true) (list_prod us us)).

(** The distance from [s] to [t] that the breadth-first search finds. *)
Definition bfs_distance (net : network) (s t : string) : option nat :=
  distances ← bfsShortestPaths net s; distances !! t.

(** *** Vocabulary of the proofs *)

(** Every node that the search added to [visited] has all its neighbours
    in the new set. *)
Definition closed_from (net : network) (v v' : gset string) : Prop :=
  forall x, x ∈ v' -> x ∉ v -> forall y, edge net x y -> y ∈ v'.

(** What a call of [dfs], or the loop over the neighbours, does to
    [visited] and when it returns true. *)
Definition dfs_post (net : network) (referrerId : string)
    (v : gset string) (starts : list string)
    (r : bool * gset string) : Prop :=
  v ⊆ snd r /\ (referrerId ∉ v -> referrerId ∉ snd r) /\
  if fst r then exists n, n ∈ starts /\ path net n referrerId
  else (forall n, n ∈ starts -> n ∈ snd r) /\ closed_from net v (snd r).

(** The users, as a set. *)
Definition all_users (net : network) : gset string :=
  list_to_set (users net).

(** The set that [getReachSet] returns, or the empty set. *)
Definition reach_set (net : network) (u : string) : gset string :=
  default ∅ (getReachSet net u).

(** What the loops add to the score of [x] for the pair [st]. *)
Definition counted (net : network) (x : string) (st : string * string)
    : Prop :=
  x ∈ users net /\ between (bfs_distance net) x st = true.

(** The networks of the test suite: the chain [A -> B -> C], and the
    tree [A -> B, A -> C, B -> D, C -> E]. *)
Definition chain_calls : list call :=
  [AddUser "A"; AddUser "B"; AddUser "C";
   AddReferral "A" "B"; AddReferral "B" "C"].

Definition chain_network : network :=
  default new_network (after_calls chain_calls new_network).

Definition tree_calls : list call :=
  [AddUser "A"; AddUser "B"; AddUser "C"; AddUser "D"; AddUser "E";
   AddReferral "A" "B"; AddReferral "A" "C";
   AddReferral "B" "D"; AddReferral "C" "E"].

Definition tree_network : network :=
  default new_network (after_calls tree_calls new_network).

End ReferralNetwork.
Import ReferralNetwork.

(** ** ReferralNetwork.js, continued: topKReferrers; and what
    ReferralManager.jsx computes from a network *)

Module ReferralNetworkViews.

(** The loop of [topKReferrers] that fills [userScores]: one record
    [{userId, totalReferrals}] per user, in the order of [users].  A
    [totalReferrals] that throws ends the loop with that error. *)
Fixpoint user_scores (net : network) (us : list string)
    : option (result (list (string * nat))) :=
  match us with
  | [] => Some (Ok [])
  | user :: rest =>
      match totalReferrals net user with
      | None => None
      | Some (Throw e) => Some (Throw e)
      | Some (Ok totalRefs) =>
          match user_scores net rest with
          | Some (Ok scores) => Some (Ok ((user, totalRefs) :: scores))
          | other => other
          end
      end
  end.

(** [topKReferrers(k)], for an integer [k]: [slice(0, k)] is [take]. *)
Definition topKReferrers (net : network) (k : Z)
    : option (result (list (string * nat))) :=
  if (k <=? 0)%Z then Some (Ok [])
  else
    match user_scores net (users net) with
    | Some (Ok userScores) =>
        Some (Ok (take (Z.to_nat k) (sort_desc userScores)))
    | other => other
    end.

(** ReferralManager.jsx, [metrics]: for each user, in the order of
    [users], the record [{userId, direct, total}] with
    [direct = getDirectReferrals(u).length] and
    [total = totalReferrals(u)]. *)
Fixpoint metrics_rows (net : network) (us : list string)
    : option (result (list (string * nat * nat))) :=
  match us with
  | [] => Some (Ok [])
  | u :: rest =>
      match getDirectReferrals net u with
      | Throw e => Some (Throw e)
      | Ok direct =>
          match totalReferrals net u with
          | None => None
          | Some (Throw e) => Some (Throw e)
          | Some (Ok total) =>
              match metrics_rows net rest with
              | Some (Ok rows) => Some (Ok ((u, length direct, total) :: rows))
              | other => other
              end
          end
      end
  end.

Definition metrics (net : network)
    : option (result (list (string * nat * nat))) :=
  metrics_rows net (users net).

(** ReferralManager.jsx, [networkStats.totalReferrals]:
    [Array.from(network.directReferrals.values()).reduce((acc, set) =>
    acc + set.size, 0)].  A sum does not depend on the order in which the
    [Map] hands out its values. *)
Definition stats_totalReferrals (net : network) : nat :=
  map_fold (fun _ set acc => acc + length set) 0 (directReferrals net).

(** [networkStats.maxTotalReach]:
    [Math.max(...metrics.map(m => m.total), 0)]. *)
Definition stats_maxTotalReach (rows : list (string * nat * nat)) : nat :=
  foldr (fun row acc => Nat.max (snd row) acc) 0 rows.

(** [networkStats.totalUsers]: [users.length]. *)
Definition stats_totalUsers (net : network) : nat := length (users net).

(** [uniqueReachExpansion], the vocabulary of its loop: [newCoverage],
    the number of users that [user] reaches and the users selected so far
    do not, [covered] being the union of the reach sets of the selected
    users. *)
Definition new_coverage (net : network) (selected : list string)
    (user : string) : nat :=
  size (reach_set net user ∖ ⋃ (reach_set net <$> selected)).

End ReferralNetworkViews.
Import ReferralNetworkViews.

(** * Properties

    ** The laws hold for the rationals, and in part for binary64 *)

Module NumLaws.

(** *** The laws of the rationals *)

Lemma Q_leb_iff (x y : Q) : leb x y = true <-> (x <= y)%Q.
Proof. apply Qle_bool_iff. Qed.

Lemma Q_ltb_iff (x y : Q) : ltb x y = true <-> (x < y)%Q.
Proof.
  cbn. rewrite negb_true_iff, <- not_true_iff_false, Qle_bool_iff.
  split; [apply Qnot_le_lt | apply Qlt_not_le].
Qed.

Lemma Q_ltb_false_iff (x y : Q) : ltb x y = false <-> (y <= x)%Q.
Proof. cbn. rewrite negb_false_iff. apply Qle_bool_iff. Qed.

Lemma Q_leb_false_iff (x y : Q) : leb x y = false <-> (y < x)%Q.
Proof.
  cbn. rewrite <- not_true_iff_false, Qle_bool_iff.
  split; [apply Qnot_le_lt | apply Qlt_not_le].
Qed.

#[export] Instance Q_ground_laws : GroundLaws Q_number.
Proof. split; reflexivity. Qed.

#[export] Instance Q_compare_laws : CompareLaws Q_number.
Proof.
  split.
  - intros x y H. apply Q_ltb_false_iff. now apply Q_leb_iff.
  - intros x y H. apply Q_ltb_false_iff. apply Qlt_le_weak. now apply Q_ltb_iff.
  - intros x y H. apply Q_leb_iff. apply Qlt_le_weak. now apply Q_ltb_iff.
  - intros x y H. apply Q_ltb_iff in H. cbn.
    apply not_true_iff_false. intros E. apply Qeq_bool_iff in E.
    rewrite E in H. exact (Qlt_irrefl _ H).
Qed.

(** After [n] halvings the distance to [hi] is [(hi - lo) / 2^n]. *)
Lemma Q_bisect_gap (hi lo : Q) (n : nat) :
  (hi - Nat.iter n (fun l : Q => div (add l hi) (of_Z 2)) lo
   == (hi - lo) / inject_Z (2 ^ Z.of_nat n))%Q.
Proof.
  induction n as [|n IH].
  - change (hi - lo == (hi - lo) / 1)%Q. field.
  - rewrite Nat.iter_succ. cbn [div add of_Z Q_number].
    rewrite !Qred_correct. change (inject_Z 2) with 2%Q.
    set (x := Nat.iter n _ lo) in *.
    assert (Hx : (x == hi - (hi - lo) / inject_Z (2 ^ Z.of_nat n))%Q).
    { rewrite <- IH. ring. }
    rewrite Hx, Nat2Z.inj_succ, Z.pow_succ_r by lia.
    rewrite inject_Z_mult.
    assert (Hp : ~ (inject_Z (2 ^ Z.of_nat n) == 0)%Q).
    { intros E. assert (0 < 2 ^ Z.of_nat n)%Z by (apply Z.pow_pos_nonneg; lia).
      unfold Qeq in E. cbn in E. lia. }
    field. exact Hp.
Qed.

Lemma Q_pow2_above (n : nat) : (Z.of_nat n < 2 ^ Z.of_nat n)%Z.
Proof. apply Z.pow_gt_lin_r; lia. Qed.

#[export] Instance Q_order_laws : OrderLaws Q_number.
Proof.
  split.
  - intros x y z H1 H2. apply Q_leb_iff in H1, H2. apply Q_leb_iff.
    now apply Qle_trans with y.
  - intros x y _ Hy. apply Q_leb_iff in Hy. apply Q_leb_iff.
    cbn. rewrite Qred_correct. cbn in Hy.
    rewrite <- (Qplus_0_r x) at 1. apply Qplus_le_r. exact Hy.
  - intros x y H. apply Q_leb_iff in H. apply Q_leb_iff. cbn.
    rewrite <- Zle_Qle. now apply Qfloor_resp_le.
Qed.

#[export] Instance Q_bracket_law : BracketLaw Q_number.
Proof.
  split. intros eps Heps. apply Q_leb_false_iff in Heps. cbn in Heps.
  set (hi := of_Z 10000 : Q). set (lo := of_Z 0 : Q).
  set (g := ((hi - lo) / eps)%Q).
  exists (Z.to_nat (Qceiling g)).
  apply Q_ltb_false_iff.
  change (Qred (hi - Nat.iter (Z.to_nat (Qceiling g))
                 (fun l : Q => div (add l hi) (of_Z 2)) lo) <= eps)%Q.
  rewrite Qred_correct, Q_bisect_gap.
  set (n := Z.to_nat (Qceiling g)).
  assert (Hpow : (0 < inject_Z (2 ^ Z.of_nat n))%Q).
  { rewrite <- (Zlt_Qlt 0). apply Z.pow_pos_nonneg; lia. }
  apply Qle_shift_div_r; [exact Hpow|].
  assert (Hg : (g <= inject_Z (2 ^ Z.of_nat n))%Q).
  { apply Qle_trans with (inject_Z (Qceiling g)); [apply Qle_ceiling|].
    rewrite <- Zle_Qle. pose proof (Q_pow2_above n). subst n. lia. }
  assert (E : (hi - lo == g * eps)%Q).
  { unfold g. field. intros E. rewrite E in Heps. exact (Qlt_irrefl _ Heps). }
  rewrite E, (Qmult_comm eps). apply Qmult_le_compat_r; [exact Hg|].
  now apply Qlt_le_weak.
Qed.

(** *** The laws of binary64 *)

#[export] Instance float_ground_laws : GroundLaws float_number.
Proof. split; reflexivity. Qed.

Lemma SFcompare_antisym (x y : spec_float) :
  SFcompare y x = option_map CompOpp (SFcompare x y).
Proof.
  destruct x as [sx|sx| |sx mx ex], y as [sy|sy| |sy my ey]; cbn;
    try reflexivity;
    try (destruct sx; reflexivity); try (destruct sy; reflexivity);
    try (destruct sx, sy; reflexivity).
  destruct sx, sy; cbn; try reflexivity.
  - rewrite (Z.compare_antisym ey ex).
    destruct (ey ?= ex)%Z eqn:E; cbn; try reflexivity.
    now rewrite (Pos.compare_cont_antisym _ _ Eq), CompOpp_involutive.
  - rewrite (Z.compare_antisym ey ex).
    destruct (ey ?= ex)%Z eqn:E; cbn; try reflexivity.
    now rewrite (Pos.compare_cont_antisym _ _ Eq).
Qed.

#[export] Instance float_compare_laws : CompareLaws float_number.
Proof.
  split; intros x y; cbn;
    rewrite ?FloatAxioms.leb_spec, ?FloatAxioms.ltb_spec, ?FloatAxioms.eqb_spec;
    unfold SFleb, SFltb, SFeqb;
    rewrite ?(SFcompare_antisym (Prim2SF x) (Prim2SF y));
    destruct (SFcompare (Prim2SF x) (Prim2SF y)) as [[]|]; cbn; congruence.
Qed.


End NumLaws.
Import NumLaws.

(** ** Simulation.js: properties *)

Module SimulationProps.

Section Structure.
Context {num : Type} {N : Number num}.

(** *** When [simulate] returns *)

Lemma capped_days (days : Z) :
  (if (MAX_DAYS <? days)%Z then MAX_DAYS else days) = Z.min days MAX_DAYS.
Proof. unfold MAX_DAYS. destruct (Z.ltb_spec 100 days); lia. Qed.

Lemma simulate_Ok_inv (p : num) (days : Z) (l : list num) :
  simulate p days = Ok l ->
  ltb p (of_Z 0) = false /\ ltb (of_Z 1) p = false /\ (0 <= days)%Z /\
  l = simulate_days (Z.to_nat (Z.min days MAX_DAYS)) p initial_state.
Proof.
  unfold simulate. rewrite capped_days.
  destruct (ltb p (of_Z 0)) eqn:E0; [discriminate|].
  destruct (ltb (of_Z 1) p) eqn:E1; [discriminate|]. cbn [orb].
  destruct (Z.ltb_spec (Z.min days MAX_DAYS) 0) as [Hneg|Hpos]; [discriminate|].
  intros H. injection H as <-. unfold MAX_DAYS in Hpos.
  repeat split; try reflexivity. lia.
Qed.

Lemma simulate_Ok (p : num) (days : Z) :
  ltb p (of_Z 0) = false -> ltb (of_Z 1) p = false -> (0 <= days)%Z ->
  simulate p days =
    Ok (simulate_days (Z.to_nat (Z.min days MAX_DAYS)) p initial_state).
Proof.
  intros E0 E1 Hd. unfold simulate. rewrite capped_days, E0, E1. cbn [orb].
  destruct (Z.ltb_spec (Z.min days MAX_DAYS) 0) as [Hneg|Hpos];
    [unfold MAX_DAYS in Hneg; lia | reflexivity].
Qed.

(** A duration above [MAX_DAYS] is cut down to it. *)
Lemma simulate_truncates (p : num) (days : Z) :
  (MAX_DAYS < days)%Z -> simulate p days = simulate p MAX_DAYS.
Proof.
  intros H. unfold simulate. rewrite !capped_days.
  replace (Z.min days MAX_DAYS) with MAX_DAYS by lia.
  now rewrite Z.min_id.
Qed.

(** *** The loop over days *)

Lemma simulate_days_unfold (n : nat) (p : num) (st : list num * num) :
  simulate_days (S n) p st =
    floor (snd (day_step p st)) ::
      (if (MAX_REFERRERS <=? length (fst (day_step p st)))%nat then []
       else simulate_days n p (day_step p st)).
Proof. reflexivity. Qed.

(** The result of the loop, read off the iterates of [day_step]: it has
    at most [n] entries, entry [k] is the floor of the total after [k+1]
    days, the cap is not reached before the last entry, and it is reached
    at the last entry when there are fewer than [n]. *)
Lemma simulate_days_spec (p : num) (n : nat) (st : list num * num) :
  let l := simulate_days n p st in
  (length l <= n)%nat /\
  (forall k, (0 < k < length l)%nat ->
     (length (fst (Nat.iter k (day_step p) st)) < MAX_REFERRERS)%nat) /\
  ((length l < n)%nat ->
     (MAX_REFERRERS <= length (fst (Nat.iter (length l) (day_step p) st)))%nat) /\
  (forall k x, l !! k = Some x ->
     x = floor (snd (Nat.iter (S k) (day_step p) st))).
Proof.
  revert st. induction n as [|n IH]; intros st l.
  - subst l. cbn. repeat split; try lia. intros k x Hk. discriminate.
  - subst l. rewrite simulate_days_unfold.
    set (st' := day_step p st).
    destruct (MAX_REFERRERS <=? length (fst st'))%nat eqn:Ecap.
    + apply Nat.leb_le in Ecap. cbn [length]. repeat split; try lia.
      * intros _. exact Ecap.
      * intros [|k] x Hk; [|discriminate]. now injection Hk as <-.
    + apply Nat.leb_gt in Ecap.
      destruct (IH st') as (Hlen & Hbelow & Hcap & Hent).
      cbn [length]. repeat split; try lia.
      * intros k Hk. destruct k as [|k]; [lia|].
        rewrite Nat.iter_succ_r. fold st'.
        destruct k as [|k]; [exact Ecap|]. apply Hbelow. lia.
      * intros Hlt. rewrite Nat.iter_succ_r. fold st'. apply Hcap. lia.
      * intros [|k] x Hk.
        -- now injection Hk as <-.
        -- rewrite Nat.iter_succ_r. fold st'. now apply Hent.
Qed.

(** Fewer days give a prefix of the result. *)
Lemma simulate_days_prefix (p : num) (n m : nat) (st : list num * num) :
  (n <= m)%nat -> simulate_days n p st `prefix_of` simulate_days m p st.
Proof.
  revert m st. induction n as [|n IH]; intros m st Hnm.
  - apply prefix_nil.
  - destruct m as [|m]; [lia|]. rewrite !simulate_days_unfold.
    apply prefix_cons.
    destruct (MAX_REFERRERS <=? _)%nat; [done|]. apply IH. lia.
Qed.

(** *** The binary search of [daysToTarget] *)


(** *** [minBonusForTarget]: what a returned bonus satisfies *)




End Structure.

(** *** Probability zero *)

Section Zero.
Context {num : Type} {N : Number num} {G : GroundLaws N}.







End Zero.

(** *** Probabilities between 0 and 1 *)

Section Ordered.
Context {num : Type} {N : Number num}.
Context {G : GroundLaws N} {C : CompareLaws N} {O : OrderLaws N}.

Lemma probability_valid (p : num) :
  probability p -> ltb p (of_Z 0) = false /\ ltb (of_Z 1) p = false.
Proof. intros [H0 H1]. split; now apply leb_not_gt. Qed.

Lemma add_nonneg (x y : num) :
  leb (of_Z 0) x = true -> leb (of_Z 0) y = true ->
  leb (of_Z 0) (add x y) = true.
Proof.
  intros Hx Hy. apply leb_trans with x; [exact Hx|].
  now apply add_nonneg_le.
Qed.

Lemma process_referrers_nonneg (p : num) (counts : list num) (d : num) :
  leb (of_Z 0) p = true -> leb (of_Z 0) d = true ->
  leb (of_Z 0) (snd (process_referrers p counts d)) = true.
Proof.
  intros Hp. revert d. induction counts as [|c rest IH]; intros d Hd.
  - exact Hd.
  - cbn [process_referrers]. destruct (leb referralCapacity c).
    + specialize (IH d Hd). destruct (process_referrers p rest d). exact IH.
    + specialize (IH (add d p) (add_nonneg _ _ Hd Hp)).
      destruct (process_referrers p rest (add d p)). exact IH.
Qed.

Lemma day_step_total (p : num) (st : list num * num) :
  snd (day_step p st)
  = add (snd st) (snd (process_referrers p (fst st) (of_Z 0))).
Proof.
  unfold day_step. now destruct (process_referrers p (fst st) (of_Z 0)).
Qed.

Lemma nondecreasing_cons (x y : num) (l : list num) :
  leb x y = true -> nondecreasing (y :: l) -> nondecreasing (x :: y :: l).
Proof.
  intros Hxy Hl [|i] a b Ha Hb.
  - cbn in Ha, Hb. now injection Ha as <-; injection Hb as <-.
  - exact (Hl i a b Ha Hb).
Qed.

Lemma nondecreasing_tail (x : num) (l : list num) :
  nondecreasing (x :: l) -> nondecreasing l.
Proof. intros H i a b Ha Hb. exact (H (S i) a b Ha Hb). Qed.

Lemma nondecreasing_singleton (x : num) : nondecreasing [x].
Proof. intros [|i] a b Ha Hb; discriminate. Qed.

(** The running total never decreases, so neither do its floors. *)
Lemma simulate_days_nondecreasing (p : num) (n : nat) (st : list num * num) :
  leb (of_Z 0) p = true -> leb (of_Z 0) (snd st) = true ->
  nondecreasing (floor (snd st) :: simulate_days n p st).
Proof.
  intros Hp. revert st. induction n as [|n IH]; intros st Hst.
  - apply nondecreasing_singleton.
  - rewrite simulate_days_unfold.
    assert (Hd : leb (of_Z 0) (snd (process_referrers p (fst st) (of_Z 0))) = true)
      by (apply process_referrers_nonneg; [exact Hp | apply leb_0_0]).
    assert (Hstep : leb (snd st) (snd (day_step p st)) = true)
      by (rewrite day_step_total; now apply add_nonneg_le).
    apply nondecreasing_cons; [now apply floor_mono|].
    destruct (MAX_REFERRERS <=? _)%nat; [apply nondecreasing_singleton|].
    apply IH. now apply leb_trans with (snd st).
Qed.


(** *** [daysToTarget] when its upper bound is enough *)

Lemma nondecreasing_le (l : list num) (i j : nat) (x y : num) :
  nondecreasing l -> (i < j)%nat ->
  l !! i = Some x -> l !! j = Some y -> leb x y = true.
Proof.
  intros Hl Hij Hi. revert y. induction Hij as [|j Hij IH]; intros y Hj.
  - exact (Hl i x y Hi Hj).
  - destruct (lookup_lt_is_Some_2 l j) as [z Hz].
    { apply lookup_lt_Some in Hj. lia. }
    apply leb_trans with z; [now apply IH | exact (Hl j z y Hz Hj)].
Qed.

Lemma last_lookup_Some {A : Type} (l : list A) (x : A) :
  last l = Some x <-> l !! pred (length l) = Some x.
Proof. now rewrite last_lookup. Qed.

Lemma last_ge_prefix (l l' : list num) (t : num) :
  nondecreasing l' -> l `prefix_of` l' ->
  last_ge l t = true -> last_ge l' t = true.
Proof.
  intros Hnd [k ->]. unfold last_ge.
  destruct (last l) as [x|] eqn:Ex; [|discriminate]. intros Hx.
  destruct k as [|a k]; [now rewrite app_nil_r, Ex|].
  destruct (last (l ++ a :: k)) as [y|] eqn:Ey.
  - apply leb_trans with x; [exact Hx|].
    apply last_lookup_Some in Ex, Ey.
    apply (nondecreasing_le _ (pred (length l)) (pred (length (l ++ a :: k)))
             x y Hnd).
    + rewrite length_app. cbn. destruct l; [discriminate|]. cbn. lia.
    + rewrite lookup_app_l; [exact Ex|]. destruct l; [discriminate|]. cbn. lia.
    + exact Ey.
  - apply last_None in Ey. now destruct l.
Qed.

(** More days reach what fewer days reach. *)
Lemma reaches_monotone (p : num) (t d d' : Z) :
  probability p -> (0 <= d <= d')%Z ->
  reaches p t d = true -> reaches p t d' = true.
Proof.
  intros Hp Hd. destruct (probability_valid p Hp) as [E0 E1].
  unfold reaches. rewrite !simulate_Ok by (assumption || lia).
  apply last_ge_prefix.
  - apply nondecreasing_tail with (floor (snd initial_state)).
    apply simulate_days_nondecreasing; [apply Hp | apply leb_0_0].
  - apply simulate_days_prefix. unfold MAX_DAYS. lia.
Qed.



End Ordered.

(** *** Evaluations on binary64 *)




(** The run of the test suite, [simulate(0.1, 10)], on binary64: the
    sum of a hundred times 0.1 is just below 10, so the first entry is 9;
    the entries do not decrease. *)
Lemma simulate_test_run :
  simulate 0x1.999999999999ap-4%float 10
  = Ok [9; 20; 32; 45; 59; 75; 92; 111; 132; 154]%float
  /\ nondecreasing [9; 20; 32; 45; 59; 75; 92; 111; 132; 154]%float.
Proof.
  split; [vm_compute; reflexivity|].
  repeat (apply nondecreasing_cons; [reflexivity|]).
  apply nondecreasing_singleton.
Qed.

(** *** The claims about [Simulation] *)



(** C4, at the input where the code misses the claim: with [p = 2^-10] a
    total of 1 is reached on day 11, so the target 1 is reachable, but
    [daysToTarget] searches the days from 0 to [max(1, 1) = 1] only and
    returns 1, a day on which the total is still 0. *)
Theorem daysToTarget_misses_reachable_target :
  simulate 0.0009765625%float 11
    = Ok [0; 0; 0; 0; 0; 0; 0; 0; 0; 0; 1]%float
  /\ daysToTarget 0.0009765625%float 1 = Some (Ok (Days 1))
  /\ simulate 0.0009765625%float 1 = Ok [0%float]
  /\ last_ge [0%float] (of_Z 1) = false.
Proof. repeat split; vm_compute; reflexivity. Qed.





(** C10: the sequence that [simulate] returns has at most
    [min(days, 100)] entries; entry [k] is the floor of the total after
    [k + 1] days; the slot list stays below 5000 until the last entry,
    and has reached 5000 at the last entry whenever the sequence is
    shorter than [min(days, 100)]; a duration above 100 gives what 100
    gives; and with [p = 1] and 50 days the sequence has 6 entries. *)
Theorem simulate_length :
  (forall (num : Type) (N : Number num) (p : num) (days : Z) (l : list num),
     simulate p days = Ok l ->
     (Z.of_nat (length l) <= Z.min days MAX_DAYS)%Z
     /\ (forall k x, l !! k = Some x -> x = floor (snd (state_after p (S k))))
     /\ (forall k, (0 < k < length l)%nat ->
           (length (fst (state_after p k)) < MAX_REFERRERS)%nat)
     /\ ((Z.of_nat (length l) < Z.min days MAX_DAYS)%Z ->
           (MAX_REFERRERS <= length (fst (state_after p (length l))))%nat))
  /\ (forall (num : Type) (N : Number num) (p : num) (days : Z),
        (MAX_DAYS < days)%Z -> simulate p days = simulate p MAX_DAYS)
  /\ (exists l : list float, simulate 1%float 50 = Ok l /\ length l = 6%nat).
Proof.
  split; [|split].
  - intros num N p days l H.
    apply simulate_Ok_inv in H as (_ & _ & Hd & ->).
    destruct (simulate_days_spec p (Z.to_nat (Z.min days MAX_DAYS))
                initial_state) as (Hlen & Hbelow & Hcap & Hent).
    unfold MAX_DAYS in *. split; [lia|]. split; [exact Hent|].
    split; [exact Hbelow|]. intros Hlt. apply Hcap. lia.
  - intros num N p days. apply simulate_truncates.
  - eexists. split; [vm_compute; reflexivity | reflexivity].
Qed.

Lemma simulate_length_witness :
  (Z.of_nat (length [50; 125; 237]%float) <= Z.min 3 MAX_DAYS)%Z
  /\ simulate 0.5%float 250 = simulate 0.5%float MAX_DAYS.
Proof.
  destruct simulate_length as (Hlen & Htrunc & _).
  split.
  - apply (Hlen float float_number 0.5%float 3%Z). vm_compute. reflexivity.
  - apply (Htrunc float float_number). reflexivity.
Defined.

(** *** More about [daysToTarget] *)



(** X2: a target of 0 takes 0 days, whatever the probability in [0,1];
    and with probability 0 [daysToTarget] returns [Infinity] for every
    positive target. *)
Theorem daysToTarget_edge_cases {num : Type} {N : Number num}
    {G : GroundLaws N} {C : CompareLaws N} :
  (forall p : num, probability p -> daysToTarget p 0 = Some (Ok (Days 0)))
  /\ (forall target : Z, (0 < target)%Z ->
        daysToTarget (of_Z 0 : num) target = Some (Ok Unbounded)).
Proof.
  split.
  - intros p [H0 H1]. unfold daysToTarget.
    now rewrite (leb_not_gt _ _ H0), (leb_not_gt _ _ H1).
  - intros target Ht. unfold daysToTarget.
    rewrite ltb_0_0, ltb_1_0, eqb_0_0. cbn [orb].
    destruct (Z.ltb_spec target 0); [lia|].
    destruct (Z.eqb_spec target 0); [lia | reflexivity].
Qed.

Lemma daysToTarget_edge_cases_witness :
  daysToTarget 0.5%float 0 = Some (Ok (Days 0))
  /\ daysToTarget 0%float 100 = Some (Ok Unbounded).
Proof.
  destruct (@daysToTarget_edge_cases float float_number float_ground_laws
              float_compare_laws) as (Hzero & Hnever).
  split; [apply Hzero; split; reflexivity | apply Hnever; lia].
Defined.

End SimulationProps.

(** ** ReferralNetwork.js: properties *)

Module ReferralNetworkProps.

(** *** Sets and membership *)

Lemma has_user_true (net : network) (u : string) :
  has_user net u = true <-> u ∈ users net.
Proof. unfold has_user. apply bool_decide_eq_true. Qed.

Lemma has_user_false (net : network) (u : string) :
  has_user net u = false <-> u ∉ users net.
Proof. unfold has_user. apply bool_decide_eq_false. Qed.

Lemma elem_of_set_add (x y : string) (s : list string) :
  y ∈ set_add x s <-> y = x \/ y ∈ s.
Proof.
  unfold set_add. destruct (decide (x ∈ s)) as [Hin|Hout].
  - split; [auto | intros [->|H]; assumption].
  - rewrite elem_of_app, list_elem_of_singleton. tauto.
Qed.

Lemma NoDup_set_add (x : string) (s : list string) :
  NoDup s -> NoDup (set_add x s).
Proof.
  intros Hs. unfold set_add. destruct (decide (x ∈ s)) as [Hin|Hout].
  - exact Hs.
  - apply NoDup_app. split; [exact Hs|]. split; [|apply NoDup_singleton].
    intros y Hy Hy'. apply list_elem_of_singleton in Hy'. now subst.
Qed.

Lemma set_add_fresh (x : string) (s : list string) :
  x ∉ s -> set_add x s = s ++ [x].
Proof. intros H. unfold set_add. now rewrite decide_False. Qed.

(** *** The depth-first search of [wouldCreateCycle] *)

Section Dfs.
Variable net : network.
Variable referrerId : string.

Lemma closed_from_refl (v : gset string) : closed_from net v v.
Proof. intros x Hx Hnx. contradiction. Qed.

Lemma closed_from_trans (v1 v2 v3 : gset string) :
  v2 ⊆ v3 -> closed_from net v1 v2 -> closed_from net v2 v3 ->
  closed_from net v1 v3.
Proof.
  intros H23 C12 C23 x Hx Hnx y Hy.
  destruct (decide (x ∈ v2)) as [Hx2|Hx2].
  - apply H23. now apply (C12 x Hx2 Hnx).
  - now apply (C23 x Hx Hx2).
Qed.

Lemma dfs_neighbors_spec (fuel : nat) (ns : list string) :
  (forall v n, size (dom (graph net) ∖ v) < fuel ->
     exists r, dfs fuel net referrerId v n = Some r
               /\ dfs_post net referrerId v [n] r) ->
  forall v, size (dom (graph net) ∖ v) < fuel ->
    exists r, dfs_neighbors (dfs fuel net referrerId) v ns = Some r
              /\ dfs_post net referrerId v ns r.
Proof.
  intros Hdfs. induction ns as [|n ns IH]; intros v Hv.
  - exists (false, v). split; [reflexivity|]. split; [done|]. split; [done|].
    cbn. split; [intros n Hn; inversion Hn | apply closed_from_refl].
  - cbn [dfs_neighbors].
    destruct (Hdfs v n Hv) as ([b v1] & -> & Hsub1 & Hr1 & Hb1).
    cbn [fst snd] in *. destruct b.
    + exists (true, v1). split; [reflexivity|]. split; [done|]. split; [done|].
      cbn. destruct Hb1 as (n' & Hn' & Hp).
      apply list_elem_of_singleton in Hn' as ->. exists n. split; [left|done].
    + destruct Hb1 as [Hin1 Hc1].
      assert (Hv1 : size (dom (graph net) ∖ v1) < fuel).
      { eapply Nat.le_lt_trans; [|exact Hv]. apply subseteq_size. set_solver. }
      destruct (IH v1 Hv1) as ([b v2] & -> & Hsub2 & Hr2 & Hb2).
      cbn [fst snd] in *. exists (b, v2). split; [reflexivity|].
      split; [set_solver|]. split; [tauto|]. cbn [fst snd]. destruct b.
      * destruct Hb2 as (n' & Hn' & Hp). exists n'. split; [now right|done].
      * destruct Hb2 as [Hin2 Hc2]. split.
        -- intros n' [->|Hn']%elem_of_cons; [|now apply Hin2].
           apply Hsub2, Hin1. left.
        -- now apply closed_from_trans with v1.
Qed.

Lemma dfs_spec (fuel : nat) (v : gset string) (n : string) :
  size (dom (graph net) ∖ v) < fuel ->
  exists r, dfs fuel net referrerId v n = Some r
            /\ dfs_post net referrerId v [n] r.
Proof.
  revert v n. induction fuel as [|fuel IH]; intros v n Hv; [lia|].
  cbn [dfs]. destruct (decide (n = referrerId)) as [->|Hne].
  { exists (true, v). split; [reflexivity|]. split; [done|]. split; [done|].
    cbn. exists referrerId. split; [left | apply rtc_refl]. }
  destruct (decide (n ∈ v)) as [Hin|Hout].
  { exists (false, v). split; [reflexivity|]. split; [done|]. split; [done|].
    cbn. split; [|apply closed_from_refl].
    intros n' Hn'. now apply list_elem_of_singleton in Hn' as ->. }
  destruct (graph net !! n) as [ns|] eqn:Egraph.
  - assert (Hv' : size (dom (graph net) ∖ ({[n]} ∪ v)) < fuel).
    { assert (dom (graph net) ∖ ({[n]} ∪ v) ⊂ dom (graph net) ∖ v).
      { apply strict_spec_alt. split; [set_solver|].
        assert (n ∈ dom (graph net)) by (apply elem_of_dom; eauto).
        intros E. assert (n ∈ dom (graph net) ∖ v) as Hn by set_solver.
        rewrite <- E in Hn. set_solver. }
      apply subset_size in H. lia. }
    destruct (dfs_neighbors_spec fuel (neighbors net n) IH _ Hv')
      as ([b v'] & -> & Hsub & Hr & Hb).
    cbn [fst snd] in *. exists (b, v'). split; [reflexivity|].
    split; [set_solver|]. split; [set_solver|]. cbn [fst snd]. destruct b.
    + destruct Hb as (n' & Hn' & Hp). exists n. split; [left|].
      eapply rtc_l; [exact Hn'|exact Hp].
    + destruct Hb as [Hin Hc]. split.
      * intros n' Hn'. apply list_elem_of_singleton in Hn' as ->. set_solver.
      * intros x Hx Hnx y Hy. destruct (decide (x = n)) as [->|Hxn].
        -- now apply Hin.
        -- apply (Hc x Hx); [set_solver|exact Hy].
  - unfold neighbors at 1. rewrite Egraph. cbn.
    exists (false, {[n]} ∪ v). split; [reflexivity|].
    split; [set_solver|]. split; [set_solver|]. cbn. split.
    + intros n' Hn'. apply list_elem_of_singleton in Hn' as ->. set_solver.
    + intros x Hx Hnx y Hy.
      assert (x = n) as -> by set_solver.
      unfold edge, neighbors in Hy. rewrite Egraph in Hy. inversion Hy.
Qed.

End Dfs.

(** [wouldCreateCycle] always answers, and answers true exactly when
    the referrer can be reached from the candidate. *)
Lemma wouldCreateCycle_spec (net : network) (referrerId candidateId : string) :
  exists b : bool,
    wouldCreateCycle net referrerId candidateId = Some b
    /\ (b = true <-> path net candidateId referrerId).
Proof.
  unfold wouldCreateCycle.
  destruct (dfs_spec net referrerId (S (size (graph net))) ∅ candidateId)
    as ([b v] & -> & _ & Hr & Hb).
  { rewrite difference_empty_L, size_dom. lia. }
  exists b. split; [reflexivity|]. cbn [fst snd] in *. destruct b.
  - destruct Hb as (n & Hn & Hp). apply list_elem_of_singleton in Hn as ->.
    tauto.
  - destruct Hb as [Hin Hc]. split; [discriminate|]. intros Hp. exfalso.
    apply Hr; [set_solver|].
    assert (Hall : forall x y, rtc (edge net) x y -> x ∈ v -> y ∈ v).
    { induction 1 as [|x y z Hxy _ IH]; [done|].
      intros Hx. apply IH, (Hc x Hx); [set_solver|exact Hxy]. }
    apply (Hall candidateId referrerId Hp), Hin. left.
Qed.

(** *** The state that the calls keep *)

Lemma edge_user (net : network) (r c : string) :
  well_formed net -> edge net r c -> r ∈ users net.
Proof.
  intros Hwf He. apply (wf_graph net Hwf). unfold edge, neighbors in He.
  destruct (graph net !! r); [eauto | inversion He].
Qed.

Lemma path_user (net : network) (x y : string) :
  well_formed net -> path net x y -> x ∈ users net -> y ∈ users net.
Proof.
  intros Hwf. induction 1 as [|x y z Hxy _ IH]; [done|].
  intros _. apply IH. now apply (wf_candidate net Hwf x y).
Qed.

Lemma well_formed_new : well_formed new_network.
Proof.
  split; cbn.
  - apply NoDup_nil_2.
  - intros u. rewrite lookup_empty. split; [inversion 1 | intros [? ?]; done].
  - reflexivity.
  - intros r c. unfold edge, neighbors. cbn. rewrite !lookup_empty. cbn.
    split; [inversion 1 | done].
  - intros r. unfold neighbors. cbn. rewrite lookup_empty. apply NoDup_nil_2.
  - intros r c. unfold edge, neighbors. cbn. rewrite lookup_empty. inversion 1.
  - intros x Hx.
    assert (H : forall a b, ~ edge new_network a b).
    { intros a b. unfold edge, neighbors. cbn. rewrite lookup_empty. inversion 1. }
    inversion Hx as [? ? Hxy | ? y ? Hxy _]; exact (H _ _ Hxy).
Qed.

Lemma neighbors_addUser (net : network) (u x : string) :
  neighbors (addUser u net) x = neighbors net x.
Proof.
  unfold neighbors, addUser. cbn.
  destruct (graph net !! u) eqn:E; [reflexivity|].
  destruct (decide (u = x)) as [->|Hne].
  - now rewrite lookup_insert_eq, E.
  - now rewrite lookup_insert_ne.
Qed.

Lemma edge_addUser (net : network) (u r c : string) :
  edge (addUser u net) r c <-> edge net r c.
Proof. unfold edge. now rewrite neighbors_addUser. Qed.

Lemma tc_edge_addUser (net : network) (u x y : string) :
  tc (edge (addUser u net)) x y -> tc (edge net) x y.
Proof.
  induction 1 as [x y H | x y z H _ IH].
  - apply tc_once. now apply edge_addUser in H.
  - eapply tc_l; [|exact IH]. now apply edge_addUser in H.
Qed.

Lemma well_formed_addUser (net : network) (u : string) :
  well_formed net -> well_formed (addUser u net).
Proof.
  intros Hwf. split.
  - cbn. apply NoDup_set_add, Hwf.
  - intros x. cbn. rewrite elem_of_set_add, (wf_graph net Hwf).
    destruct (graph net !! u) eqn:E.
    + split; [intros [->|H]; eauto | auto].
    + destruct (decide (u = x)) as [->|Hne].
      * rewrite lookup_insert_eq. split; eauto.
      * rewrite lookup_insert_ne by done. split; [intros [->|H]; done | auto].
  - cbn. now rewrite (wf_direct net Hwf).
  - intros r c. rewrite edge_addUser. apply (wf_referrer net Hwf).
  - intros r. rewrite neighbors_addUser. apply (wf_nodup net Hwf).
  - intros r c. rewrite edge_addUser. cbn. rewrite elem_of_set_add.
    intros H. right. now apply (wf_candidate net Hwf r c).
  - intros x Hx. apply tc_edge_addUser in Hx. exact (wf_acyclic net Hwf x Hx).
Qed.

Lemma neighbors_commit (net : network) (r c x : string) :
  neighbors (commit r c net) x
  = if decide (x = r) then neighbors net r ++ [c] else neighbors net x.
Proof.
  unfold neighbors at 1. cbn. destruct (decide (x = r)) as [->|Hne].
  - now rewrite lookup_insert_eq.
  - now rewrite lookup_insert_ne.
Qed.

Lemma edge_commit (net : network) (r c a b : string) :
  edge (commit r c net) a b <-> edge net a b \/ (a = r /\ b = c).
Proof.
  unfold edge. rewrite neighbors_commit. destruct (decide (a = r)) as [->|Hne].
  - rewrite elem_of_app, list_elem_of_singleton. tauto.
  - tauto.
Qed.

(** A path of the new graph either is a path of the old graph, or goes
    through the new edge. *)
Lemma path_commit (net : network) (r c x y : string) :
  path (commit r c net) x y ->
  path net x y \/ (path net x r /\ path net c y).
Proof.
  induction 1 as [x | x y z Hxy _ IH].
  - left. apply rtc_refl.
  - apply edge_commit in Hxy as [Hxy | [-> ->]].
    + destruct IH as [IH | [IH1 IH2]].
      * left. now apply rtc_l with y.
      * right. split; [now apply rtc_l with y | exact IH2].
    + right. split; [apply rtc_refl|].
      destruct IH as [IH | [_ IH]]; exact IH.
Qed.

Lemma tc_first {A : Type} (R : relation A) (x z : A) :
  tc R x z -> exists y, R x y /\ rtc R y z.
Proof.
  intros H. inversion H as [? ? Hxz | ? y ? Hxy Hyz]; subst.
  - exists z. split; [exact Hxz | apply rtc_refl].
  - exists y. split; [exact Hxy | now apply tc_rtc].
Qed.

Lemma acyclic_commit (net : network) (r c : string) :
  acyclic net -> r <> c -> ~ path net c r -> acyclic (commit r c net).
Proof.
  intros Hac Hne Hnp x Hx.
  apply tc_first in Hx as (y & Hxy & Hyx). apply path_commit in Hyx.
  apply edge_commit in Hxy as [Hxy | [-> ->]].
  - destruct Hyx as [Hyx | [Hyr Hcx]].
    + apply (Hac x). now apply tc_rtc_r with y; [apply tc_once|].
    + apply Hnp. apply rtc_trans with x; [exact Hcx|].
      now apply rtc_l with y.
  - destruct Hyx as [Hyx | [_ Hcx]]; now apply Hnp.
Qed.

Lemma well_formed_commit (net : network) (r c : string) :
  well_formed net -> r ∈ users net -> c ∈ users net -> r <> c ->
  referrerOf net !! c = None -> ~ path net c r ->
  well_formed (commit r c net).
Proof.
  intros Hwf Hr Hc Hne Hnone Hnp.
  assert (Hfresh : forall a, ~ edge net a c).
  { intros a Ha. apply (wf_referrer net Hwf) in Ha. congruence. }
  split.
  - exact (wf_users net Hwf).
  - intros u. cbn. rewrite (wf_graph net Hwf).
    destruct (decide (r = u)) as [->|Hru].
    + rewrite lookup_insert_eq. split; [eauto|]. intros _.
      now apply (wf_graph net Hwf).
    + now rewrite lookup_insert_ne.
  - cbn. rewrite (wf_direct net Hwf). reflexivity.
  - intros a b. rewrite edge_commit. cbn.
    destruct (decide (b = c)) as [->|Hbc].
    + rewrite lookup_insert_eq. split.
      * intros [Ha | [-> _]]; [now apply Hfresh in Ha | reflexivity].
      * intros [= ->]. now right.
    + rewrite lookup_insert_ne by done. rewrite <- (wf_referrer net Hwf).
      split; [intros [H | [_ H]]; [exact H | done] | auto].
  - intros a. rewrite neighbors_commit. destruct (decide (a = r)) as [->|Har].
    + apply NoDup_app. split; [apply (wf_nodup net Hwf)|].
      split; [|apply NoDup_singleton].
      intros y Hy Hy'. apply list_elem_of_singleton in Hy' as ->.
      exact (Hfresh r Hy).
    + apply (wf_nodup net Hwf).
  - intros a b. rewrite edge_commit. cbn.
    intros [H | [_ ->]]; [now apply (wf_candidate net Hwf a b) | exact Hc].
  - apply acyclic_commit; [apply Hwf | exact Hne | exact Hnp].
Qed.

(** [addReferral], case by case. *)
Lemma addReferral_cases (net : network) (r c : string) :
  well_formed net ->
  exists (out : result bool) (net' : network),
    addReferral r c net = Some (out, net') /\
    ((r ∉ users net \/ c ∉ users net) /\ out = Throw UnknownUser /\ net' = net
     \/ (r ∈ users net /\ c ∈ users net /\
         (r = c \/ is_Some (referrerOf net !! c) \/ path net c r) /\
         out = Ok false /\ net' = net)
     \/ (r ∈ users net /\ c ∈ users net /\
         ~ (r = c \/ is_Some (referrerOf net !! c) \/ path net c r) /\
         out = Ok true /\ net' = commit r c net)).
Proof.
  intros Hwf. unfold addReferral.
  destruct (has_user net r) eqn:Er; cbn [negb].
  2:{ apply has_user_false in Er. exists (Throw UnknownUser), net. auto. }
  destruct (has_user net c) eqn:Ec; cbn [negb].
  2:{ apply has_user_false in Ec. exists (Throw UnknownUser), net. auto. }
  apply has_user_true in Er, Ec.
  destruct (decide (r = c)) as [Hrc|Hrc].
  { exists (Ok false), net. split; [reflexivity|]. right. left. auto 6. }
  destruct (decide (is_Some (referrerOf net !! c))) as [Hsome|Hnone].
  { exists (Ok false), net. split; [reflexivity|]. right. left. auto 6. }
  destruct (wouldCreateCycle_spec net r c) as (b & -> & Hb). cbn.
  destruct b.
  { exists (Ok false), net. split; [reflexivity|]. right. left.
    repeat split; auto. right. right. now apply Hb. }
  assert (Hnp : ~ path net c r) by (intros Hp; apply Hb in Hp; discriminate).
  destruct (proj1 (wf_graph net Hwf r) Er) as [l Hl].
  rewrite (wf_direct net Hwf), Hl. cbn.
  assert (Hfresh : c ∉ l).
  { intros Hin. apply Hnone. exists r. apply (wf_referrer net Hwf).
    unfold edge, neighbors. now rewrite Hl. }
  rewrite (set_add_fresh c l Hfresh).
  exists (Ok true), (commit r c net). split.
  - unfold commit, neighbors. now rewrite (wf_direct net Hwf), Hl.
  - right. right. repeat split; auto. intros [H | [H | H]]; auto.
Qed.

Lemma well_formed_addReferral (net net' : network) (r c : string)
    (out : result bool) :
  well_formed net -> addReferral r c net = Some (out, net') ->
  well_formed net'.
Proof.
  intros Hwf H.
  destruct (addReferral_cases net r c Hwf) as (out0 & net0 & E & Hcases).
  rewrite E in H. injection H as <- <-.
  destruct Hcases as [(_ & _ & ->) | [(_ & _ & _ & _ & ->)
                     | (Hr & Hc & Hrej & _ & ->)]]; try exact Hwf.
  apply well_formed_commit; auto.
  destruct (referrerOf net !! c) eqn:E'; [|reflexivity].
  exfalso. apply Hrej. right. left. eauto.
Qed.

(** Every sequence of calls runs to the end, in a state of this kind. *)
Lemma after_calls_well_formed (cs : list call) (net : network) :
  well_formed net ->
  exists net', after_calls cs net = Some net' /\ well_formed net'.
Proof.
  revert net. induction cs as [|c cs IH]; intros net Hwf.
  - exists net. split; [reflexivity | exact Hwf].
  - cbn [after_calls]. destruct c as [u | r c].
    + cbn. apply IH. now apply well_formed_addUser.
    + cbn. destruct (addReferral_cases net r c Hwf) as (out & net1 & E & _).
      rewrite E. cbn. apply IH. eapply well_formed_addReferral; eauto.
Qed.

Lemma reachable_well_formed (cs : list call) (net : network) :
  after_calls cs new_network = Some net -> well_formed net.
Proof.
  intros H. destruct (after_calls_well_formed cs new_network well_formed_new)
    as (net' & E & Hwf). congruence.
Qed.

Lemma chain_reachable : after_calls chain_calls new_network = Some chain_network.
Proof. vm_compute. reflexivity. Qed.

Lemma tree_reachable : after_calls tree_calls new_network = Some tree_network.
Proof. vm_compute. reflexivity. Qed.

(** *** The claims about [addReferral] *)

(** C1: on a network built by calls, [addReferral] throws for an endpoint
    that is not a user, and leaves the network as it was; between users it
    returns false exactly when the two are the same, or the candidate has
    a referrer, or the referrer can be reached from the candidate, and
    then too leaves the network as it was; otherwise it returns true and
    the network has the new edge in [graph], [directReferrals] and
    [referrerOf]. *)
Theorem addReferral_outcomes (cs : list call) (net : network) (r c : string) :
  after_calls cs new_network = Some net ->
  exists (out : result bool) (net' : network),
    addReferral r c net = Some (out, net') /\
    ((r ∉ users net \/ c ∉ users net) ->
       out = Throw UnknownUser /\ net' = net) /\
    (r ∈ users net -> c ∈ users net ->
       (out = Ok false <->
          r = c \/ is_Some (referrerOf net !! c) \/ path net c r) /\
       (out = Ok false -> net' = net) /\
       (out <> Ok false -> out = Ok true /\ net' = commit r c net)).
Proof.
  intros Hcs. apply reachable_well_formed in Hcs.
  destruct (addReferral_cases net r c Hcs) as (out & net' & E & Hcases).
  exists out, net'. split; [exact E|].
  destruct Hcases as [(Hno & -> & ->) | [(Hr & Hc & Hrej & -> & ->)
                     | (Hr & Hc & Hrej & -> & ->)]].
  - split; [done|]. intros Hr Hc. destruct Hno; contradiction.
  - split; [intros [H|H]; contradiction|]. intros _ _.
    split; [tauto|]. split; [done|]. intros H. contradiction.
  - split; [intros [H|H]; contradiction|]. intros _ _.
    split; [split; [discriminate | intros H; contradiction]|].
    split; [discriminate|]. done.
Qed.

Lemma addReferral_outcomes_witness :
  exists (out : result bool) (net' : network),
    addReferral "C" "A" chain_network = Some (out, net') /\
    (("C" ∉ users chain_network \/ "A" ∉ users chain_network) ->
       out = Throw UnknownUser /\ net' = chain_network) /\
    ("C" ∈ users chain_network -> "A" ∈ users chain_network ->
       (out = Ok false <->
          "C" = "A" \/ is_Some (referrerOf chain_network !! "A")
          \/ path chain_network "A" "C") /\
       (out = Ok false -> net' = chain_network) /\
       (out <> Ok false -> out = Ok true /\ net' = commit "C" "A" chain_network)).
Proof.
  apply (addReferral_outcomes chain_calls chain_network "C" "A").
  vm_compute. reflexivity.
Defined.

(** C2: every sequence of [addUser] and [addReferral] calls on the empty
    network ends in a network without a cycle, in which a candidate has
    at most one referrer, no adjacency list names a candidate twice, and
    the edges are the entries of [referrerOf]. *)
Theorem calls_keep_forest (cs : list call) :
  exists net : network,
    after_calls cs new_network = Some net /\
    acyclic net /\
    (forall c r1 r2, edge net r1 c -> edge net r2 c -> r1 = r2) /\
    (forall r, NoDup (neighbors net r)) /\
    (forall r c, edge net r c <-> referrerOf net !! c = Some r).
Proof.
  destruct (after_calls_well_formed cs new_network well_formed_new)
    as (net & E & Hwf).
  exists net. split; [exact E|]. split; [apply Hwf|].
  split; [|split; [apply Hwf | apply Hwf]].
  intros c r1 r2 H1 H2. apply (wf_referrer net Hwf) in H1, H2. congruence.
Qed.

(** *** The breadth-first traversals *)

Lemma reach_neighbors_spec (ns q : list string) (v : gset string) :
  let r := reach_neighbors ns (q, v) in
  (forall x, x ∈ snd r <-> x ∈ v \/ x ∈ ns) /\
  (forall x, x ∈ fst r <-> x ∈ q \/ (x ∈ ns /\ x ∉ v)) /\
  length (fst r) + size v = length q + size (snd r).
Proof.
  revert q v. induction ns as [|n ns IH]; intros q v; cbn zeta.
  - cbn. split; [|split; [|lia]]; intros x; rewrite elem_of_nil; tauto.
  - cbn [reach_neighbors]. destruct (decide (n ∈ v)) as [Hin|Hout].
    + destruct (IH q v) as (Hv & Hq & Hlen).
      split; [|split; [|exact Hlen]]; intros x; rewrite elem_of_cons.
      * rewrite Hv. split; [tauto|]. intros [H|[->|H]]; auto.
      * rewrite Hq. split; [tauto|]. intros [H|[[->|H] Hx]]; tauto.
    + destruct (IH (q ++ [n]) ({[n]} ∪ v)) as (Hv & Hq & Hlen).
      split; [|split]; [intros x; rewrite elem_of_cons ..|].
      * rewrite Hv. set_solver.
      * rewrite Hq, elem_of_app, list_elem_of_singleton.
        destruct (decide (x = n)) as [->|Hne]; set_solver.
      * rewrite length_app in Hlen. cbn in Hlen.
        rewrite size_union, size_singleton in Hlen by set_solver. lia.
Qed.

Lemma count_neighbors_reach (ns q : list string) (v : gset string) (k : nat) :
  count_neighbors ns (q, v, k)
  = (fst (reach_neighbors ns (q, v)), snd (reach_neighbors ns (q, v)),
     k + size (snd (reach_neighbors ns (q, v))) - size v).
Proof.
  revert q v k. induction ns as [|n ns IH]; intros q v k.
  - cbn. f_equal. lia.
  - cbn [count_neighbors reach_neighbors].
    destruct (decide (n ∈ v)) as [Hin|Hout]; [apply IH|].
    rewrite IH. f_equal.
    rewrite size_union, size_singleton by set_solver. lia.
Qed.

Lemma relax_neighbors_reach (ns q : list string) (d : nat)
    (dist : gmap string nat) :
  let r := relax_neighbors ns d (q, dist) in
  fst r = fst (reach_neighbors ns (q, dom dist))
  /\ dom (snd r) = snd (reach_neighbors ns (q, dom dist)).
Proof.
  revert q dist. induction ns as [|n ns IH]; intros q dist; cbn zeta.
  - done.
  - cbn [relax_neighbors reach_neighbors].
    destruct (dist !! n) as [dn|] eqn:E.
    + rewrite decide_True by (apply elem_of_dom; eauto). apply IH.
    + rewrite decide_False by (now apply not_elem_of_dom).
      destruct (IH (q ++ [n]) (<[n := d + 1]> dist)) as [H1 H2].
      rewrite dom_insert_L in H1, H2. done.
Qed.

Lemma reach_loop_unfold (fuel : nat) (net : network) (current : string)
    (queue : list string) (reachable : gset string) :
  reach_loop (S fuel) net (current :: queue, reachable)
  = reach_loop fuel net
      (reach_neighbors (neighbors net current) (queue, reachable)).
Proof. reflexivity. Qed.

Lemma reach_loop_grows (fuel : nat) (net : network) (q : list string)
    (v V : gset string) :
  reach_loop fuel net (q, v) = Some V -> v ⊆ V.
Proof.
  revert q v. induction fuel as [|fuel IH]; intros q v.
  - destruct q; cbn; [|discriminate]. now intros [= ->].
  - destruct q as [|cur q]; [cbn; now intros [= ->]|].
    rewrite reach_loop_unfold.
    destruct (reach_neighbors _ _) as [q' v'] eqn:E. intros H.
    apply IH in H.
    pose proof (reach_neighbors_spec (neighbors net cur) q v) as (Hv & _).
    rewrite E in Hv. cbn in Hv. intros x Hx. apply H, Hv. now left.
Qed.

Lemma count_loop_reach (fuel : nat) (net : network) (q : list string)
    (v : gset string) (k : nat) :
  count_loop fuel net (q, v, k)
  = (fun V => k + size V - size v) <$> reach_loop fuel net (q, v).
Proof.
  revert q v k. induction fuel as [|fuel IH]; intros q v k.
  - destruct q; cbn; [f_equal; lia | reflexivity].
  - destruct q as [|cur q]; [cbn; f_equal; lia|].
    rewrite reach_loop_unfold. cbn [count_loop].
    rewrite count_neighbors_reach.
    pose proof (reach_neighbors_spec (neighbors net cur) q v) as (Hv & _).
    destruct (reach_neighbors _ _) as [q' v'] eqn:E. cbn [fst snd] in *.
    rewrite IH. destruct (reach_loop fuel net (q', v')) as [V|] eqn:EV;
      [|reflexivity].
    apply reach_loop_grows in EV. cbn. f_equal.
    assert (size v <= size v') by (apply subseteq_size; set_solver).
    assert (size v' <= size V) by (apply subseteq_size; set_solver).
    lia.
Qed.

Lemma distance_loop_reach (fuel : nat) (net : network) (q : list string)
    (dist : gmap string nat) :
  (forall x, x ∈ q -> x ∈ dom dist) ->
  is_Some (reach_loop fuel net (q, dom dist)) ->
  is_Some (distance_loop fuel net (q, dist)).
Proof.
  revert q dist. induction fuel as [|fuel IH]; intros q dist Hq.
  - destruct q; cbn; [eauto | intros [? ?]; discriminate].
  - destruct q as [|cur q]; [cbn; eauto|].
    rewrite reach_loop_unfold. cbn [distance_loop].
    assert (Hcur : cur ∈ dom dist) by (apply Hq; left).
    apply elem_of_dom in Hcur as [d ->]. cbn.
    pose proof (relax_neighbors_reach (neighbors net cur) q d dist) as [H1 H2].
    pose proof (reach_neighbors_spec (neighbors net cur) q (dom dist))
      as (Hv & Hq' & _).
    destruct (relax_neighbors _ _ _) as [q' dist'] eqn:E.
    cbn [fst snd] in *. rewrite <- H1, <- H2 in *. intros Hsome.
    apply IH; [|now rewrite H1, H2, <- surjective_pairing].
    intros x Hx. apply Hv. apply Hq' in Hx as [Hx | [Hx _]]; [|now right].
    left. apply Hq. now right.
Qed.

Section Reach.
Variable net : network.
Hypothesis Hwf : well_formed net.
Variable u : string.

Lemma size_all_users : size (all_users net) = length (users net).
Proof. apply size_list_to_set, Hwf. Qed.

Lemma neighbors_all_users (x y : string) : y ∈ neighbors net x -> y ∈ (all_users net).
Proof.
  intros H. apply elem_of_list_to_set. exact (wf_candidate net Hwf x y H).
Qed.

Lemma closed_has_paths (v : gset string) :
  (forall x, x ∈ v -> forall y, edge net x y -> y ∈ v) ->
  forall a b, path net a b -> a ∈ v -> b ∈ v.
Proof.
  intros Hclosed a b. induction 1 as [|a b c Hab _ IHp]; [done|].
  intros Ha. apply IHp. now apply (Hclosed a).
Qed.

Lemma reach_loop_done (fuel : nat) (v : gset string) :
  u ∈ v ->
  (forall x, x ∈ v -> path net u x) ->
  (forall x, x ∈ v -> x ∈ [] \/ forall y, edge net x y -> y ∈ v) ->
  exists V, reach_loop fuel net ([], v) = Some V
            /\ forall x, x ∈ V <-> path net u x.
Proof.
  intros Hu Hpath Hclosed. exists v. split; [now destruct fuel|].
  intros x. split; [apply Hpath|]. intros Hp.
  apply (closed_has_paths v) with u; [|exact Hp|exact Hu].
  intros a Ha. destruct (Hclosed a Ha) as [H|H]; [inversion H | exact H].
Qed.

(** The loop invariant: everything seen is reachable from [u], and a
    node that has left the queue has all its neighbours seen. *)
Lemma reach_loop_spec (fuel : nat) (q : list string) (v : gset string) :
  u ∈ v -> v ⊆ (all_users net) ->
  (forall x, x ∈ q -> x ∈ v) ->
  (forall x, x ∈ v -> path net u x) ->
  (forall x, x ∈ v -> x ∈ q \/ forall y, edge net x y -> y ∈ v) ->
  length q + size (all_users net) <= fuel + size v ->
  exists V, reach_loop fuel net (q, v) = Some V
            /\ forall x, x ∈ V <-> path net u x.
Proof.
  revert q v. induction fuel as [|fuel IH];
    intros q v Hu Hsub Hq Hpath Hclosed Hfuel.
  - assert (size v <= size (all_users net)) by now apply subseteq_size.
    destruct q as [|cur q]; [|cbn in Hfuel; lia].
    now apply reach_loop_done.
  - destruct q as [|cur q]; [now apply reach_loop_done|].
    + rewrite reach_loop_unfold.
      pose proof (reach_neighbors_spec (neighbors net cur) q v)
        as (Hv & Hq' & Hlen).
      destruct (reach_neighbors _ _) as [q' v'] eqn:E. cbn [fst snd] in *.
      assert (Hcur : cur ∈ v) by (apply Hq; left).
      apply IH.
      * apply Hv. now left.
      * intros x Hx. apply Hv in Hx as [Hx|Hx]; [now apply Hsub|].
        now apply neighbors_all_users with cur.
      * intros x Hx. apply Hv. apply Hq' in Hx as [Hx | [Hx _]]; [|now right].
        left. apply Hq. now right.
      * intros x Hx. apply Hv in Hx as [Hx|Hx]; [now apply Hpath|].
        apply rtc_r with cur; [now apply Hpath | exact Hx].
      * intros x Hx. destruct (decide (x ∈ v)) as [Hxv|Hxv].
        -- destruct (Hclosed x Hxv) as [[->|Hxq]%elem_of_cons | Hc].
           ++ right. intros y Hy. apply Hv. now right.
           ++ left. apply Hq'. now left.
           ++ right. intros y Hy. apply Hv. left. now apply Hc.
        -- left. apply Hq'. right. apply Hv in Hx as [Hx|Hx]; done.
      * cbn [length] in Hfuel. lia.
Qed.

Lemma getReachSet_spec :
  u ∈ users net ->
  exists V, getReachSet net u = Some V /\ forall x, x ∈ V <-> path net u x.
Proof.
  intros Hu. unfold getReachSet. apply reach_loop_spec.
  - set_solver.
  - intros x Hx. apply elem_of_singleton in Hx as ->.
    now apply elem_of_list_to_set.
  - intros x Hx. apply list_elem_of_singleton in Hx as ->. set_solver.
  - intros x Hx. apply elem_of_singleton in Hx as ->. apply rtc_refl.
  - intros x Hx. apply elem_of_singleton in Hx as ->. left. left.
  - rewrite size_all_users, size_singleton. cbn. lia.
Qed.

Lemma totalReferrals_spec :
  u ∈ users net ->
  exists V, getReachSet net u = Some V
            /\ totalReferrals net u = Some (Ok (size V - 1)).
Proof.
  intros Hu. destruct (getReachSet_spec Hu) as (V & HV & _).
  exists V. split; [exact HV|]. unfold totalReferrals.
  rewrite (proj2 (has_user_true net u) Hu). cbn [negb].
  rewrite count_loop_reach. unfold getReachSet in HV. rewrite HV. cbn.
  now rewrite size_singleton.
Qed.

(** **** The forest *)

Lemma unique_referrer (a b x : string) : edge net a x -> edge net b x -> a = b.
Proof.
  intros Ha Hb. apply (wf_referrer net Hwf) in Ha, Hb. congruence.
Qed.

(** Two nodes that reach a common node lie on one branch. *)
Lemma forest_comparable (a b x : string) :
  path net a x -> path net b x -> path net a b \/ path net b a.
Proof.
  intros Ha. revert b.
  apply (rtc_ind_r (R := edge net)
           (fun x => forall b, path net b x ->
                         path net a b \/ path net b a) a);
    [| |exact Ha].
  - intros b Hb. now right.
  - intros y z Hay Hyz IH b Hb.
    apply rtc_inv_r in Hb as [-> | (y' & Hby' & Hy'z)].
    + left. now apply rtc_r with y.
    + rewrite (unique_referrer y' y z Hy'z Hyz) in Hby'. now apply IH.
Qed.

Lemma no_path_back (d : string) : edge net u d -> ~ path net d u.
Proof.
  intros He Hp. apply (wf_acyclic net Hwf u).
  apply tc_rtc_r with d; [now apply tc_once | exact Hp].
Qed.

Lemma branches_disjoint (d d' x : string) :
  edge net u d -> edge net u d' -> d <> d' ->
  path net d x -> path net d' x -> False.
Proof.
  assert (Hone : forall a b, edge net u a -> edge net u b -> a <> b ->
                              ~ path net a b).
  { intros a b Ha Hb Hne Hp.
    apply rtc_inv_r in Hp as [-> | (y & Hay & Hyb)]; [done|].
    rewrite (unique_referrer y u b Hyb Hb) in Hay.
    exact (no_path_back a Ha Hay). }
  intros Hd Hd' Hne Hx Hx'.
  destruct (forest_comparable d d' x Hx Hx') as [H|H].
  - exact (Hone d d' Hd Hd' Hne H).
  - apply (Hone d' d Hd' Hd); [congruence | exact H].
Qed.

Lemma below_iff (y : string) :
  y <> u /\ path net u y <-> exists d, d ∈ neighbors net u /\ path net d y.
Proof.
  split.
  - intros [Hne Hp]. apply rtc_inv in Hp as [-> | (d & Hd & Hp)]; [done|].
    now exists d.
  - intros (d & Hd & Hp). split.
    + intros ->. exact (no_path_back d Hd Hp).
    + now apply rtc_l with d.
Qed.

End Reach.

Lemma size_union_list_disjoint (R : string -> gset string) (ds : list string) :
  NoDup ds ->
  (forall d d', d ∈ ds -> d' ∈ ds -> d <> d' -> R d ## R d') ->
  size (⋃ (R <$> ds)) = sum_list (size ∘ R <$> ds).
Proof.
  induction ds as [|d ds IH]; intros Hnd Hdis.
  - cbn. apply size_empty.
  - apply NoDup_cons in Hnd as [Hd Hnd]. rewrite !fmap_cons, union_list_cons.
    rewrite size_union.
    + cbn. f_equal. apply IH; [exact Hnd|].
      intros a b Ha Hb. apply Hdis; now right.
    + intros x Hx Hx'. apply elem_of_union_list in Hx' as (X & HX & Hx').
      apply list_elem_of_fmap in HX as (d' & -> & Hd').
      assert (Hdd : R d ## R d').
      { apply Hdis; [left | now right | intros ->; contradiction]. }
      exact (Hdd x Hx Hx').
Qed.

Lemma elem_of_reach_set (net : network) (u x : string) :
  well_formed net -> u ∈ users net ->
  x ∈ reach_set net u <-> path net u x.
Proof.
  intros Hwf Hu. unfold reach_set.
  destruct (getReachSet_spec net Hwf u Hu) as (V & -> & HV). apply HV.
Qed.

Lemma totalReferrals_reach_set (net : network) (u : string) :
  well_formed net -> u ∈ users net ->
  totalReferrals net u = Some (Ok (size (reach_set net u) - 1)).
Proof.
  intros Hwf Hu. unfold reach_set.
  destruct (totalReferrals_spec net Hwf u Hu) as (V & -> & ->). reflexivity.
Qed.

(** C6: on a network built by calls and for a user [u], [totalReferrals]
    returns the number of users other than [u] that can be reached from
    [u]; and that number is the number of direct referrals of [u] plus
    the sum of what [totalReferrals] returns for each of them. *)
Theorem totalReferrals_counts_reach (cs : list call) (net : network)
    (u : string) :
  after_calls cs new_network = Some net -> u ∈ users net ->
  exists (reach : gset string) (reports : list string) (counts : list nat),
    (forall x, x ∈ reach <-> x ∈ users net /\ x <> u /\ path net u x) /\
    totalReferrals net u = Some (Ok (size reach)) /\
    getDirectReferrals net u = Ok reports /\
    Forall2 (fun d n => totalReferrals net d = Some (Ok n)) reports counts /\
    size reach = length reports + sum_list counts.
Proof.
  intros Hcs Hu. apply reachable_well_formed in Hcs as Hwf.
  set (V := reach_set net u).
  assert (HV : forall x, x ∈ V <-> path net u x)
    by (intros x; now apply elem_of_reach_set).
  assert (HuV : u ∈ V) by (apply HV, rtc_refl).
  assert (Hsize : size (V ∖ {[u]}) = size V - 1).
  { rewrite size_difference by set_solver. now rewrite size_singleton. }
  exists (V ∖ {[u]}), (neighbors net u),
    ((fun d => size (reach_set net d) - 1) <$> neighbors net u).
  assert (Hchild : forall d, d ∈ neighbors net u -> d ∈ users net)
    by (intros d Hd; exact (wf_candidate net Hwf u d Hd)).
  split; [|split; [|split; [|split]]].
  - intros x. rewrite elem_of_difference, elem_of_singleton, HV.
    split; [|tauto]. intros [Hp Hne]. split; [|done].
    now apply (path_user net u x Hwf).
  - rewrite Hsize. now apply totalReferrals_reach_set.
  - unfold getDirectReferrals. rewrite (proj2 (has_user_true net u) Hu).
    cbn [negb]. now rewrite (wf_direct net Hwf).
  - apply Forall2_fmap_r, Forall2_same_length_lookup. split; [done|].
    intros i d d' Hd Hd'. rewrite Hd in Hd'. injection Hd' as <-.
    apply totalReferrals_reach_set; [exact Hwf|].
    apply Hchild. now apply list_elem_of_lookup_2 in Hd.
  - assert (Hunion : V ∖ {[u]} = ⋃ (reach_set net <$> neighbors net u)).
    { apply set_eq. intros x.
      rewrite elem_of_difference, elem_of_singleton, HV, elem_of_union_list.
      rewrite (and_comm (path net u x)), (below_iff net Hwf u x). split.
      - intros (d & Hd & Hp). exists (reach_set net d). split.
        + apply list_elem_of_fmap. now exists d.
        + apply elem_of_reach_set; auto.
      - intros (X & HX & Hx). apply list_elem_of_fmap in HX as (d & -> & Hd).
        exists d. split; [exact Hd|]. apply elem_of_reach_set in Hx; auto. }
    rewrite Hunion, size_union_list_disjoint.
    + clear Hunion. induction (neighbors net u) as [|d ds IH]; [reflexivity|].
      cbn [fmap list_fmap sum_list length].
      assert (size (reach_set net d) > 0).
      { assert (d ∈ reach_set net d).
        { apply elem_of_reach_set; [exact Hwf | apply Hchild; left | apply rtc_refl]. }
        destruct (size (reach_set net d)) eqn:E; [|lia].
        apply size_empty_inv in E. set_solver. }
      cbn. rewrite IH; [lia|]. intros d' Hd'. apply Hchild. now right.
    + apply (wf_nodup net Hwf).
    + intros d d' Hd Hd' Hne x Hx Hx'.
      apply elem_of_reach_set in Hx, Hx'; auto.
      exact (branches_disjoint net Hwf u d d' x Hd Hd' Hne Hx Hx').
Qed.

Lemma totalReferrals_counts_reach_witness :
  exists (reach : gset string) (reports : list string) (counts : list nat),
    (forall x, x ∈ reach <->
       x ∈ users tree_network /\ x <> "A" /\ path tree_network "A" x) /\
    totalReferrals tree_network "A" = Some (Ok (size reach)) /\
    getDirectReferrals tree_network "A" = Ok reports /\
    Forall2 (fun d n => totalReferrals tree_network d = Some (Ok n))
      reports counts /\
    size reach = length reports + sum_list counts.
Proof.
  apply (totalReferrals_counts_reach tree_calls tree_network "A").
  - vm_compute. reflexivity.
  - apply has_user_true. vm_compute. reflexivity.
Defined.

(** *** uniqueReachExpansion *)

Lemma tabulate_spec {A : Type} (f : string -> option A) (us : list string)
    (table : gmap string A) :
  (forall u, u ∈ us -> is_Some (f u)) ->
  exists t, tabulate f us table = Some t
            /\ forall k, t !! k = if decide (k ∈ us) then f k else table !! k.
Proof.
  revert table. induction us as [|u us IH]; intros table Hf.
  - exists table. split; [reflexivity|]. intros k.
    now rewrite decide_False by apply not_elem_of_nil.
  - cbn [tabulate]. destruct (Hf u) as [a Ha]; [left|]. rewrite Ha. cbn.
    destruct (IH (<[u := a]> table)) as (t & -> & Ht).
    { intros x Hx. apply Hf. now right. }
    exists t. split; [reflexivity|]. intros k. rewrite Ht.
    destruct (decide (k ∈ us)) as [Hin|Hout].
    + rewrite decide_True by (now right). reflexivity.
    + destruct (decide (k = u)) as [->|Hne].
      * rewrite decide_True by left. now rewrite lookup_insert_eq.
      * rewrite decide_False by (rewrite elem_of_cons; tauto).
        now rewrite lookup_insert_ne.
Qed.

Lemma best_user_spec (reachSets : gmap string (gset string))
    (selected : list string) (covered : gset string) (us : list string)
    (best : option string * nat) :
  (forall u, u ∈ us -> is_Some (reachSets !! u)) ->
  exists b, best_user reachSets selected covered us best = Some b
            /\ (fst b = fst best
                \/ exists x, fst b = Some x /\ x ∈ us /\ x ∉ selected).
Proof.
  revert best. induction us as [|u us IH]; intros best Hsets.
  - exists best. split; [reflexivity | now left].
  - assert (Hrest : forall x, x ∈ us -> is_Some (reachSets !! x))
      by (intros x Hx; apply Hsets; now right).
    cbn [best_user]. destruct (decide (u ∈ selected)) as [Hin|Hout].
    + destruct (IH best Hrest) as (b & -> & Hb). exists b.
      split; [reflexivity|]. destruct Hb as [Hb | (x & Hx & Hxu & Hxs)];
        [now left | right; exists x; repeat split; auto; now right].
    + destruct (Hsets u) as [R HR]; [left|]. rewrite HR.
      cbn -[Nat.ltb size].
      destruct (snd best <? size (R ∖ covered))%nat.
      * destruct (IH (Some u, size (R ∖ covered)) Hrest) as (b & -> & Hb).
        exists b. split; [reflexivity|]. right.
        destruct Hb as [Hb | (x & Hx & Hxu & Hxs)].
        -- exists u. repeat split; [exact Hb | left | exact Hout].
        -- exists x. repeat split; auto. now right.
      * destruct (IH best Hrest) as (b & -> & Hb). exists b.
        split; [reflexivity|]. destruct Hb as [Hb | (x & Hx & Hxu & Hxs)];
          [now left | right; exists x; repeat split; auto; now right].
Qed.

Lemma add_remaining_spec (us selected : list string) :
  NoDup selected ->
  NoDup (add_remaining us selected)
  /\ forall x, x ∈ add_remaining us selected <-> x ∈ selected \/ x ∈ us.
Proof.
  revert selected. induction us as [|u us IH]; intros selected Hnd.
  - split; [exact Hnd|]. intros x. rewrite elem_of_nil. tauto.
  - cbn [add_remaining]. destruct (decide (u ∈ selected)) as [Hin|Hout].
    + destruct (IH selected Hnd) as [H1 H2]. split; [exact H1|].
      intros x. rewrite H2, elem_of_cons. split; [tauto|].
      intros [H | [-> | H]]; auto.
    + destruct (IH (selected ++ [u])) as [H1 H2].
      { apply NoDup_app. split; [exact Hnd|]. split; [|apply NoDup_singleton].
        intros y Hy Hy'. apply list_elem_of_singleton in Hy' as ->. done. }
      split; [exact H1|]. intros x.
      rewrite H2, elem_of_app, list_elem_of_singleton, elem_of_cons. tauto.
Qed.

Lemma select_loop_spec (fuel : nat) (net : network)
    (reachSets : gmap string (gset string))
    (selected : list string) (covered : gset string) :
  NoDup (users net) ->
  (forall u, u ∈ users net -> is_Some (reachSets !! u)) ->
  NoDup selected -> (forall x, x ∈ selected -> x ∈ users net) ->
  length (users net) <= fuel + length selected ->
  exists l, select_loop fuel net reachSets selected covered = Some l
            /\ l ≡ₚ users net.
Proof.
  intros Hnd Hsets. revert selected covered.
  induction fuel as [|fuel IH]; intros selected covered Hsel Hsub Hfuel.
  - cbn [select_loop].
    destruct (Nat.ltb_spec (length selected) (length (users net))); [lia|].
    exists selected. split; [reflexivity|].
    apply submseteq_length_Permutation; [|lia].
    now apply NoDup_submseteq.
  - cbn [select_loop].
    destruct (Nat.ltb_spec (length selected) (length (users net))) as [Hlt|Hge].
    2:{ exists selected. split; [reflexivity|].
        apply submseteq_length_Permutation; [|lia]. now apply NoDup_submseteq. }
    destruct (best_user_spec reachSets selected covered (users net) (None, O)
                Hsets) as ([b cov] & -> & Hb). cbn [fst snd mbind option_bind] in *.
    assert (Hdrain : exists l, Some (add_remaining (users net) selected) = Some l
                               /\ l ≡ₚ users net).
    { eexists. split; [reflexivity|].
      destruct (add_remaining_spec (users net) selected Hsel) as [H1 H2].
      apply NoDup_Permutation; [exact H1 | exact Hnd|].
      intros x. rewrite H2. split; [intros [H|H]; auto | auto]. }
    destruct b as [bu|]; [|exact Hdrain].
    destruct cov as [|cov]; [exact Hdrain|].
    destruct Hb as [Hb | (x & Hx & Hxu & Hxs)]; [discriminate|].
    injection Hx as ->.
    destruct (Hsets x Hxu) as [R ->]. cbn.
    apply IH.
    + apply NoDup_app. split; [exact Hsel|]. split; [|apply NoDup_singleton].
      intros y Hy Hy'. apply list_elem_of_singleton in Hy' as ->. done.
    + intros y Hy. apply elem_of_app in Hy as [Hy|Hy]; [now apply Hsub|].
      now apply list_elem_of_singleton in Hy as ->.
    + rewrite length_app. cbn. lia.
Qed.

(** C7: on a network built by calls, [uniqueReachExpansion] returns a
    permutation of the users: every user once, as many entries as there
    are users; no entry when there is no user, and the one user when
    there is one. *)
Theorem uniqueReachExpansion_permutation (cs : list call) (net : network) :
  after_calls cs new_network = Some net ->
  exists l : list string,
    uniqueReachExpansion net = Some l /\
    l ≡ₚ users net /\ NoDup l /\ length l = length (users net) /\
    (users net = [] -> l = []) /\
    (forall u, users net = [u] -> l = [u]).
Proof.
  intros Hcs. apply reachable_well_formed in Hcs as Hwf.
  assert (Hl : exists l, uniqueReachExpansion net = Some l /\ l ≡ₚ users net).
  { unfold uniqueReachExpansion.
    destruct (Nat.eqb_spec (length (users net)) 0) as [Hz|Hnz].
    - exists []. split; [reflexivity|].
      apply nil_length_inv in Hz. now rewrite Hz.
    - destruct (tabulate_spec (getReachSet net) (users net) ∅)
        as (reachSets & -> & Hsets).
      { intros u Hu. destruct (getReachSet_spec net Hwf u Hu) as (V & -> & _).
        eauto. }
      cbn. apply select_loop_spec.
      + apply Hwf.
      + intros u Hu. rewrite Hsets, decide_True by exact Hu.
        destruct (getReachSet_spec net Hwf u Hu) as (V & -> & _). eauto.
      + apply NoDup_nil_2.
      + intros x Hx. inversion Hx.
      + cbn. lia. }
  destruct Hl as (l & E & Hperm). exists l. split; [exact E|].
  split; [exact Hperm|]. split; [|split; [|split]].
  - rewrite Hperm. apply Hwf.
  - now rewrite Hperm.
  - intros Hnil. rewrite Hnil in Hperm. now apply Permutation_nil_r in Hperm.
  - intros u Hone. rewrite Hone in Hperm.
    now apply Permutation_singleton_r in Hperm.
Qed.

Lemma uniqueReachExpansion_permutation_witness :
  exists l : list string,
    uniqueReachExpansion tree_network = Some l /\
    l ≡ₚ users tree_network /\ NoDup l /\
    length l = length (users tree_network) /\
    (users tree_network = [] -> l = []) /\
    (forall u, users tree_network = [u] -> l = [u]).
Proof.
  apply (uniqueReachExpansion_permutation tree_calls tree_network).
  vm_compute. reflexivity.
Defined.

(** *** flowCentrality *)

Lemma for_each_app {A S : Type} (body : S -> A -> option S) (l1 l2 : list A)
    (st : S) :
  for_each body (l1 ++ l2) st = st' ← for_each body l1 st; for_each body l2 st'.
Proof.
  revert st. induction l1 as [|x l1 IH]; intros st; [reflexivity|].
  cbn. destruct (body st x); [apply IH | reflexivity].
Qed.

Lemma fmap_add_0 (o : option nat) : (fun n => n + 0) <$> o = o.
Proof. destruct o; cbn; [f_equal; lia | reflexivity]. Qed.

Lemma fmap_add_add (o : option nat) (a b : nat) :
  (fun n => n + b) <$> ((fun n => n + a) <$> o) = (fun n => n + (a + b)) <$> o.
Proof. destruct o; cbn; [f_equal; lia | reflexivity]. Qed.

Lemma fmap_add_ext (o : option nat) (a b : nat) :
  a = b -> (fun n => n + a) <$> o = (fun n => n + b) <$> o.
Proof. now intros ->. Qed.

Lemma zero_scores_lookup (us : list string) (c : gmap string nat) (x : string) :
  foldl (fun c user => <[user := O]> c) c us !! x
  = if decide (x ∈ us) then Some O else c !! x.
Proof.
  revert c. induction us as [|u us IH]; intros c.
  - now rewrite decide_False by apply not_elem_of_nil.
  - cbn [foldl]. rewrite IH. destruct (decide (x ∈ us)) as [Hin|Hout].
    + now rewrite decide_True by (now right).
    + destruct (decide (x = u)) as [->|Hne].
      * rewrite decide_True by left. now rewrite lookup_insert_eq.
      * rewrite decide_False by (rewrite elem_of_cons; tauto).
        now rewrite lookup_insert_ne.
Qed.

Lemma insert_desc_perm (x : string * nat) (l : list (string * nat)) :
  insert_desc x l ≡ₚ x :: l.
Proof.
  induction l as [|y l IH]; [done|]. cbn [insert_desc].
  destruct (snd x <? snd y)%nat; [|done].
  rewrite IH. apply perm_swap.
Qed.

Lemma sort_desc_perm (l : list (string * nat)) : sort_desc l ≡ₚ l.
Proof.
  induction l as [|x l IH]; [done|]. unfold sort_desc in *. cbn [foldr].
  now rewrite insert_desc_perm, IH.
Qed.

Lemma insert_desc_sorted (x : string * nat) (l : list (string * nat)) :
  StronglySorted (fun a b => snd b <= snd a) l ->
  StronglySorted (fun a b => snd b <= snd a) (insert_desc x l).
Proof.
  induction 1 as [|y l Hl IH Hy].
  - cbn. apply SSorted_cons; [apply SSorted_nil | apply Forall_nil_2].
  - cbn [insert_desc]. destruct (Nat.ltb_spec (snd x) (snd y)) as [Hlt|Hge].
    + apply SSorted_cons; [exact IH|].
      rewrite insert_desc_perm. apply Forall_cons. split; [lia | exact Hy].
    + apply SSorted_cons; [now apply SSorted_cons|].
      apply Forall_cons. split; [exact Hge|].
      eapply Forall_impl; [exact Hy|]. cbn. intros b Hb. lia.
Qed.

Lemma sort_desc_sorted (l : list (string * nat)) :
  StronglySorted (fun a b => snd b <= snd a) (sort_desc l).
Proof.
  induction l as [|x l IH]; [apply SSorted_nil|].
  unfold sort_desc in *. cbn [foldr]. now apply insert_desc_sorted.
Qed.

Lemma bfsShortestPaths_Some (net : network) (u : string) :
  well_formed net -> u ∈ users net -> is_Some (bfsShortestPaths net u).
Proof.
  intros Hwf Hu. unfold bfsShortestPaths. apply distance_loop_reach.
  - intros x Hx. apply list_elem_of_singleton in Hx as ->.
    rewrite dom_singleton_L. set_solver.
  - rewrite dom_singleton_L.
    destruct (getReachSet_spec net Hwf u Hu) as (V & HV & _).
    unfold getReachSet in HV. rewrite HV. eauto.
Qed.

Section Flow.
Variable net : network.
Hypothesis Hwf : well_formed net.
Variable shortestPaths : gmap string (gmap string nat).
Hypothesis Hpaths :
  forall u, u ∈ users net -> shortestPaths !! u = bfsShortestPaths net u.

Lemma count_between_spec (s t v : string) (sPaths : gmap string nat)
    (distST n : nat) (c : gmap string nat) :
  s <> t -> s ∈ users net -> v ∈ users net ->
  bfsShortestPaths net s = Some sPaths -> sPaths !! t = Some distST ->
  c !! v = Some n ->
  count_between shortestPaths s t sPaths distST c v
  = Some (if between (bfs_distance net) v (s, t) then <[v := n + 1]> c else c).
Proof.
  intros Hst Hs Hv HsP HdST Hc. unfold count_between, between, bfs_distance.
  rewrite HsP. cbn [mbind option_bind]. rewrite HdST.
  destruct (decide (v = s \/ v = t)) as [Hor|Hnor].
  { rewrite bool_decide_eq_false_2 by tauto. reflexivity. }
  rewrite bool_decide_eq_true_2 by tauto. cbn [andb].
  rewrite (Hpaths v Hv).
  destruct (bfsShortestPaths_Some net v Hwf Hv) as [vPaths ->]. cbn [mbind option_bind].
  destruct (sPaths !! v) as [dSV|]; [|reflexivity].
  destruct (vPaths !! t) as [dVT|]; [|reflexivity].
  destruct (dSV + dVT =? distST)%nat; [|reflexivity].
  now rewrite Hc.
Qed.

Lemma loop_v_spec (s t : string) (sPaths : gmap string nat) (distST : nat)
    (vs : list string) (c : gmap string nat) :
  s <> t -> s ∈ users net ->
  bfsShortestPaths net s = Some sPaths -> sPaths !! t = Some distST ->
  NoDup vs -> (forall v, v ∈ vs -> v ∈ users net) ->
  (forall v, v ∈ users net -> is_Some (c !! v)) ->
  exists c', for_each (count_between shortestPaths s t sPaths distST) vs c
             = Some c'
    /\ forall x, c' !! x
         = (fun n => n + if bool_decide (x ∈ vs /\ counted net x (s, t))
                         then 1 else 0) <$> c !! x.
Proof.
  intros Hst Hs HsP HdST. revert c.
  induction vs as [|v vs IH]; intros c Hnd Hvs Hc.
  - exists c. split; [reflexivity|]. intros x.
    rewrite bool_decide_eq_false_2 by (rewrite elem_of_nil; tauto).
    now rewrite fmap_add_0.
  - apply NoDup_cons in Hnd as [Hv Hnd]. cbn [for_each].
    assert (Hvu : v ∈ users net) by (apply Hvs; left).
    destruct (Hc v Hvu) as [n Hn].
    rewrite (count_between_spec s t v sPaths distST n c) by auto.
    cbn [mbind option_bind].
    set (c1 := if between (bfs_distance net) v (s, t)
               then <[v := n + 1]> c else c).
    assert (Hc1 : forall x, c1 !! x
      = (fun n => n + if bool_decide (x = v /\ counted net x (s, t))
                      then 1 else 0) <$> c !! x).
    { intros x. subst c1. unfold counted.
      destruct (decide (x = v)) as [->|Hne].
      - rewrite Hn. destruct (between _ v (s, t)).
        + rewrite lookup_insert_eq, bool_decide_eq_true_2 by tauto. done.
        + rewrite bool_decide_eq_false_2 by (intros (_ & _ & [=])).
          rewrite Hn. cbn. f_equal. lia.
      - rewrite bool_decide_eq_false_2 by tauto. rewrite fmap_add_0.
        destruct (between _ v (s, t)); [now rewrite lookup_insert_ne|done]. }
    destruct (IH c1 Hnd) as (c' & -> & Hc').
    { intros x Hx. apply Hvs. now right. }
    { intros x Hx. rewrite Hc1. destruct (Hc x Hx) as [m ->]. cbn. eauto. }
    exists c'. split; [reflexivity|]. intros x.
    rewrite Hc', Hc1, fmap_add_add. apply fmap_add_ext.
    destruct (decide (x = v)) as [->|Hne].
    + rewrite (bool_decide_eq_false_2 (v ∈ vs /\ _)) by tauto.
      destruct (decide (counted net v (s, t))) as [Hk|Hk].
      * rewrite !bool_decide_eq_true_2; [done | split; [left|done] | tauto].
      * rewrite !bool_decide_eq_false_2; [done | tauto | tauto].
    + rewrite (bool_decide_eq_false_2 (x = v /\ _)) by tauto.
      destruct (decide (x ∈ vs /\ counted net x (s, t))) as [Hk|Hk].
      * rewrite !bool_decide_eq_true_2; [done | | done].
        split; [now right | tauto].
      * rewrite !bool_decide_eq_false_2; [done | | done].
        rewrite elem_of_cons. tauto.
Qed.

Lemma loop_t_spec (s : string) (ts : list string) (c : gmap string nat) :
  s ∈ users net ->
  (forall v, v ∈ users net -> is_Some (c !! v)) ->
  exists c', for_each (count_target net shortestPaths s) ts c = Some c'
    /\ forall x, c' !! x
         = (fun n => n + length (filter (counted net x) (pair s <$> ts))) <$> c !! x.
Proof.
  intros Hs. revert c. induction ts as [|t ts IH]; intros c Hc.
  - exists c. split; [reflexivity|]. intros x. cbn. now rewrite fmap_add_0.
  - cbn [for_each].
    assert (Hstep : exists c1, count_target net shortestPaths s c t = Some c1
      /\ forall x, c1 !! x
           = (fun n => n + if bool_decide (counted net x (s, t)) then 1 else 0)
               <$> c !! x).
    { unfold count_target. destruct (decide (s = t)) as [->|Hst].
      - exists c. split; [reflexivity|]. intros x.
        rewrite bool_decide_eq_false_2, fmap_add_0; [done|].
        intros [_ Hb]. unfold between in Hb.
        rewrite bool_decide_eq_false_2 in Hb by tauto. discriminate.
      - rewrite (Hpaths s Hs).
        destruct (bfsShortestPaths_Some net s Hwf Hs) as [sPaths HsP]. rewrite HsP.
        cbn [mbind option_bind].
        destruct (sPaths !! t) as [distST|] eqn:HdST.
        + destruct (loop_v_spec s t sPaths distST (users net) c)
            as (c1 & -> & Hc1); auto; [apply Hwf|].
          exists c1. split; [reflexivity|]. intros x. rewrite Hc1.
          apply fmap_add_ext.
          rewrite (bool_decide_ext (x ∈ users net /\ counted net x (s, t))
                     (counted net x (s, t))); [reflexivity|].
          unfold counted. tauto.
        + exists c. split; [reflexivity|]. intros x.
          rewrite bool_decide_eq_false_2, fmap_add_0; [done|].
          intros [_ Hb]. unfold between, bfs_distance in Hb.
          rewrite HsP in Hb. cbn in Hb. rewrite HdST in Hb.
          now rewrite andb_false_r in Hb. }
    destruct Hstep as (c1 & -> & Hc1). cbn [mbind option_bind].
    destruct (IH c1) as (c' & -> & Hc').
    { intros v Hv. rewrite Hc1. destruct (Hc v Hv) as [m ->]. cbn. eauto. }
    exists c'. split; [reflexivity|]. intros x.
    rewrite Hc', Hc1, fmap_add_add. apply fmap_add_ext.
    rewrite fmap_cons, filter_cons.
    destruct (decide (counted net x (s, t))) as [Hk|Hk].
    + now rewrite bool_decide_eq_true_2.
    + now rewrite bool_decide_eq_false_2.
Qed.

Lemma loop_s_spec (ss : list string) (c : gmap string nat) :
  (forall s, s ∈ ss -> s ∈ users net) ->
  (forall v, v ∈ users net -> is_Some (c !! v)) ->
  exists c',
    for_each (fun c s => for_each (count_target net shortestPaths s)
                           (users net) c) ss c = Some c'
    /\ forall x, c' !! x
         = (fun n => n + length (filter (counted net x) (list_prod ss (users net))))
             <$> c !! x.
Proof.
  revert c. induction ss as [|s ss IH]; intros c Hss Hc.
  - exists c. split; [reflexivity|]. intros x. cbn. now rewrite fmap_add_0.
  - cbn [for_each].
    destruct (loop_t_spec s (users net) c) as (c1 & -> & Hc1);
      [apply Hss; left | exact Hc |].
    cbn [mbind option_bind].
    destruct (IH c1) as (c' & -> & Hc').
    { intros x Hx. apply Hss. now right. }
    { intros v Hv. rewrite Hc1. destruct (Hc v Hv) as [m ->]. cbn. eauto. }
    exists c'. split; [reflexivity|]. intros x.
    rewrite Hc', Hc1, fmap_add_add. apply fmap_add_ext.
    cbn [list_prod]. now rewrite filter_app, length_app.
Qed.

End Flow.

Lemma flow_score_counted (net : network) (v : string) :
  v ∈ users net ->
  length (filter (counted net v) (list_prod (users net) (users net)))
  = flow_score (users net) (bfs_distance net) v.
Proof.
  intros Hv. unfold flow_score. f_equal. apply list_filter_iff.
  intros st. unfold counted. tauto.
Qed.

Lemma flowCentrality_scores (net : network) :
  well_formed net -> 2 <= length (users net) ->
  flowCentrality net
  = Some (sort_desc ((fun v => (v, flow_score (users net) (bfs_distance net) v))
                     <$> users net)).
Proof.
  intros Hwf Hsize. unfold flowCentrality.
  destruct (Nat.leb_spec (length (users net)) 1) as [Hle|_]; [lia|].
  destruct (tabulate_spec (bfsShortestPaths net) (users net) ∅)
    as (sp & -> & Hsp); [intros u; now apply bfsShortestPaths_Some|].
  cbn [mbind option_bind].
  assert (Hpaths : forall u, u ∈ users net -> sp !! u = bfsShortestPaths net u).
  { intros u Hu. now rewrite Hsp, decide_True. }
  set (zero := foldl _ ∅ (users net)).
  assert (Hzero : forall x, zero !! x = if decide (x ∈ users net) then Some O else None).
  { intros x. subst zero. rewrite zero_scores_lookup. now rewrite lookup_empty. }
  destruct (loop_s_spec net Hwf sp Hpaths (users net) zero) as (c & -> & Hc).
  { auto. }
  { intros v Hv. rewrite Hzero, decide_True by exact Hv. eauto. }
  cbn [mbind option_bind].
  assert (Hlist : mapM (fun user => score ← c !! user; Some (user, score))
                    (users net)
    = Some ((fun v => (v, flow_score (users net) (bfs_distance net) v))
            <$> users net)).
  { apply mapM_Some. apply Forall2_fmap_r, Forall_Forall2_diag, Forall_forall.
    intros v Hv. rewrite Hc, Hzero, decide_True by exact Hv. cbn.
    now rewrite flow_score_counted. }
  now rewrite Hlist.
Qed.

(** *** The distances of the breadth-first search *)

Lemma relax_neighbors_dist (ns q : list string) (d : nat)
    (dist : gmap string nat) (x : string) (k : nat) :
  snd (relax_neighbors ns d (q, dist)) !! x = Some k ->
  dist !! x = Some k \/ (x ∈ ns /\ k = d + 1).
Proof.
  revert q dist. induction ns as [|n ns IH]; intros q dist; [now left|].
  cbn [relax_neighbors]. destruct (dist !! n) eqn:E.
  - intros H. apply IH in H as [H | [H ->]]; [now left|].
    right. split; [now right | reflexivity].
  - intros H. apply IH in H as [H | [H ->]].
    + destruct (decide (x = n)) as [->|Hne].
      * rewrite lookup_insert_eq in H. injection H as <-.
        right. split; [left | reflexivity].
      * rewrite lookup_insert_ne in H by done. now left.
    + right. split; [now right | reflexivity].
Qed.

Lemma distance_loop_paths (fuel : nat) (net : network) (s : string)
    (q : list string) (dist D : gmap string nat) :
  (forall x k, dist !! x = Some k -> nsteps (edge net) k s x) ->
  distance_loop fuel net (q, dist) = Some D ->
  forall x k, D !! x = Some k -> nsteps (edge net) k s x.
Proof.
  revert q dist. induction fuel as [|fuel IH]; intros q dist Hdist.
  - destruct q; cbn; [|discriminate]. now intros [= <-].
  - destruct q as [|cur q]; [cbn; now intros [= <-]|].
    cbn [distance_loop]. destruct (dist !! cur) as [d|] eqn:Ecur; [|discriminate].
    cbn [mbind option_bind].
    destruct (relax_neighbors _ _ _) as [q' dist'] eqn:E.
    apply IH. intros x k Hx.
    pose proof (relax_neighbors_dist (neighbors net cur) q d dist x k) as H.
    rewrite E in H. destruct (H Hx) as [Hold | [Hnew ->]]; [now apply Hdist|].
    rewrite Nat.add_1_r. apply nsteps_r with cur; [now apply Hdist | exact Hnew].
Qed.

Lemma distance_loop_dom (fuel : nat) (net : network) (q : list string)
    (dist D : gmap string nat) :
  distance_loop fuel net (q, dist) = Some D ->
  reach_loop fuel net (q, dom dist) = Some (dom D).
Proof.
  revert q dist. induction fuel as [|fuel IH]; intros q dist.
  - destruct q; cbn; [|discriminate]. now intros [= <-].
  - destruct q as [|cur q]; [cbn; now intros [= <-]|].
    rewrite reach_loop_unfold. cbn [distance_loop].
    destruct (dist !! cur) as [d|]; [|discriminate]. cbn [mbind option_bind].
    destruct (relax_neighbors_reach (neighbors net cur) q d dist) as [H1 H2].
    destruct (relax_neighbors _ _ _) as [q' dist'] eqn:E. cbn [fst snd] in *.
    intros H. apply IH in H.
    now rewrite (surjective_pairing (reach_neighbors _ _)), <- H1, <- H2.
Qed.

(** In a forest all the paths between two nodes have the same length. *)
Lemma forest_path_length (net : network) (a x : string) (n m : nat) :
  well_formed net ->
  nsteps (edge net) n a x -> nsteps (edge net) m a x -> n = m.
Proof.
  intros Hwf.
  assert (Hcycle : forall k y, ~ nsteps (edge net) (S k) y y).
  { intros k y H. apply (wf_acyclic net Hwf y). apply tc_nsteps.
    exists (S k). split; [lia | exact H]. }
  revert m x. induction n as [|n IH]; intros m x Hn Hm.
  - inversion Hn; subst. destruct m as [|m]; [reflexivity|].
    now apply Hcycle in Hm.
  - destruct m as [|m].
    + inversion Hm; subst. now apply Hcycle in Hn.
    + apply nsteps_inv_r in Hn as (y & Hn & Hyx).
      apply nsteps_inv_r in Hm as (y' & Hm & Hy'x).
      rewrite (unique_referrer net Hwf y' y x Hy'x Hyx) in Hm.
      f_equal. exact (IH m y Hn Hm).
Qed.

(** What the breadth-first search records for [t] is the length of the
    shortest path from [s] to [t], and it records nothing exactly when
    there is no path. *)
Lemma bfs_distance_shortest (net : network) (s t : string) :
  well_formed net -> s ∈ users net ->
  match bfs_distance net s t with
  | Some d => nsteps (edge net) d s t
              /\ forall d', nsteps (edge net) d' s t -> d <= d'
  | None => ~ path net s t
  end.
Proof.
  intros Hwf Hs. unfold bfs_distance.
  destruct (bfsShortestPaths_Some net s Hwf Hs) as [D HD]. rewrite HD.
  cbn [mbind option_bind].
  assert (Hpaths : forall x k, D !! x = Some k -> nsteps (edge net) k s x).
  { unfold bfsShortestPaths in HD.
    apply (distance_loop_paths _ net s _ _ D) with (2 := HD).
    intros x k Hx. apply lookup_singleton_Some in Hx as [<- <-]. constructor. }
  destruct (D !! t) as [d|] eqn:Et.
  - split; [now apply Hpaths|]. intros d' Hd'.
    now rewrite (forest_path_length net s t d d' Hwf (Hpaths t d Et) Hd').
  - intros Hp. unfold bfsShortestPaths in HD. apply distance_loop_dom in HD.
    rewrite dom_singleton_L in HD.
    destruct (getReachSet_spec net Hwf s Hs) as (V & HV & HVp).
    unfold getReachSet in HV. rewrite HV in HD. injection HD as ->.
    apply HVp, elem_of_dom in Hp as [d Hd]. congruence.
Qed.

(** *** The claim about [flowCentrality] *)

(** C8, as the code has it: on a network built by calls with two users
    or more, [flowCentrality] returns the users, each with the number of
    ordered pairs [(s, t)] of other users whose breadth-first distances
    [d(s,v)], [d(v,t)], [d(s,t)] are finite and add up, sorted by that
    number in descending order; with fewer than two users it returns the
    empty sequence.  The distance that the search records is the length
    of the shortest path.  In the chain [A -> B -> C] the score of [B] is
    1 and those of [A] and [C] are 0. *)
Theorem flowCentrality_ranking (cs : list call) (net : network) :
  after_calls cs new_network = Some net ->
  (2 <= length (users net) ->
     exists l : list (string * nat),
       flowCentrality net = Some l /\
       l ≡ₚ (fun v => (v, flow_score (users net) (bfs_distance net) v))
              <$> users net /\
       StronglySorted (fun a b => snd b <= snd a) l) /\
  (length (users net) <= 1 -> flowCentrality net = Some []) /\
  (forall s t, s ∈ users net ->
     match bfs_distance net s t with
     | Some d => nsteps (edge net) d s t
                 /\ forall d', nsteps (edge net) d' s t -> d <= d'
     | None => ~ path net s t
     end) /\
  flowCentrality chain_network = Some [("B", 1); ("A", 0); ("C", 0)].
Proof.
  intros Hcs. apply reachable_well_formed in Hcs as Hwf.
  split; [|split; [|split]].
  - intros Hsize. eexists. split; [now apply flowCentrality_scores|].
    split; [apply sort_desc_perm | apply sort_desc_sorted].
  - intros Hsize. unfold flowCentrality.
    now destruct (Nat.leb_spec (length (users net)) 1) as [_|Hlt]; [|lia].
  - intros s t Hs. now apply bfs_distance_shortest.
  - vm_compute. reflexivity.
Qed.

Lemma flowCentrality_ranking_witness :
  exists l : list (string * nat),
    flowCentrality tree_network = Some l /\
    l ≡ₚ (fun v => (v, flow_score (users tree_network)
                         (bfs_distance tree_network) v))
           <$> users tree_network /\
    StronglySorted (fun a b => snd b <= snd a) l.
Proof.
  destruct (flowCentrality_ranking tree_calls tree_network) as (Hrank & _).
  - vm_compute. reflexivity.
  - apply Hrank. vm_compute. lia.
Defined.

(** C8, as the claim has it, fails on the network with one user: the
    user gets no score, because the sequence returned is empty. *)
Lemma flowCentrality_single_user :
  exists net : network,
    after_calls [AddUser "A"] new_network = Some net /\
    users net = ["A"] /\
    ~ exists l : list (string * nat),
        flowCentrality net = Some l /\
        l ≡ₚ (fun v => (v, flow_score (users net) (bfs_distance net) v))
               <$> users net.
Proof.
  eexists. split; [reflexivity|]. split; [reflexivity|].
  intros (l & Hl & Hperm). vm_compute in Hl. injection Hl as <-.
  apply Permutation_nil_l in Hperm. discriminate.
Qed.

End ReferralNetworkProps.
(** * More of Simulation.js: invariants of the run, and how the three
      methods end on every input *)

Module SimulationMore.
Import SimulationProps.

Section Run.

Context {num : Type} {N : Number num}.

Lemma process_referrers_length (p : num) (counts : list num) (d : num) :
  length (fst (process_referrers p counts d)) = length counts.
Proof.
  revert d. induction counts as [|c rest IH]; intros d; [reflexivity|].
  cbn [process_referrers]. destruct (leb referralCapacity c).
  - specialize (IH d). destruct (process_referrers p rest d). cbn in *. lia.
  - specialize (IH (add d p)).
    destruct (process_referrers p rest (add d p)). cbn in *. lia.
Qed.

Lemma add_referrers_length (room : nat) (i : Z) (n : num) (counts : list num) :
  (length counts <= length (add_referrers room i n counts)
   <= length counts + room)%nat.
Proof.
  revert i counts. induction room as [|room IH]; intros i counts;
    cbn [add_referrers]; [lia|].
  destruct (ltb (of_Z i) n); [|lia].
  specialize (IH (i + 1)%Z (counts ++ [of_Z 0])).
  rewrite length_app in IH. cbn [length] in IH. lia.
Qed.

Lemma day_step_slots (p : num) (st : list num * num) :
  (length (fst st) <= MAX_REFERRERS)%nat ->
  (length (fst st) <= length (fst (day_step p st)) <= MAX_REFERRERS)%nat.
Proof.
  intros Hcap. unfold day_step.
  pose proof (process_referrers_length p (fst st) (of_Z 0)) as Hlen.
  destruct (process_referrers p (fst st) (of_Z 0)) as [counts1 daily].
  cbn [fst] in *.
  pose proof (add_referrers_length (MAX_REFERRERS - length counts1) 0
                (floor daily) counts1) as Hadd.
  lia.
Qed.

Lemma simulate_days_stopped (p : num) (n m : nat) (st : list num * num) :
  (length (simulate_days n p st) < n)%nat -> (n <= m)%nat ->
  simulate_days m p st = simulate_days n p st.
Proof.
  revert m st. induction n as [|n IH]; intros m st Hlen Hnm; [cbn in Hlen; lia|].
  destruct m as [|m]; [lia|].
  rewrite !simulate_days_unfold in *.
  destruct (MAX_REFERRERS <=? length (fst (day_step p st)))%nat; [done|].
  cbn [length] in Hlen. f_equal. apply IH; lia.
Qed.


Lemma verify_bonus_no_throw (days target : Z) (f : num -> num) (b : num)
    (e : error) :
  (0 <= days)%Z ->
  (forall x, ltb (f x) (of_Z 0) = false /\ ltb (of_Z 1) (f x) = false) ->
  verify_bonus days target f b <> Throw e.
Proof.
  intros Hdays Hf. unfold verify_bonus. destruct (Hf b) as [E0 E1].
  destruct (ltb (of_Z 0) (f b)); [|discriminate].
  rewrite (simulate_Ok _ _ E0 E1 Hdays).
  destruct (last_ge _ _); discriminate.
Qed.

Lemma search_bonus_no_throw (fuel : nat) (days target : Z) (f : num -> num)
    (eps lo hi : num) (e : error) :
  (0 <= days)%Z ->
  (forall x, ltb (f x) (of_Z 0) = false /\ ltb (of_Z 1) (f x) = false) ->
  search_bonus fuel days target f eps lo hi <> Some (Throw e).
Proof.
  intros Hdays Hf. revert lo hi.
  induction fuel as [|fuel IH]; intros lo hi; [discriminate|].
  cbn [search_bonus]. destruct (ltb eps (sub hi lo)); [|discriminate].
  destruct (Hf (div (add lo hi) (of_Z 2))) as [E0 E1].
  destruct (ltb (of_Z 0) (f (div (add lo hi) (of_Z 2)))); [|apply IH].
  rewrite (simulate_Ok _ _ E0 E1 Hdays).
  destruct (last_ge _ _); apply IH.
Qed.

End Run.

(** ** simulate *)

(** X14: a longer run of [simulate] extends a shorter one.  In every
    arithmetic, if [simulate(p, d)] returns, then for every [d'] from
    [d] on [simulate(p, d')] returns too, and begins with the entries of
    [simulate(p, d)]: the total of a day does not depend on how many
    days are asked for.  If [simulate(p, d)] stopped early, with fewer
    entries than [min(d, 100)], then [simulate(p, d')] is the same
    array.  Where the order laws of the rationals hold, a target reached
    in [d] days is reached in [d'] days. *)
Theorem simulate_extends {num : Type} {N : Number num} :
  (forall (p : num) (d d' : Z) (l : list num),
     (d <= d')%Z -> simulate p d = Ok l ->
     exists l', simulate p d' = Ok l' /\ l `prefix_of` l' /\
                forall k x, l !! k = Some x -> l' !! k = Some x)
  /\ (forall (p : num) (d d' : Z) (l : list num),
        (d <= d')%Z -> simulate p d = Ok l ->
        (Z.of_nat (length l) < Z.min d MAX_DAYS)%Z ->
        simulate p d' = Ok l)
  /\ (GroundLaws N -> CompareLaws N -> OrderLaws N ->
      forall (p : num) (target d d' : Z),
        probability p -> (0 <= d <= d')%Z ->
        reaches p target d = true -> reaches p target d' = true).
Proof.
  split; [|split].
  - intros p d d' l Hd Hl.
    apply simulate_Ok_inv in Hl as (E0 & E1 & Hd0 & ->).
    eexists. split; [apply simulate_Ok; [done|done|lia]|].
    assert (Hpre : simulate_days (Z.to_nat (Z.min d MAX_DAYS)) p initial_state
                   `prefix_of`
                   simulate_days (Z.to_nat (Z.min d' MAX_DAYS)) p initial_state).
    { apply simulate_days_prefix. lia. }
    split; [done|]. intros k x Hk. by eapply prefix_lookup_Some.
  - intros p d d' l Hd Hl Hshort.
    apply simulate_Ok_inv in Hl as (E0 & E1 & Hd0 & ->).
    rewrite simulate_Ok by (done || lia). f_equal.
    apply simulate_days_stopped; lia.
  - intros G C O p target d d'. apply reaches_monotone.
Qed.

Lemma simulate_extends_witness :
  (exists l', simulate 0.5%float 5 = Ok l' /\
              [50; 125; 237]%float `prefix_of` l' /\
              forall k x, [50; 125; 237]%float !! k = Some x ->
                          l' !! k = Some x)
  /\ simulate 1%float 50 = Ok [100; 300; 700; 1500; 3100; 6300]%float
  /\ reaches (1 # 10)%Q 20 10 = true.
Proof.
  destruct (@simulate_extends float float_number) as (Hext & Hstop & _).
  destruct (@simulate_extends Q Q_number) as (_ & _ & Hreach).
  split; [|split].
  - apply (Hext 0.5%float 3%Z 5%Z); [lia | vm_compute; reflexivity].
  - apply (Hstop 1%float 7%Z 50%Z);
      [lia | vm_compute; reflexivity | vm_compute; reflexivity].
  - apply (Hreach Q_ground_laws Q_compare_laws Q_order_laws
             (1 # 10)%Q 20%Z 3%Z 10%Z);
      [split; reflexivity | lia | vm_compute; reflexivity].
Defined.

(** X15: the referrer slots of [simulate].  In every arithmetic and for
    every [p], the array [referrerCounts] holds at least the 100 initial
    slots and at most [MAX_REFERRERS] = 5000 after any number of
    iterations of the loop over days, and an iteration never removes a
    slot. *)
Theorem simulate_slots {num : Type} {N : Number num} (p : num) (k : nat) :
  (initialActiveReferrers <= length (fst (state_after p k))
   <= MAX_REFERRERS)%nat
  /\ (length (fst (state_after p k))
      <= length (fst (state_after p (S k))))%nat.
Proof.
  assert (Hstep : forall j, state_after p (S j) = day_step p (state_after p j))
    by reflexivity.
  assert (Hinv : (initialActiveReferrers <= length (fst (state_after p k))
                  <= MAX_REFERRERS)%nat).
  { induction k as [|k IH].
    - change (state_after p 0) with (@initial_state num N).
      unfold initial_state. cbn [fst]. rewrite repeat_length.
      split; [lia|]. apply Nat.leb_le. vm_compute. reflexivity.
    - rewrite Hstep.
      pose proof (day_step_slots p (state_after p k) (proj2 IH)). lia. }
  split; [exact Hinv|]. rewrite Hstep.
  apply (day_step_slots p _ (proj2 Hinv)).
Qed.

(** ** daysToTarget *)




(** ** minBonusForTarget *)

(** X18: what [minBonusForTarget] throws, in every arithmetic and for
    every bound on the number of iterations.  The three checks come in
    the order days, target, precision; with valid arguments a target of
    0 gives the bonus 0 without a call of the adoption curve; an
    adoption curve whose value at the bonus 10000 is above 1 makes the
    call throw the probability error of [simulate]; and with an adoption
    curve whose values all pass the validation of [simulate], the call
    throws nothing. *)
Theorem minBonusForTarget_errors {num : Type} {N : Number num}
    (fuel : nat) (days targetHires : Z) (adoptionProb : num -> num)
    (eps : num) :
  ((days < 0)%Z ->
     minBonusForTarget fuel days targetHires adoptionProb eps
     = Some (Throw InvalidDuration)) /\
  ((0 <= days)%Z -> (targetHires < 0)%Z ->
     minBonusForTarget fuel days targetHires adoptionProb eps
     = Some (Throw InvalidTarget)) /\
  ((0 <= days)%Z -> (0 <= targetHires)%Z -> leb eps (of_Z 0) = true ->
     minBonusForTarget fuel days targetHires adoptionProb eps
     = Some (Throw InvalidPrecision)) /\
  ((0 <= days)%Z -> leb eps (of_Z 0) = false ->
     minBonusForTarget fuel days 0 adoptionProb eps
     = Some (Ok (Bonus (of_Z 0)))) /\
  ((0 <= days)%Z -> (0 < targetHires)%Z -> leb eps (of_Z 0) = false ->
     ltb (of_Z 0) (adoptionProb (of_Z 10000)) = true ->
     ltb (of_Z 1) (adoptionProb (of_Z 10000)) = true ->
     minBonusForTarget fuel days targetHires adoptionProb eps
     = Some (Throw InvalidProbability)) /\
  ((0 <= days)%Z -> (0 <= targetHires)%Z -> leb eps (of_Z 0) = false ->
     (forall b, ltb (adoptionProb b) (of_Z 0) = false
                /\ ltb (of_Z 1) (adoptionProb b) = false) ->
     forall e, minBonusForTarget fuel days targetHires adoptionProb eps
               <> Some (Throw e)).
Proof.
  unfold minBonusForTarget. repeat split.
  - intros Hd. by rewrite (proj2 (Z.ltb_lt days 0)).
  - intros Hd Ht. rewrite (proj2 (Z.ltb_ge days 0)) by done.
    by rewrite (proj2 (Z.ltb_lt targetHires 0)).
  - intros Hd Ht He. rewrite (proj2 (Z.ltb_ge days 0)) by done.
    rewrite (proj2 (Z.ltb_ge targetHires 0)) by done. by rewrite He.
  - intros Hd He. rewrite (proj2 (Z.ltb_ge days 0)) by done.
    cbn. by rewrite He.
  - intros Hd Ht He H0 H1. rewrite (proj2 (Z.ltb_ge days 0)) by done.
    rewrite (proj2 (Z.ltb_ge targetHires 0)) by lia. rewrite He.
    rewrite (proj2 (Z.eqb_neq targetHires 0)) by lia. rewrite H0.
    unfold simulate. rewrite H1, orb_true_r. done.
  - intros Hd Ht He Hf e. rewrite (proj2 (Z.ltb_ge days 0)) by done.
    rewrite (proj2 (Z.ltb_ge targetHires 0)) by done. rewrite He.
    destruct (targetHires =? 0)%Z; [discriminate|].
    assert (Hsearch : search_and_verify fuel days targetHires adoptionProb eps
                      <> Some (Throw e)).
    { unfold search_and_verify.
      destruct (search_bonus _ _ _ _ _ _ _) as [[hi|e']|] eqn:Es;
        [|by apply search_bonus_no_throw in Es|discriminate].
      intros [= Hv]. by apply verify_bonus_no_throw in Hv. }
    destruct (Hf (of_Z 10000)) as [E0 E1].
    destruct (ltb (of_Z 0) (adoptionProb (of_Z 10000))); [|done].
    rewrite (simulate_Ok _ _ E0 E1 Hd).
    destruct (ltb_last _ _); [discriminate|done].
Qed.

Lemma minBonusForTarget_errors_witness :
  minBonusForTarget 0 (-1) 5 (fun _ : float => 0.5%float) 10%float
  = Some (Throw InvalidDuration) /\
  minBonusForTarget 0 5 (-1) (fun _ : float => 0.5%float) 10%float
  = Some (Throw InvalidTarget) /\
  minBonusForTarget 0 5 5 (fun _ : float => 0.5%float) 0%float
  = Some (Throw InvalidPrecision) /\
  minBonusForTarget 0 5 0 (fun _ : float => 0.5%float) 10%float
  = Some (Ok (Bonus (of_Z 0))) /\
  minBonusForTarget 0 5 5 (fun b : float => div b 1000%float) 10%float
  = Some (Throw InvalidProbability) /\
  (forall e, minBonusForTarget 60 5 5 (fun _ : float => 0.5%float) 10%float
             <> Some (Throw e)).
Proof.
  pose proof (@minBonusForTarget_errors float float_number 0%nat (-1)%Z 5%Z
                (fun _ : float => 0.5%float) 10%float) as (H1 & _).
  pose proof (@minBonusForTarget_errors float float_number 0%nat 5%Z (-1)%Z
                (fun _ : float => 0.5%float) 10%float) as (_ & H2 & _).
  pose proof (@minBonusForTarget_errors float float_number 0%nat 5%Z 5%Z
                (fun _ : float => 0.5%float) 0%float) as (_ & _ & H3 & _).
  pose proof (@minBonusForTarget_errors float float_number 0%nat 5%Z 0%Z
                (fun _ : float => 0.5%float) 10%float)
    as (_ & _ & _ & H4 & _).
  pose proof (@minBonusForTarget_errors float float_number 0%nat 5%Z 5%Z
                (fun b : float => div b 1000%float) 10%float)
    as (_ & _ & _ & _ & H5 & _).
  pose proof (@minBonusForTarget_errors float float_number 60%nat 5%Z 5%Z
                (fun _ : float => 0.5%float) 10%float)
    as (_ & _ & _ & _ & _ & H6).
  split; [exact (H1 ltac:(lia))|].
  split; [exact (H2 ltac:(lia) ltac:(lia))|].
  split; [exact (H3 ltac:(lia) ltac:(lia) eq_refl)|].
  split; [exact (H4 ltac:(lia) eq_refl)|].
  split; [exact (H5 ltac:(lia) ltac:(lia) eq_refl eq_refl eq_refl)|].
  exact (H6 ltac:(lia) ltac:(lia) eq_refl
            (fun b => conj eq_refl eq_refl)).
Defined.

(** ** NaN *)






(** ** The early stop and the search for a bonus *)

Lemma simulate_one (days : Z) :
  (6 <= days)%Z ->
  simulate 1%float days = Ok [100; 300; 700; 1500; 3100; 6300]%float.
Proof.
  intros Hd. rewrite (simulate_Ok (N := float_number) 1%float days);
    [|reflexivity|reflexivity|lia].
  f_equal. destruct (decide (Z.to_nat (Z.min days MAX_DAYS) = 6%nat)) as [->|Hne].
  - vm_compute. reflexivity.
  - rewrite (simulate_days_stopped (N := float_number) 1%float 7).
    + vm_compute. reflexivity.
    + apply Nat.ltb_lt. vm_compute. reflexivity.
    + unfold MAX_DAYS in *. lia.
Qed.

(** X24: the early stop hides reachable targets, on binary64.  With
    [p = 1] the cap of 5000 referrers is reached on day 6, so
    [simulate(1, days)] ends with 6300 for every [days >= 6], while
    [simulate(0.9, 30)] runs a day longer and ends with 8821: the last
    entry does not grow with [p].  Hence for every adoption curve with
    value 1 at the bonus 10000, every [days >= 6] and every target above
    6300, [minBonusForTarget] returns [null] at its first check; with
    the curve [bonus / 10000] and the target 8000 it does so although
    the bonus 9000 reaches the target in 30 days. *)
Theorem early_stop_hides_reachable_target :
  (forall days : Z, (6 <= days)%Z ->
     simulate 1%float days = Ok [100; 300; 700; 1500; 3100; 6300]%float) /\
  simulate 0.9%float 30
  = Ok [90; 261; 585; 1202; 2373; 4597; 8821]%float /\
  (forall (fuel : nat) (days targetHires : Z) (adoptionProb : float -> float)
          (eps : float),
     (6 <= days)%Z -> (0 < targetHires)%Z ->
     ltb 6300%float (of_Z targetHires) = true ->
     leb eps (of_Z 0) = false ->
     adoptionProb (of_Z 10000) = 1%float ->
     minBonusForTarget fuel days targetHires adoptionProb eps
     = Some (Ok Impossible)) /\
  reaches (div 9000 10000)%float 8000 30 = true.
Proof.
  split; [exact simulate_one|]. split; [vm_compute; reflexivity|].
  split; [|vm_compute; reflexivity].
  intros fuel days target f eps Hd Ht Hlt He Hf. unfold minBonusForTarget.
  rewrite (proj2 (Z.ltb_ge days 0)) by lia.
  rewrite (proj2 (Z.ltb_ge target 0)) by lia. rewrite He.
  rewrite (proj2 (Z.eqb_neq target 0)) by lia. rewrite Hf.
  change (ltb (of_Z 0) 1%float) with true. cbn beta iota.
  rewrite simulate_one by done. unfold ltb_last.
  change (last [100; 300; 700; 1500; 3100; 6300]%float) with (Some 6300%float).
  cbn beta iota. by rewrite Hlt.
Qed.

Lemma early_stop_hides_reachable_target_witness :
  minBonusForTarget 0 30 8000 (fun b : float => div b 10000%float) 10%float
  = Some (Ok Impossible)
  /\ reaches (div 9000 10000)%float 8000 30 = true.
Proof.
  destruct early_stop_hides_reachable_target as (_ & _ & Hnull & Hreach).
  split; [|exact Hreach].
  apply (Hnull 0%nat 30%Z 8000%Z (fun b : float => div b 10000%float)
           10%float); [lia | lia | reflexivity | reflexivity | reflexivity].
Defined.

End SimulationMore.
(** * More of ReferralNetwork.js: the other methods, and how the methods
      compose *)

Module ReferralNetworkMore.
Import ReferralNetworkProps.

(** ** Paths in a forest *)

Lemma path_addUser (net : network) (u x y : string) :
  path (addUser u net) x y <-> path net x y.
Proof.
  unfold path. split; intros H.
  - induction H as [|a b c Hab _ IH]; [constructor|].
    apply edge_addUser in Hab. by econstructor.
  - induction H as [|a b c Hab _ IH]; [constructor|].
    apply (edge_addUser net u) in Hab. by econstructor.
Qed.

Lemma path_antisym (net : network) (x y : string) :
  well_formed net -> path net x y -> path net y x -> x = y.
Proof.
  intros Hwf Hxy Hyx. apply rtc_tc in Hxy as [->|Hxy]; [done|].
  destruct (wf_acyclic net Hwf x). eapply tc_rtc_r; eauto.
Qed.

Lemma edge_irrefl (net : network) (x : string) :
  well_formed net -> ~ edge net x x.
Proof. intros Hwf H. apply (wf_acyclic net Hwf x). by apply tc_once. Qed.

Lemma reach_set_self (net : network) (u : string) :
  well_formed net -> u ∈ users net -> u ∈ reach_set net u.
Proof. intros Hwf Hu. apply elem_of_reach_set; [done..|]. constructor. Qed.

Lemma reach_set_users (net : network) (u x : string) :
  well_formed net -> u ∈ users net -> x ∈ reach_set net u -> x ∈ users net.
Proof.
  intros Hwf Hu Hx. apply elem_of_reach_set in Hx; [|done..].
  by eapply path_user.
Qed.

Lemma reach_set_size (net : network) (u : string) :
  well_formed net -> u ∈ users net ->
  1 <= size (reach_set net u) <= length (users net).
Proof.
  intros Hwf Hu. split.
  - assert (size (reach_set net u) <> 0); [|lia].
    intros H0. apply size_empty_inv in H0.
    pose proof (reach_set_self net u Hwf Hu) as Hin.
    rewrite (H0 u) in Hin. set_solver.
  - rewrite <- (size_all_users net Hwf).
    apply subseteq_size. intros x Hx. unfold all_users.
    apply elem_of_list_to_set. by eapply reach_set_users.
Qed.

Lemma reach_set_Some (net : network) (u : string) :
  well_formed net -> u ∈ users net ->
  getReachSet net u = Some (reach_set net u).
Proof.
  intros Hwf Hu. destruct (getReachSet_spec net Hwf u Hu) as (V & HV & _).
  unfold reach_set. by rewrite HV.
Qed.

Lemma direct_neighbors (net : network) (u : string) :
  well_formed net -> u ∈ users net ->
  getDirectReferrals net u = Ok (neighbors net u).
Proof.
  intros Hwf Hu. unfold getDirectReferrals, neighbors.
  apply has_user_true in Hu. rewrite Hu. cbn.
  by rewrite (wf_direct net Hwf).
Qed.

(** ** addUser *)

(** X3: [addUser] registers a user once.  On a network built by calls,
    adding a registered user changes nothing at all, so the user's
    referrals are never reset; adding a new user appends it to the
    registration order with no referrer, no direct referral and a total
    of zero; and in both cases every registered user keeps its direct
    referrals and its total. *)
Theorem addUser_registers_once (cs : list call) (net : network) (u : string) :
  after_calls cs new_network = Some net ->
  (u ∈ users net -> addUser u net = net) /\
  (u ∉ users net ->
     users (addUser u net) = users net ++ [u] /\
     referrerOf (addUser u net) !! u = None /\
     getDirectReferrals (addUser u net) u = Ok [] /\
     totalReferrals (addUser u net) u = Some (Ok 0)) /\
  (forall v, v ∈ users net ->
     getDirectReferrals (addUser u net) v = getDirectReferrals net v /\
     totalReferrals (addUser u net) v = totalReferrals net v).
Proof.
  intros Hcs. pose proof (reachable_well_formed cs net Hcs) as Hwf.
  pose proof (well_formed_addUser net u Hwf) as Hwf'.
  assert (Hin : forall v, v ∈ users net -> v ∈ users (addUser u net)).
  { intros v Hv. cbn. apply elem_of_set_add. by right. }
  split; [|split].
  - intros Hu. destruct net as [g us d ro]. unfold addUser. cbn in *.
    pose proof (wf_graph _ Hwf u) as Hg. cbn in Hg.
    destruct (proj1 Hg Hu) as [l Hl].
    pose proof (wf_direct _ Hwf) as Hd. cbn in Hd. subst d.
    rewrite Hl. unfold set_add. by rewrite decide_True.
  - intros Hu.
    assert (Hu' : u ∈ users (addUser u net)).
    { cbn. apply elem_of_set_add. by left. }
    assert (Hn : neighbors (addUser u net) u = []).
    { rewrite neighbors_addUser. unfold neighbors.
      destruct (graph net !! u) as [l|] eqn:Hl; [|done].
      destruct Hu. apply (wf_graph net Hwf). by eexists. }
    split; [by apply set_add_fresh|]. split; [|split].
    + cbn. destruct (referrerOf net !! u) as [r|] eqn:Hr; [|done].
      destruct Hu. apply (wf_candidate net Hwf r).
      by apply (wf_referrer net Hwf).
    + by rewrite direct_neighbors, Hn.
    + rewrite totalReferrals_reach_set by done.
      replace (reach_set (addUser u net) u) with ({[u]} : gset string);
        [by rewrite size_singleton|].
      apply set_eq. intros x. rewrite elem_of_reach_set by done.
      rewrite elem_of_singleton. split; [intros ->; constructor|].
      intros Hp. apply rtc_tc in Hp as [->|Hp]; [done|].
      apply tc_first in Hp as (y & Hy & _).
      unfold edge in Hy. rewrite Hn in Hy. by apply elem_of_nil in Hy.
  - intros v Hv. split.
    + rewrite !direct_neighbors by auto. by rewrite neighbors_addUser.
    + rewrite !totalReferrals_reach_set by auto.
      replace (reach_set (addUser u net) v) with (reach_set net v); [done|].
      apply set_eq. intros x. rewrite !elem_of_reach_set by auto.
      by rewrite path_addUser.
Qed.

Lemma addUser_registers_once_witness :
  ("A" ∈ users tree_network -> addUser "A" tree_network = tree_network) /\
  ("A" ∉ users tree_network ->
     users (addUser "A" tree_network) = users tree_network ++ ["A"] /\
     referrerOf (addUser "A" tree_network) !! "A" = None /\
     getDirectReferrals (addUser "A" tree_network) "A" = Ok [] /\
     totalReferrals (addUser "A" tree_network) "A" = Some (Ok 0)) /\
  (forall v, v ∈ users tree_network ->
     getDirectReferrals (addUser "A" tree_network) v
     = getDirectReferrals tree_network v /\
     totalReferrals (addUser "A" tree_network) v
     = totalReferrals tree_network v).
Proof.
  apply (addUser_registers_once tree_calls tree_network "A").
  vm_compute. reflexivity.
Defined.

(** ** addReferral and getDirectReferrals *)

Lemma addReferral_true_inv (net net' : network) (r c : string) :
  well_formed net -> addReferral r c net = Some (Ok true, net') ->
  r ∈ users net /\ c ∈ users net /\ r <> c /\
  referrerOf net !! c = None /\ ~ path net c r /\
  net' = commit r c net /\ well_formed net'.
Proof.
  intros Hwf Hadd.
  pose proof (well_formed_addReferral net net' r c _ Hwf Hadd) as Hwf'.
  destruct (addReferral_cases net r c Hwf) as (out & n' & Heq & Hcases).
  rewrite Hadd in Heq. injection Heq as <- <-.
  destruct Hcases as [(_ & [=] & _)|[(_ & _ & _ & [=] & _)|
    (Hr & Hc & Hno & _ & ->)]].
  split; [done|]. split; [done|]. split; [|split; [|split]].
  - intros ->. apply Hno. by left.
  - destruct (referrerOf net !! c) eqn:E; [|done].
    destruct Hno. right. left. by eexists.
  - intros Hp. apply Hno. by do 2 right.
  - done.
Qed.

(** X4: what a successful [addReferral(r, c)] records, on a network
    built by calls.  The set of users is unchanged; [c] had no referrer
    and now has [r]; [getDirectReferrals(r)] is the former list followed
    by [c], which was not in it; every other user's direct referrals and
    every other user's referrer are unchanged; and the same call made a
    second time returns false and changes nothing. *)
Theorem addReferral_records (cs : list call) (net net' : network)
    (r c : string) :
  after_calls cs new_network = Some net ->
  addReferral r c net = Some (Ok true, net') ->
  users net' = users net /\
  referrerOf net !! c = None /\ referrerOf net' !! c = Some r /\
  (exists l, getDirectReferrals net r = Ok l /\ c ∉ l /\
             getDirectReferrals net' r = Ok (l ++ [c])) /\
  (forall u, u <> r -> getDirectReferrals net' u = getDirectReferrals net u) /\
  (forall x, x <> c -> referrerOf net' !! x = referrerOf net !! x) /\
  addReferral r c net' = Some (Ok false, net').
Proof.
  intros Hcs Hadd. pose proof (reachable_well_formed cs net Hcs) as Hwf.
  destruct (addReferral_true_inv net net' r c Hwf Hadd)
    as (Hr & Hc & Hrc & Hnone & Hnp & -> & Hwf').
  split; [done|]. split; [done|]. split; [|split; [|split; [|split]]].
  - cbn. by rewrite lookup_insert_eq.
  - exists (neighbors net r). split; [by apply direct_neighbors|]. split.
    + intros Hin. apply (wf_referrer net Hwf) in Hin. congruence.
    + rewrite direct_neighbors by done. rewrite neighbors_commit.
      by rewrite decide_True.
  - intros u Hu. unfold getDirectReferrals, has_user. cbn.
    by rewrite lookup_insert_ne.
  - intros x Hx. cbn. by rewrite lookup_insert_ne.
  - destruct (addReferral_cases (commit r c net) r c Hwf')
      as (out & n' & Heq & Hcases).
    rewrite Heq. destruct Hcases as [([Hn|Hn] & _)|[(_ & _ & _ & -> & ->)|
      (_ & _ & Hno & _)]]; [by destruct Hn..|done|].
    destruct Hno. right. left. cbn. rewrite lookup_insert_eq. by eexists.
Qed.

Lemma addReferral_records_witness :
  exists net net' : network,
    after_calls [AddUser "A"; AddUser "B"; AddUser "C"; AddReferral "A" "B"]
      new_network = Some net /\
    addReferral "A" "C" net = Some (Ok true, net') /\
    users net' = users net /\
    referrerOf net !! "C" = None /\ referrerOf net' !! "C" = Some "A" /\
    (exists l, getDirectReferrals net "A" = Ok l /\ "C" ∉ l /\
               getDirectReferrals net' "A" = Ok (l ++ ["C"])) /\
    (forall u, u <> "A" ->
       getDirectReferrals net' u = getDirectReferrals net u) /\
    (forall x, x <> "C" -> referrerOf net' !! x = referrerOf net !! x) /\
    addReferral "A" "C" net' = Some (Ok false, net').
Proof.
  eexists _, _. split; [vm_compute; reflexivity|].
  split; [vm_compute; reflexivity|].
  eapply (addReferral_records
            [AddUser "A"; AddUser "B"; AddUser "C"; AddReferral "A" "B"]).
  - vm_compute. reflexivity.
  - vm_compute. reflexivity.
Defined.

(** ** wouldCreateCycle *)

(** X5: [wouldCreateCycle(referrerId, candidateId)] returns, on every
    network whatever its shape, and it returns true exactly when the
    referrer can be reached from the candidate along referral edges; in
    particular it returns true when the two are one user. *)
Theorem wouldCreateCycle_decides_path (net : network)
    (referrerId candidateId : string) :
  (exists b : bool,
     wouldCreateCycle net referrerId candidateId = Some b /\
     (b = true <-> path net candidateId referrerId)) /\
  wouldCreateCycle net referrerId referrerId = Some true.
Proof.
  split; [apply wouldCreateCycle_spec|].
  destruct (wouldCreateCycle_spec net referrerId referrerId)
    as (b & Hb & Hiff).
  rewrite Hb. f_equal. apply Hiff. constructor.
Qed.

(** ** totalReferrals and getReachSet *)

(** X6: [getReachSet(u)], for a registered user of a network built by
    calls, returns the set of the users that can be reached from [u]
    along referral edges, [u] itself included; they are all registered;
    and [totalReferrals(u)] is the size of that set less one. *)
Theorem getReachSet_exact (cs : list call) (net : network) (u : string) :
  after_calls cs new_network = Some net -> u ∈ users net ->
  exists V : gset string,
    getReachSet net u = Some V /\
    (forall x, x ∈ V <-> path net u x) /\
    u ∈ V /\ (forall x, x ∈ V -> x ∈ users net) /\
    1 <= size V <= length (users net) /\
    totalReferrals net u = Some (Ok (size V - 1)).
Proof.
  intros Hcs Hu. pose proof (reachable_well_formed cs net Hcs) as Hwf.
  exists (reach_set net u). split; [by apply reach_set_Some|].
  split; [intros x; by apply elem_of_reach_set|].
  split; [by apply reach_set_self|].
  split; [intros x; by apply reach_set_users|].
  split; [by apply reach_set_size|].
  by apply totalReferrals_reach_set.
Qed.

Lemma getReachSet_exact_witness :
  exists V : gset string,
    getReachSet tree_network "B" = Some V /\
    (forall x, x ∈ V <-> path tree_network "B" x) /\
    "B" ∈ V /\ (forall x, x ∈ V -> x ∈ users tree_network) /\
    1 <= size V <= length (users tree_network) /\
    totalReferrals tree_network "B" = Some (Ok (size V - 1)).
Proof.
  apply (getReachSet_exact tree_calls tree_network "B").
  - vm_compute. reflexivity.
  - apply has_user_true. vm_compute. reflexivity.
Defined.

Lemma reach_set_below (net : network) (u v : string) :
  well_formed net -> u ∈ users net -> path net u v -> v <> u ->
  reach_set net v ⊆ reach_set net u ∖ {[u]}.
Proof.
  intros Hwf Hu Huv Hne x Hx.
  assert (Hv : v ∈ users net) by by eapply path_user.
  apply elem_of_reach_set in Hx; [|done..].
  apply elem_of_difference. split.
  - apply elem_of_reach_set; [done..|]. by apply rtc_trans with v.
  - rewrite elem_of_singleton. intros ->. apply Hne.
    by apply (path_antisym net).
Qed.

Lemma size_reach_set_minus (net : network) (u : string) :
  well_formed net -> u ∈ users net ->
  size (reach_set net u ∖ {[u]}) = size (reach_set net u) - 1.
Proof.
  intros Hwf Hu. rewrite size_difference.
  - by rewrite size_singleton.
  - apply singleton_subseteq_l. by apply reach_set_self.
Qed.

Lemma neighbors_below (net : network) (u : string) :
  well_formed net -> u ∈ users net ->
  list_to_set (neighbors net u) ⊆ reach_set net u ∖ {[u]}.
Proof.
  intros Hwf Hu x Hx. apply elem_of_list_to_set in Hx.
  apply elem_of_difference. split.
  - apply elem_of_reach_set; [done..|]. by apply rtc_once.
  - rewrite elem_of_singleton. intros ->. by apply (edge_irrefl net u).
Qed.

(** X7: the outcomes and the bounds of [totalReferrals], on a network
    built by calls.  It throws for an unregistered user.  For a
    registered one it returns a count that is at least the number of
    direct referrals, is zero exactly when there is no direct referral,
    and is less than the number of users; and every user further down
    the referral tree has a strictly smaller count. *)
Theorem totalReferrals_bounds (cs : list call) (net : network) (u : string) :
  after_calls cs new_network = Some net ->
  (u ∉ users net -> totalReferrals net u = Some (Throw UnknownUser)) /\
  (u ∈ users net ->
     exists (n : nat) (direct : list string),
       totalReferrals net u = Some (Ok n) /\
       getDirectReferrals net u = Ok direct /\
       length direct <= n < length (users net) /\
       (n = 0 <-> direct = []) /\
       (forall v, path net u v -> v <> u ->
          exists m, totalReferrals net v = Some (Ok m) /\ m < n)).
Proof.
  intros Hcs. pose proof (reachable_well_formed cs net Hcs) as Hwf. split.
  - intros Hu. unfold totalReferrals. apply has_user_false in Hu.
    by rewrite Hu.
  - intros Hu. exists (size (reach_set net u) - 1), (neighbors net u).
    pose proof (reach_set_size net u Hwf Hu) as Hsize.
    pose proof (neighbors_below net u Hwf Hu) as Hsub.
    apply subseteq_size in Hsub.
    rewrite size_reach_set_minus in Hsub by done.
    rewrite size_list_to_set in Hsub by apply (wf_nodup net Hwf).
    split; [by apply totalReferrals_reach_set|].
    split; [by apply direct_neighbors|].
    split; [lia|]. split; [split|].
    + intros H0. destruct (neighbors net u) as [|d ds] eqn:Hn; [done|].
      cbn in Hsub. lia.
    + intros Hn. rewrite <- size_reach_set_minus by done.
      apply size_empty_iff, elem_of_equiv_empty. intros x Hx.
      apply elem_of_difference in Hx as [Hx Hne].
      apply elem_of_reach_set in Hx; [|done..].
      apply rtc_tc in Hx as [->|Hx]; [set_solver|].
      apply tc_first in Hx as (y & Hy & _).
      unfold edge in Hy. rewrite Hn in Hy. by apply elem_of_nil in Hy.
    + intros v Hp Hne.
      assert (Hv : v ∈ users net) by by eapply path_user.
      exists (size (reach_set net v) - 1).
      split; [by apply totalReferrals_reach_set|].
      pose proof (reach_set_below net u v Hwf Hu Hp Hne) as Hlt.
      apply subseteq_size in Hlt.
      rewrite size_reach_set_minus in Hlt by done.
      pose proof (reach_set_size net v Hwf Hv). lia.
Qed.

Lemma totalReferrals_bounds_witness :
  ("A" ∉ users tree_network ->
     totalReferrals tree_network "A" = Some (Throw UnknownUser)) /\
  ("A" ∈ users tree_network ->
     exists (n : nat) (direct : list string),
       totalReferrals tree_network "A" = Some (Ok n) /\
       getDirectReferrals tree_network "A" = Ok direct /\
       length direct <= n < length (users tree_network) /\
       (n = 0 <-> direct = []) /\
       (forall v, path tree_network "A" v -> v <> "A" ->
          exists m, totalReferrals tree_network v = Some (Ok m) /\ m < n)).
Proof.
  apply (totalReferrals_bounds tree_calls tree_network "A").
  vm_compute. reflexivity.
Defined.

(** ** bfsShortestPaths *)

Lemma bfs_distance_nsteps (net : network) (s t : string) (d : nat) :
  well_formed net -> s ∈ users net ->
  bfs_distance net s t = Some d <-> nsteps (edge net) d s t.
Proof.
  intros Hwf Hs. pose proof (bfs_distance_shortest net s t Hwf Hs) as H.
  split.
  - intros Hd. rewrite Hd in H. apply H.
  - intros Hn. destruct (bfs_distance net s t) as [d'|].
    + f_equal. apply (forest_path_length net s t _ _ Hwf); [apply H|done].
    + destruct H. by eapply rtc_nsteps_2.
Qed.

Lemma bfs_distance_path (net : network) (s t : string) :
  well_formed net -> s ∈ users net ->
  is_Some (bfs_distance net s t) <-> path net s t.
Proof.
  intros Hwf Hs. split.
  - intros [d Hd]. apply bfs_distance_nsteps in Hd; [|done..].
    by eapply rtc_nsteps_2.
  - intros Hp. apply rtc_nsteps_1 in Hp as [d Hd]. exists d.
    by apply bfs_distance_nsteps.
Qed.

(** X8: the distances of [bfsShortestPaths(s)], for a registered user
    of a network built by calls.  A user has a distance exactly when it
    can be reached from [s]; the distance is the number of edges of the
    path, which is the same for every path; so [s] is at distance 0, a
    direct referral at distance 1, and distances add up along a path:
    if [v] is at distance [a] from [s] and [t] at distance [b] from [v],
    then [t] is at distance [a + b] from [s]. *)
Theorem bfsShortestPaths_distances (cs : list call) (net : network)
    (s : string) :
  after_calls cs new_network = Some net -> s ∈ users net ->
  exists distances : gmap string nat,
    bfsShortestPaths net s = Some distances /\
    (forall t, is_Some (distances !! t) <-> path net s t) /\
    (forall t d, distances !! t = Some d <-> nsteps (edge net) d s t) /\
    distances !! s = Some 0 /\
    (forall t, t ∈ neighbors net s -> distances !! t = Some 1) /\
    (forall v t a b,
       distances !! v = Some a -> bfs_distance net v t = Some b ->
       distances !! t = Some (a + b)).
Proof.
  intros Hcs Hs. pose proof (reachable_well_formed cs net Hcs) as Hwf.
  destruct (bfsShortestPaths_Some net s Hwf Hs) as [D HD]. exists D.
  assert (Hdist : forall t, bfs_distance net s t = D !! t).
  { intros t. unfold bfs_distance. by rewrite HD. }
  split; [done|]. split; [|split; [|split; [|split]]].
  - intros t. rewrite <- Hdist. by apply bfs_distance_path.
  - intros t d. rewrite <- Hdist. by apply bfs_distance_nsteps.
  - rewrite <- Hdist. apply bfs_distance_nsteps; [done..|]. constructor.
  - intros t Ht. rewrite <- Hdist. apply bfs_distance_nsteps; [done..|].
    by apply nsteps_once.
  - intros v t a b Ha Hb. rewrite <- Hdist in Ha |- *.
    apply bfs_distance_nsteps in Ha; [|done..].
    assert (Hv : v ∈ users net).
    { eapply path_user; [done| |done]. by eapply rtc_nsteps_2. }
    apply bfs_distance_nsteps in Hb; [|done..].
    apply bfs_distance_nsteps; [done..|]. by eapply nsteps_trans.
Qed.

Lemma bfsShortestPaths_distances_witness :
  exists distances : gmap string nat,
    bfsShortestPaths tree_network "A" = Some distances /\
    (forall t, is_Some (distances !! t) <-> path tree_network "A" t) /\
    (forall t d, distances !! t = Some d
                 <-> nsteps (edge tree_network) d "A" t) /\
    distances !! "A" = Some 0 /\
    (forall t, t ∈ neighbors tree_network "A" -> distances !! t = Some 1) /\
    (forall v t a b,
       distances !! v = Some a -> bfs_distance tree_network v t = Some b ->
       distances !! t = Some (a + b)).
Proof.
  apply (bfsShortestPaths_distances tree_calls tree_network "A").
  - vm_compute. reflexivity.
  - apply has_user_true. vm_compute. reflexivity.
Defined.

(** ** flowCentrality *)

Lemma filter_ext_in {A : Type} (P Q : A -> Prop)
    `{!forall x, Decision (P x)} `{!forall x, Decision (Q x)} (l : list A) :
  (forall x, x ∈ l -> P x <-> Q x) -> filter P l = filter Q l.
Proof.
  induction l as [|a l IH]; intros Hext; [done|].
  rewrite !filter_cons.
  rewrite IH by (intros x Hx; apply Hext; by right).
  destruct (decide (P a)) as [Hp|Hp], (decide (Q a)) as [Hq|Hq]; try done.
  - destruct Hq. apply Hext; [by left|done].
  - destruct Hp. apply Hext; [by left|done].
Qed.

Lemma length_filter_row {A : Type} (P Q : A -> Prop)
    `{!forall x, Decision (P x)} `{!forall x, Decision (Q x)}
    (a : A) (l : list A) :
  length (filter (fun st => P (fst st) /\ Q (snd st))
            (map (fun y => (a, y)) l))
  = if decide (P a) then length (filter Q l) else 0.
Proof.
  induction l as [|b l IH]; [by destruct (decide (P a))|].
  cbn [map]. rewrite !filter_cons. cbn [fst snd].
  destruct (decide (P a)) as [Hp|Hp].
  - destruct (decide (Q b)) as [Hq|Hq].
    + rewrite decide_True by (split; assumption). cbn. by rewrite IH.
    + rewrite decide_False by tauto. done.
  - rewrite decide_False by tauto. done.
Qed.

Lemma length_filter_pairs {A : Type} (P Q : A -> Prop)
    `{!forall x, Decision (P x)} `{!forall x, Decision (Q x)}
    (l1 l2 : list A) :
  length (filter (fun st => P (fst st) /\ Q (snd st)) (list_prod l1 l2))
  = length (filter P l1) * length (filter Q l2).
Proof.
  induction l1 as [|a l1 IH]; [done|].
  cbn [list_prod]. rewrite filter_app, length_app, IH, length_filter_row.
  rewrite (filter_cons P). destruct (decide (P a)); cbn; lia.
Qed.

Lemma between_forest (net : network) (v s t : string) :
  well_formed net -> s ∈ users net -> v ∈ users net ->
  between (bfs_distance net) v (s, t) = true
  <-> (s <> v /\ path net s v) /\ (t <> v /\ path net v t).
Proof.
  intros Hwf Hs Hv. unfold between.
  rewrite andb_true_iff, bool_decide_eq_true. split.
  - intros ((Hst & Hvs & Hvt) & Hd).
    destruct (bfs_distance net s t) as [dST|] eqn:E1; [|done].
    destruct (bfs_distance net s v) as [dSV|] eqn:E2; [|done].
    destruct (bfs_distance net v t) as [dVT|] eqn:E3; [|done].
    split; (split; [done|]).
    + apply bfs_distance_path; [done..|]. by eexists.
    + apply bfs_distance_path; [done..|]. by eexists.
  - intros ((Hsv & Hp1) & (Htv & Hp2)).
    apply rtc_nsteps_1 in Hp1 as Hn1. destruct Hn1 as [a Ha].
    apply rtc_nsteps_1 in Hp2 as Hn2. destruct Hn2 as [b Hb].
    pose proof (nsteps_trans _ _ _ _ _ Ha Hb) as Hab.
    apply bfs_distance_nsteps in Ha, Hb, Hab; [|done..].
    rewrite Ha, Hb, Hab. split; [|by apply Nat.eqb_eq].
    split; [|split; [done|done]].
    intros ->. apply Hsv. by apply (path_antisym net).
Qed.

Lemma flow_score_product (net : network) (v : string) :
  well_formed net -> v ∈ users net ->
  flow_score (users net) (bfs_distance net) v
  = length (filter (fun s => s <> v /\ is_Some (bfs_distance net s v))
              (users net))
    * length (filter (fun t => t <> v /\ is_Some (bfs_distance net v t))
                (users net)).
Proof.
  intros Hwf Hv. unfold flow_score.
  rewrite <- length_filter_pairs. f_equal.
  apply filter_ext_in. intros [s t] Hst. cbn [fst snd].
  apply list_elem_of_In, in_prod_iff in Hst as [Hs Ht].
  apply list_elem_of_In in Hs, Ht.
  rewrite between_forest by done.
  by rewrite !bfs_distance_path.
Qed.

(** X9: what [flowCentrality] scores, on a network built by calls with
    two users or more.  Referral paths are unique there, so a user [v]
    lies on the shortest path from [s] to [t] exactly when [s] is above
    [v] and [t] below it: the score of [v] is the number of users from
    which [v] can be reached, [v] apart, times [totalReferrals(v)].  In
    particular a user without a referrer and a user without referrals
    both score zero. *)
Theorem flowCentrality_score_product (cs : list call) (net : network) :
  after_calls cs new_network = Some net -> 2 <= length (users net) ->
  exists l : list (string * nat),
    flowCentrality net = Some l /\
    forall v score, (v, score) ∈ l ->
      exists (above : gset string) (n : nat),
        (forall s, s ∈ above <-> s <> v /\ path net s v) /\
        totalReferrals net v = Some (Ok n) /\
        score = size above * n /\
        (referrerOf net !! v = None -> score = 0) /\
        (getDirectReferrals net v = Ok [] -> score = 0).
Proof.
  intros Hcs Hlen. pose proof (reachable_well_formed cs net Hcs) as Hwf.
  eexists. split; [by apply flowCentrality_scores|].
  intros v score Hin. rewrite sort_desc_perm in Hin.
  apply list_elem_of_fmap in Hin as (v' & [= <- ->] & Hv).
  set (A := fun s => s <> v /\ is_Some (bfs_distance net s v)).
  set (B := fun t => t <> v /\ is_Some (bfs_distance net v t)).
  exists (list_to_set (filter A (users net))),
         (size (reach_set net v) - 1).
  assert (Habove : forall s, s ∈ (list_to_set (filter A (users net))
                                   : gset string)
                             <-> s <> v /\ path net s v).
  { intros s. rewrite elem_of_list_to_set, list_elem_of_filter.
    unfold A. split.
    - intros ((Hne & Hd) & Hs). split; [done|].
      by apply bfs_distance_path in Hd.
    - intros (Hne & Hp). apply rtc_tc in Hp as Hp'.
      destruct Hp' as [->|Htc]; [done|].
      apply tc_first in Htc as (y & Hy & _).
      pose proof (edge_user net s y Hwf Hy) as Hs.
      split; [|done]. split; [done|]. by apply bfs_distance_path. }
  assert (Hbelow : length (filter B (users net))
                   = size (reach_set net v) - 1).
  { rewrite <- size_reach_set_minus by done.
    rewrite <- (size_list_to_set (C := gset string))
      by (apply NoDup_filter, (wf_users net Hwf)).
    f_equal. apply set_eq. intros t.
    rewrite elem_of_list_to_set, list_elem_of_filter, elem_of_difference,
      elem_of_singleton, elem_of_reach_set by done.
    unfold B. rewrite bfs_distance_path by done. split.
    - intros ((Hne & Hp) & _). done.
    - intros (Hp & Hne). split; [done|]. by eapply path_user. }
  assert (Hscore : flow_score (users net) (bfs_distance net) v
                   = size (list_to_set (filter A (users net)) : gset string)
                     * (size (reach_set net v) - 1)).
  { rewrite flow_score_product by done. fold A B. rewrite Hbelow.
    by rewrite size_list_to_set by (apply NoDup_filter, (wf_users net Hwf)). }
  split; [done|]. split; [by apply totalReferrals_reach_set|].
  split; [done|]. split.
  - intros Hroot. rewrite Hscore.
    replace (list_to_set (filter A (users net))) with (∅ : gset string);
      [by rewrite size_empty|].
    symmetry. apply set_eq. intros s. rewrite Habove. split; [|set_solver].
    intros (Hne & Hp). apply rtc_inv_r in Hp as [->|(y & _ & Hy)]; [done|].
    apply (wf_referrer net Hwf) in Hy. congruence.
  - intros Hleaf. rewrite Hscore, <- Hbelow.
    rewrite direct_neighbors in Hleaf by done. injection Hleaf as Hleaf.
    destruct (filter B (users net)) as [|t ts] eqn:HB; [cbn; lia|].
    assert (Ht : t ∈ filter B (users net)) by (rewrite HB; by left).
    apply list_elem_of_filter in Ht as ((Hne & Hd) & _).
    apply bfs_distance_path in Hd; [|done..].
    apply rtc_tc in Hd as [->|Htc]; [done|].
    apply tc_first in Htc as (y & Hy & _).
    unfold edge in Hy. rewrite Hleaf in Hy. by apply elem_of_nil in Hy.
Qed.

Lemma flowCentrality_score_product_witness :
  exists l : list (string * nat),
    flowCentrality tree_network = Some l /\
    forall v score, (v, score) ∈ l ->
      exists (above : gset string) (n : nat),
        (forall s, s ∈ above <-> s <> v /\ path tree_network s v) /\
        totalReferrals tree_network v = Some (Ok n) /\
        score = size above * n /\
        (referrerOf tree_network !! v = None -> score = 0) /\
        (getDirectReferrals tree_network v = Ok [] -> score = 0).
Proof.
  apply (flowCentrality_score_product tree_calls tree_network).
  - vm_compute. reflexivity.
  - vm_compute. lia.
Defined.

(** ** topKReferrers *)

Lemma user_scores_spec (net : network) (us : list string) :
  well_formed net -> (forall u, u ∈ us -> u ∈ users net) ->
  user_scores net us
  = Some (Ok ((fun u => (u, size (reach_set net u) - 1)) <$> us)).
Proof.
  intros Hwf. induction us as [|u us IH]; intros Hus; [done|].
  cbn [user_scores]. rewrite totalReferrals_reach_set; [|done|apply Hus; by left].
  rewrite IH by (intros x Hx; apply Hus; by right). done.
Qed.

Lemma fst_scores {A : Type} (f : string -> A) (us : list string) :
  ((fun u => (u, f u)) <$> us).*1 = us.
Proof. induction us as [|u us IH]; [done|]. cbn. by rewrite IH. Qed.

(** X10: [topKReferrers(k)] on a network built by calls.  For [k <= 0]
    the result is empty.  For [k > 0] it has [min(k, number of users)]
    entries; each is a registered user with its [totalReferrals]; no
    user occurs twice; the counts go down along the list; and every user
    left out has a count that is at most every count in the list. *)
Theorem topKReferrers_top (cs : list call) (net : network) (k : Z) :
  after_calls cs new_network = Some net ->
  ((k <= 0)%Z -> topKReferrers net k = Some (Ok [])) /\
  ((0 < k)%Z ->
     exists l : list (string * nat),
       topKReferrers net k = Some (Ok l) /\
       length l = Nat.min (Z.to_nat k) (length (users net)) /\
       StronglySorted (fun a b => snd b <= snd a) l /\
       NoDup (l.*1) /\
       (forall u n, (u, n) ∈ l ->
          u ∈ users net /\ totalReferrals net u = Some (Ok n)) /\
       (forall u n, u ∈ users net -> u ∉ l.*1 ->
          totalReferrals net u = Some (Ok n) ->
          forall e, e ∈ l -> n <= snd e)).
Proof.
  intros Hcs. pose proof (reachable_well_formed cs net Hcs) as Hwf.
  unfold topKReferrers. split.
  - intros Hk. by rewrite (proj2 (Z.leb_le k 0)).
  - intros Hk. rewrite (proj2 (Z.leb_gt k 0)) by done.
    rewrite user_scores_spec by done.
    set (scores := (fun u => (u, size (reach_set net u) - 1)) <$> users net).
    set (sorted := sort_desc scores).
    assert (Hperm : sorted ≡ₚ scores) by apply sort_desc_perm.
    assert (Hsorted : StronglySorted (fun a b => snd b <= snd a)
                        (take (Z.to_nat k) sorted ++ drop (Z.to_nat k) sorted)).
    { rewrite take_drop. apply sort_desc_sorted. }
    assert (Hscore : forall u n, (u, n) ∈ scores <->
              u ∈ users net /\ totalReferrals net u = Some (Ok n)).
    { intros u n. unfold scores. rewrite list_elem_of_fmap. split.
      - intros (u' & [= <- ->] & Hu). split; [done|].
        by apply totalReferrals_reach_set.
      - intros (Hu & Hn). exists u. split; [|done].
        rewrite totalReferrals_reach_set in Hn by done. congruence. }
    eexists. split; [reflexivity|]. split; [|split; [|split; [|split]]].
    + rewrite length_take. f_equal. rewrite Hperm. unfold scores.
      by rewrite length_fmap.
    + by apply StronglySorted_app in Hsorted as (_ & Hs & _).
    + eapply sublist_NoDup; [|apply fmap_sublist, sublist_take].
      rewrite Hperm. unfold scores. rewrite fst_scores. apply (wf_users net Hwf).
    + intros u n Hin. apply Hscore. rewrite <- Hperm.
      apply elem_of_take in Hin as (i & Hi & _).
      by eapply list_elem_of_lookup_2.
    + intros u n Hu Hout Hn e He.
      assert (Hin : (u, n) ∈ sorted) by (rewrite Hperm; by apply Hscore).
      rewrite <- (take_drop (Z.to_nat k) sorted) in Hin.
      apply elem_of_app in Hin as [Hin|Hin].
      * destruct Hout. apply list_elem_of_fmap. by exists (u, n).
      * apply (StronglySorted_app_1_elem_of _ _ _ e (u, n) Hsorted He Hin).
Qed.

Lemma topKReferrers_top_witness :
  ((2 <= 0)%Z -> topKReferrers tree_network 2 = Some (Ok [])) /\
  ((0 < 2)%Z ->
     exists l : list (string * nat),
       topKReferrers tree_network 2 = Some (Ok l) /\
       length l = Nat.min (Z.to_nat 2) (length (users tree_network)) /\
       StronglySorted (fun a b => snd b <= snd a) l /\
       NoDup (l.*1) /\
       (forall u n, (u, n) ∈ l ->
          u ∈ users tree_network /\
          totalReferrals tree_network u = Some (Ok n)) /\
       (forall u n, u ∈ users tree_network -> u ∉ l.*1 ->
          totalReferrals tree_network u = Some (Ok n) ->
          forall e, e ∈ l -> n <= snd e)).
Proof.
  apply (topKReferrers_top tree_calls tree_network 2).
  vm_compute. reflexivity.
Defined.

(** ** uniqueReachExpansion *)

Lemma best_user_max (reachSets : gmap string (gset string))
    (selected : list string) (covered : gset string) (us : list string)
    (best b : option string * nat) :
  best_user reachSets selected covered us best = Some b ->
  snd best <= snd b /\
  (forall u R, u ∈ us -> u ∉ selected -> reachSets !! u = Some R ->
     size (R ∖ covered) <= snd b) /\
  (b = best \/
   exists l1 x l2 R,
     us = l1 ++ x :: l2 /\ b = (Some x, size (R ∖ covered)) /\
     x ∉ selected /\ reachSets !! x = Some R /\ snd best < snd b /\
     forall u R', u ∈ l1 -> u ∉ selected -> reachSets !! u = Some R' ->
       size (R' ∖ covered) < snd b).
Proof.
  revert best. induction us as [|user rest IH]; intros best Hb.
  - injection Hb as <-. split; [done|]. split; [|by left].
    intros u R Hu. by apply elem_of_nil in Hu.
  - cbn [best_user] in Hb. destruct (decide (user ∈ selected)) as [Hsel|Hsel].
    + destruct (IH best Hb) as (Hle & Hmax & Hpick). split; [done|]. split.
      * intros u R Hu Hnot HR. apply elem_of_cons in Hu as [->|Hu]; [done|].
        by eapply Hmax.
      * destruct Hpick as [->|(l1 & x & l2 & R & -> & -> & Hx & HR & Hlt & Hl1)];
          [by left|right].
        exists (user :: l1), x, l2, R. repeat split; try done.
        intros u R' Hu Hnot HR'. apply elem_of_cons in Hu as [->|Hu]; [done|].
        by eapply Hl1.
    + destruct (reachSets !! user) as [userReach|] eqn:Huser; [|done].
      cbn -[Nat.ltb size] in Hb.
      destruct (Nat.ltb_spec (snd best) (size (userReach ∖ covered)))
        as [Hlt|Hge].
      * destruct (IH _ Hb) as (Hle & Hmax & Hpick). cbn [snd] in Hle.
        split; [lia|]. split.
        -- intros u R Hu Hnot HR. apply elem_of_cons in Hu as [->|Hu].
           ++ rewrite Huser in HR. injection HR as <-. done.
           ++ by eapply Hmax.
        -- right. destruct Hpick
             as [->|(l1 & x & l2 & R & -> & -> & Hx & HR & Hlt' & Hl1)].
           ++ exists [], user, rest, userReach. repeat split; try done.
              intros u R' Hu. by apply elem_of_nil in Hu.
           ++ cbn [snd] in *. exists (user :: l1), x, l2, R.
              repeat split; try done; [lia|].
              intros u R' Hu Hnot HR'.
              apply elem_of_cons in Hu as [->|Hu]; [|by eapply Hl1].
              rewrite Huser in HR'. injection HR' as <-. done.
      * destruct (IH _ Hb) as (Hle & Hmax & Hpick). split; [done|]. split.
        -- intros u R Hu Hnot HR. apply elem_of_cons in Hu as [->|Hu].
           ++ rewrite Huser in HR. injection HR as <-. lia.
           ++ by eapply Hmax.
        -- destruct Hpick
             as [->|(l1 & x & l2 & R & -> & -> & Hx & HR & Hlt' & Hl1)];
             [by left|right].
           cbn [snd] in *. exists (user :: l1), x, l2, R.
           repeat split; try done.
           intros u R' Hu Hnot HR'.
           apply elem_of_cons in Hu as [->|Hu]; [|by eapply Hl1].
           rewrite Huser in HR'. injection HR' as <-. lia.
Qed.

Lemma add_remaining_app (us selected : list string) :
  exists tail, add_remaining us selected = selected ++ tail
               /\ forall x, x ∈ tail -> x ∈ us.
Proof.
  revert selected. induction us as [|u us IH]; intros selected.
  - exists []. split; [by rewrite app_nil_r|]. intros x Hx.
    by apply elem_of_nil in Hx.
  - cbn [add_remaining]. destruct (decide (u ∈ selected)).
    + destruct (IH selected) as (tail & -> & Htail). exists tail.
      split; [done|]. intros x Hx. right. by apply Htail.
    + destruct (IH (selected ++ [u])) as (tail & -> & Htail).
      exists (u :: tail). split; [by rewrite <- app_assoc|].
      intros x Hx. apply elem_of_cons in Hx as [->|Hx]; [by left|].
      right. by apply Htail.
Qed.

Lemma new_coverage_selected (net : network) (selected : list string)
    (v : string) :
  v ∈ selected -> new_coverage net selected v = 0.
Proof.
  intros Hv. unfold new_coverage. apply size_empty_iff.
  apply elem_of_equiv_empty. intros x Hx.
  apply elem_of_difference in Hx as [Hx Hout]. apply Hout.
  apply elem_of_union_list. exists (reach_set net v). split; [|done].
  apply list_elem_of_fmap. by exists v.
Qed.

Lemma new_coverage_app (net : network) (selected more : list string)
    (v : string) :
  new_coverage net (selected ++ more) v <= new_coverage net selected v.
Proof.
  unfold new_coverage. apply subseteq_size, difference_mono_l.
  rewrite fmap_app, union_list_app. set_solver.
Qed.

Lemma select_loop_greedy (fuel : nat) (net : network)
    (reachSets : gmap string (gset string)) :
  (forall u, u ∈ users net -> reachSets !! u = Some (reach_set net u)) ->
  forall (selected : list string) (covered : gset string) (l : list string),
  covered = ⋃ (reach_set net <$> selected) ->
  select_loop fuel net reachSets selected covered = Some l ->
  exists tail, l = selected ++ tail /\
    forall t1 x t2, tail = t1 ++ x :: t2 ->
      (forall v, v ∈ users net ->
         new_coverage net (selected ++ t1) v
         <= new_coverage net (selected ++ t1) x) /\
      (0 < new_coverage net (selected ++ t1) x ->
       exists before after,
         users net = before ++ x :: after /\
         forall v, v ∈ before ->
           new_coverage net (selected ++ t1) v
           < new_coverage net (selected ++ t1) x).
Proof.
  intros Hrs. induction fuel as [|fuel IH]; intros selected covered l Hcov Hl.
  - cbn [select_loop] in Hl.
    destruct (length selected <? length (users net))%nat; [done|].
    injection Hl as <-. exists []. split; [by rewrite app_nil_r|].
    intros t1 x t2 Heq. by destruct t1.
  - cbn [select_loop] in Hl.
    destruct (length selected <? length (users net))%nat.
    2:{ injection Hl as <-. exists []. split; [by rewrite app_nil_r|].
        intros t1 x t2 Heq. by destruct t1. }
    destruct (best_user reachSets selected covered (users net) (None, 0))
      as [b|] eqn:Hb; [|done].
    cbn [mbind option_bind] in Hl.
    destruct (best_user_max _ _ _ _ _ _ Hb) as (_ & Hmax & Hpick).
    assert (Hgain : forall v, v ∈ users net ->
              new_coverage net selected v <= snd b).
    { intros v Hv. destruct (decide (v ∈ selected)) as [Hin|Hout].
      - rewrite new_coverage_selected by done. lia.
      - unfold new_coverage. rewrite <- Hcov.
        apply (Hmax v (reach_set net v)); [done|done|by apply Hrs]. }
    assert (Hdrain : snd b = 0 -> Some (add_remaining (users net) selected)
                                  = Some l ->
      exists tail, l = selected ++ tail /\
        forall t1 x t2, tail = t1 ++ x :: t2 ->
          (forall v, v ∈ users net ->
             new_coverage net (selected ++ t1) v
             <= new_coverage net (selected ++ t1) x) /\
          (0 < new_coverage net (selected ++ t1) x ->
           exists before after,
             users net = before ++ x :: after /\
             forall v, v ∈ before ->
               new_coverage net (selected ++ t1) v
               < new_coverage net (selected ++ t1) x)).
    { intros Hzero [= <-].
      destruct (add_remaining_app (users net) selected) as (tail & -> & Htail).
      exists tail. split; [done|]. intros t1 x t2 ->.
      assert (Hnone : forall v, v ∈ users net ->
                new_coverage net (selected ++ t1) v = 0).
      { intros v Hv. pose proof (new_coverage_app net selected t1 v).
        pose proof (Hgain v Hv). lia. }
      assert (Hx : x ∈ users net).
      { apply Htail. apply elem_of_app. right. by left. }
      split.
      - intros v Hv. rewrite Hnone by done. lia.
      - rewrite (Hnone x Hx). lia. }
    destruct b as [[x|] [|g]]; [by apply Hdrain| |by apply Hdrain|].
    2:{ destruct Hpick as [[=]|(? & ? & ? & ? & _ & [=] & _)]. }
    destruct Hpick as [[=]|(l1 & x' & l2 & R & Husers & [= <- Hg] & Hx & HR
                            & _ & Hl1)].
    assert (Hxu : x ∈ users net).
    { rewrite Husers. apply elem_of_app. right. by left. }
    rewrite (Hrs x Hxu) in HR. injection HR as <-.
    rewrite (Hrs x Hxu) in Hl. cbn [mbind option_bind] in Hl.
    apply IH in Hl.
    2:{ rewrite fmap_app, union_list_app_L, Hcov. cbn.
        by rewrite union_empty_r_L. }
    destruct Hl as (tail & -> & Htail). exists (x :: tail).
    split; [by rewrite <- app_assoc|].
    assert (Hgx : new_coverage net selected x = S g).
    { unfold new_coverage. by rewrite <- Hcov. }
    intros [|y t1] z t2 Heq.
    + injection Heq as <- <-. rewrite app_nil_r. split.
      * intros v Hv. rewrite Hgx. by apply (Hgain v).
      * intros _. exists l1, l2. split; [done|]. intros v Hv.
        rewrite Hgx. destruct (decide (v ∈ selected)) as [Hin|Hout].
        -- rewrite new_coverage_selected by done. lia.
        -- unfold new_coverage. rewrite <- Hcov.
           apply (Hl1 v); [done..|]. apply Hrs. rewrite Husers.
           apply elem_of_app. by left.
    + injection Heq as <- ->.
      replace (selected ++ x :: t1) with ((selected ++ [x]) ++ t1)
        by by rewrite <- app_assoc.
      by apply (Htail t1 z t2).
Qed.

(** X11: [uniqueReachExpansion] is greedy, on a network built by calls.
    At each position of the returned list, no registered user would add
    more new coverage than the user at that position, given the users
    before it in the list; and when that user adds some, every user
    registered before it adds strictly less, so ties go to the earlier
    registration.  The first of the list is therefore a user with the
    largest [totalReferrals], the earliest registered of them. *)
Theorem uniqueReachExpansion_greedy (cs : list call) (net : network) :
  after_calls cs new_network = Some net ->
  exists l : list string,
    uniqueReachExpansion net = Some l /\
    (forall sel x rest, l = sel ++ x :: rest ->
       (forall v, v ∈ users net ->
          new_coverage net sel v <= new_coverage net sel x) /\
       (0 < new_coverage net sel x ->
        exists before after,
          users net = before ++ x :: after /\
          forall v, v ∈ before ->
            new_coverage net sel v < new_coverage net sel x)) /\
    (users net <> [] ->
     exists first rest before after n,
       l = first :: rest /\ users net = before ++ first :: after /\
       totalReferrals net first = Some (Ok n) /\
       (forall v m, v ∈ users net ->
          totalReferrals net v = Some (Ok m) -> m <= n) /\
       (forall v m, v ∈ before ->
          totalReferrals net v = Some (Ok m) -> m < n)).
Proof.
  intros Hcs. pose proof (reachable_well_formed cs net Hcs) as Hwf.
  assert (Hl : exists l, uniqueReachExpansion net = Some l /\ l ≡ₚ users net /\
            forall sel x rest, l = sel ++ x :: rest ->
              (forall v, v ∈ users net ->
                 new_coverage net sel v <= new_coverage net sel x) /\
              (0 < new_coverage net sel x ->
               exists before after,
                 users net = before ++ x :: after /\
                 forall v, v ∈ before ->
                   new_coverage net sel v < new_coverage net sel x)).
  { unfold uniqueReachExpansion.
    destruct (Nat.eqb_spec (length (users net)) 0) as [Hz|Hnz].
    - exists []. split; [done|]. apply nil_length_inv in Hz.
      split; [by rewrite Hz|]. intros sel x rest Heq. by destruct sel.
    - destruct (tabulate_spec (getReachSet net) (users net) ∅)
        as (reachSets & -> & Hsets).
      { intros u Hu. rewrite reach_set_Some by done. by eexists. }
      cbn [mbind option_bind].
      assert (Hrs : forall u, u ∈ users net ->
                reachSets !! u = Some (reach_set net u)).
      { intros u Hu. rewrite Hsets, decide_True by done.
        by apply reach_set_Some. }
      destruct (select_loop_spec (length (users net)) net reachSets [] ∅)
        as (l & Hsel & Hperm).
      + apply (wf_users net Hwf).
      + intros u Hu. rewrite Hrs by done. by eexists.
      + constructor.
      + intros x Hx. by apply elem_of_nil in Hx.
      + cbn. lia.
      + exists l. split; [done|]. split; [done|].
        destruct (select_loop_greedy _ net reachSets Hrs [] ∅ l eq_refl Hsel)
          as (tail & -> & Htail).
        intros sel x rest Heq. cbn [app] in Heq. by apply (Htail sel x rest). }
  destruct Hl as (l & Hl & Hperm & Hgreedy). exists l.
  split; [done|]. split; [done|].
  intros Hne. destruct l as [|first rest].
  { apply Permutation_nil_l in Hperm. by destruct Hne. }
  destruct (Hgreedy [] first rest eq_refl) as (Hmax & Hfirst).
  assert (Hcover : forall v, new_coverage net [] v = size (reach_set net v)).
  { intros v. unfold new_coverage. cbn. by rewrite difference_empty_L. }
  assert (Hf : first ∈ users net) by (rewrite <- Hperm; by left).
  pose proof (reach_set_size net first Hwf Hf) as Hsize.
  destruct Hfirst as (before & after & Husers & Hbefore).
  { rewrite Hcover. lia. }
  exists first, rest, before, after, (size (reach_set net first) - 1).
  split; [done|]. split; [done|].
  split; [by apply totalReferrals_reach_set|]. split.
  - intros v m Hv Hm. rewrite totalReferrals_reach_set in Hm by done.
    injection Hm as <-. pose proof (Hmax v Hv) as Hle.
    rewrite !Hcover in Hle. lia.
  - intros v m Hv Hm.
    assert (Hvu : v ∈ users net).
    { rewrite Husers. apply elem_of_app. by left. }
    rewrite totalReferrals_reach_set in Hm by done.
    injection Hm as <-. pose proof (Hbefore v Hv) as Hlt.
    rewrite !Hcover in Hlt.
    pose proof (reach_set_size net v Hwf Hvu). lia.
Qed.

Lemma uniqueReachExpansion_greedy_witness :
  exists l : list string,
    uniqueReachExpansion tree_network = Some l /\
    (forall sel x rest, l = sel ++ x :: rest ->
       (forall v, v ∈ users tree_network ->
          new_coverage tree_network sel v <= new_coverage tree_network sel x) /\
       (0 < new_coverage tree_network sel x ->
        exists before after,
          users tree_network = before ++ x :: after /\
          forall v, v ∈ before ->
            new_coverage tree_network sel v
            < new_coverage tree_network sel x)) /\
    (users tree_network <> [] ->
     exists first rest before after n,
       l = first :: rest /\ users tree_network = before ++ first :: after /\
       totalReferrals tree_network first = Some (Ok n) /\
       (forall v m, v ∈ users tree_network ->
          totalReferrals tree_network v = Some (Ok m) -> m <= n) /\
       (forall v m, v ∈ before ->
          totalReferrals tree_network v = Some (Ok m) -> m < n)).
Proof.
  apply (uniqueReachExpansion_greedy tree_calls tree_network).
  vm_compute. reflexivity.
Defined.

(** ** addReferral and totalReferrals *)

Lemma path_commit_iff (net : network) (r c x y : string) :
  path (commit r c net) x y
  <-> path net x y \/ (path net x r /\ path net c y).
Proof.
  split; [apply path_commit|].
  assert (Hmono : forall a b, path net a b -> path (commit r c net) a b).
  { intros a b Hab. induction Hab as [|a b d Hab _ IH]; [constructor|].
    eapply rtc_l; [|exact IH]. apply edge_commit. by left. }
  intros [Hp|[Hp1 Hp2]]; [by apply Hmono|].
  apply rtc_trans with r; [by apply Hmono|].
  eapply rtc_l; [|by apply Hmono]. apply edge_commit. by right.
Qed.

(** X12: what a successful [addReferral(r, c)] does to the counts, on a
    network built by calls.  [totalReferrals] goes up by one plus
    [totalReferrals(c)] for [r] and for every user from which [r] can be
    reached, and is unchanged for every other user. *)
Theorem addReferral_raises_totals (cs : list call) (net net' : network)
    (r c x : string) :
  after_calls cs new_network = Some net ->
  addReferral r c net = Some (Ok true, net') ->
  x ∈ users net ->
  exists n k : nat,
    totalReferrals net x = Some (Ok n) /\
    totalReferrals net c = Some (Ok k) /\
    (path net x r -> totalReferrals net' x = Some (Ok (n + 1 + k))) /\
    (~ path net x r -> totalReferrals net' x = Some (Ok n)).
Proof.
  intros Hcs Hadd Hx. pose proof (reachable_well_formed cs net Hcs) as Hwf.
  destruct (addReferral_true_inv net net' r c Hwf Hadd)
    as (Hr & Hc & Hrc & Hnone & Hnp & -> & Hwf').
  assert (Hx' : x ∈ users (commit r c net)) by done.
  exists (size (reach_set net x) - 1), (size (reach_set net c) - 1).
  split; [by apply totalReferrals_reach_set|].
  split; [by apply totalReferrals_reach_set|].
  rewrite (totalReferrals_reach_set (commit r c net)) by done.
  pose proof (reach_set_size net x Hwf Hx).
  pose proof (reach_set_size net c Hwf Hc).
  split.
  - intros Hxr.
    replace (reach_set (commit r c net) x)
      with (reach_set net x ∪ reach_set net c).
    + rewrite size_union; [do 2 f_equal; lia|].
      intros y Hy1 Hy2. apply elem_of_reach_set in Hy1, Hy2; [|done..].
      destruct (forest_comparable net Hwf x c y Hy1 Hy2) as [Hxc|Hcx].
      * apply rtc_inv_r in Hxc as [->|(p & _ & Hpc)]; [done|].
        apply (wf_referrer net Hwf) in Hpc. congruence.
      * apply Hnp. by apply rtc_trans with x.
    + apply set_eq. intros y.
      rewrite elem_of_union, !elem_of_reach_set by done.
      rewrite path_commit_iff. tauto.
  - intros Hxr.
    replace (reach_set (commit r c net) x) with (reach_set net x); [done|].
    apply set_eq. intros y. rewrite !elem_of_reach_set by done.
    rewrite path_commit_iff. tauto.
Qed.

Lemma addReferral_raises_totals_witness :
  exists net net' : network,
    after_calls [AddUser "A"; AddUser "B"; AddUser "C"; AddUser "D";
                 AddReferral "A" "B"; AddReferral "C" "D"]
      new_network = Some net /\
    addReferral "B" "C" net = Some (Ok true, net') /\
    exists n k : nat,
      totalReferrals net "A" = Some (Ok n) /\
      totalReferrals net "C" = Some (Ok k) /\
      (path net "A" "B" -> totalReferrals net' "A" = Some (Ok (n + 1 + k))) /\
      (~ path net "A" "B" -> totalReferrals net' "A" = Some (Ok n)).
Proof.
  eexists _, _. split; [vm_compute; reflexivity|].
  split; [vm_compute; reflexivity|].
  eapply (addReferral_raises_totals
            [AddUser "A"; AddUser "B"; AddUser "C"; AddUser "D";
             AddReferral "A" "B"; AddReferral "C" "D"]).
  - vm_compute. reflexivity.
  - vm_compute. reflexivity.
  - apply has_user_true. vm_compute. reflexivity.
Defined.

(** ** ReferralManager.jsx: the table of metrics and the statistics *)

Lemma metrics_rows_spec (net : network) (us : list string) :
  well_formed net -> (forall u, u ∈ us -> u ∈ users net) ->
  metrics_rows net us
  = Some (Ok ((fun u => (u, length (neighbors net u),
                         size (reach_set net u) - 1)) <$> us)).
Proof.
  intros Hwf. induction us as [|u us IH]; intros Hus; [done|].
  assert (Hu : u ∈ users net) by (apply Hus; by left).
  cbn [metrics_rows]. rewrite direct_neighbors by done.
  rewrite totalReferrals_reach_set by done.
  rewrite IH by (intros x Hx; apply Hus; by right). done.
Qed.

Lemma stats_totalReferrals_sum (net : network) :
  well_formed net ->
  stats_totalReferrals net
  = sum_list ((fun u => length (neighbors net u)) <$> users net).
Proof.
  intros Hwf. unfold stats_totalReferrals.
  rewrite (wf_direct net Hwf), map_fold_foldr.
  assert (Hperm : map_to_list (graph net)
                  ≡ₚ (fun u => (u, neighbors net u)) <$> users net).
  { apply NoDup_Permutation.
    - apply NoDup_map_to_list.
    - apply NoDup_fmap_2; [|apply (wf_users net Hwf)].
      intros a b [=]. done.
    - intros [u l]. rewrite elem_of_map_to_list, list_elem_of_fmap. split.
      + intros Hl. exists u. split.
        * unfold neighbors. by rewrite Hl.
        * apply (wf_graph net Hwf). by eexists.
      + intros (u' & [= <- ->] & Hu).
        apply (wf_graph net Hwf) in Hu as [l Hl].
        unfold neighbors. by rewrite Hl. }
  assert (Hsum : forall l : list (string * list string),
            foldr (uncurry (fun (_ : string) (set : list string) acc =>
                              acc + length set)) 0 l
            = sum_list ((fun p => length (snd p)) <$> l)).
  { induction l as [|[u x] l IH]; [done|]. cbn. rewrite IH. lia. }
  rewrite Hsum, Hperm, <- list_fmap_compose. done.
Qed.

Lemma referred_users (net : network) :
  well_formed net ->
  ⋃ ((fun u => list_to_set (neighbors net u) : gset string) <$> users net)
  = dom (referrerOf net).
Proof.
  intros Hwf. apply set_eq. intros c.
  rewrite elem_of_union_list, elem_of_dom. split.
  - intros (X & HX & Hc). apply list_elem_of_fmap in HX as (u & -> & Hu).
    apply elem_of_list_to_set in Hc. exists u.
    by apply (wf_referrer net Hwf).
  - intros [u Hu]. apply (wf_referrer net Hwf) in Hu.
    exists (list_to_set (neighbors net u)). split.
    + apply list_elem_of_fmap. exists u. split; [done|].
      by eapply edge_user.
    + by apply elem_of_list_to_set.
Qed.

Lemma stats_totalReferrals_referred (net : network) :
  well_formed net -> stats_totalReferrals net = size (referrerOf net).
Proof.
  intros Hwf. rewrite stats_totalReferrals_sum by done.
  rewrite <- size_dom, <- referred_users by done.
  rewrite size_union_list_disjoint.
  - f_equal. apply list_fmap_ext. intros i u _. cbn.
    by rewrite size_list_to_set by apply (wf_nodup net Hwf).
  - apply (wf_users net Hwf).
  - intros d d' _ _ Hne c Hc Hc'. apply elem_of_list_to_set in Hc, Hc'.
    apply Hne. by apply (unique_referrer net Hwf d d' c).
Qed.

Lemma stats_maxTotalReach_spec (rows : list (string * nat * nat)) :
  (forall row, row ∈ rows -> snd row <= stats_maxTotalReach rows) /\
  (rows <> [] -> exists row, row ∈ rows /\ snd row = stats_maxTotalReach rows).
Proof.
  induction rows as [|row rows [IH1 IH2]].
  - split; [|done]. intros row Hrow. by apply elem_of_nil in Hrow.
  - cbn [stats_maxTotalReach foldr]. fold (stats_maxTotalReach rows). split.
    + intros row' Hrow. apply elem_of_cons in Hrow as [->|Hrow]; [lia|].
      specialize (IH1 row' Hrow). lia.
    + intros _. destruct (Nat.max_spec (snd row) (stats_maxTotalReach rows))
        as [[Hlt ->]|[Hle ->]].
      * destruct rows as [|row' rows']; [cbn in Hlt; lia|].
        destruct IH2 as (row'' & Hin & Heq); [done|].
        exists row''. split; [by right|done].
      * exists row. split; [by left|done].
Qed.

(** X13: the table and the statistics that ReferralManager.jsx shows,
    on a network built by calls.  [metrics] has one row per user, in
    registration order, with the user's number of direct referrals and
    its [totalReferrals]; in each row the direct count is at most the
    total, which is at most [maxTotalReach]; [maxTotalReach] is the
    total of some row when there is a user, and is less than the number
    of users.  The statistic [totalReferrals] is the sum of the direct
    counts of the table, and it is the number of users that have a
    referrer: with the users that have none it makes up [totalUsers]. *)
Theorem networkStats_consistent (cs : list call) (net : network) :
  after_calls cs new_network = Some net ->
  exists rows : list (string * nat * nat),
    metrics net = Some (Ok rows) /\
    rows.*1.*1 = users net /\
    (forall u direct total, (u, direct, total) ∈ rows ->
       (exists l, getDirectReferrals net u = Ok l /\ direct = length l) /\
       totalReferrals net u = Some (Ok total) /\
       direct <= total <= stats_maxTotalReach rows) /\
    (users net <> [] ->
     stats_maxTotalReach rows < stats_totalUsers net /\
     exists row, row ∈ rows /\ snd row = stats_maxTotalReach rows) /\
    stats_totalReferrals net = sum_list ((fun row => snd (fst row)) <$> rows) /\
    stats_totalReferrals net = size (referrerOf net) /\
    stats_totalReferrals net
      + length (filter (fun u => referrerOf net !! u = None) (users net))
    = stats_totalUsers net.
Proof.
  intros Hcs. pose proof (reachable_well_formed cs net Hcs) as Hwf.
  set (row := fun u => (u, length (neighbors net u),
                        size (reach_set net u) - 1)).
  exists (row <$> users net).
  assert (Hrow : forall u direct total,
            (u, direct, total) ∈ row <$> users net ->
            u ∈ users net /\ direct = length (neighbors net u) /\
            total = size (reach_set net u) - 1).
  { intros u direct total Hin.
    apply list_elem_of_fmap in Hin as (u' & [= -> -> ->] & Hu). done. }
  assert (Hle : forall u, u ∈ users net ->
            length (neighbors net u) <= size (reach_set net u) - 1).
  { intros u Hu. pose proof (neighbors_below net u Hwf Hu) as Hsub.
    apply subseteq_size in Hsub.
    rewrite size_reach_set_minus in Hsub by done.
    by rewrite size_list_to_set in Hsub by apply (wf_nodup net Hwf). }
  destruct (stats_maxTotalReach_spec (row <$> users net)) as [Hmax Hattained].
  split; [by apply metrics_rows_spec|]. split; [|split; [|split; [|split; [|split]]]].
  - rewrite <- !list_fmap_compose. apply list_fmap_id.
  - intros u direct total Hin.
    destruct (Hrow u direct total Hin) as (Hu & -> & ->).
    split; [exists (neighbors net u); split; [by apply direct_neighbors|done]|].
    split; [by apply totalReferrals_reach_set|].
    split; [by apply Hle|]. apply (Hmax _ Hin).
  - intros Hne. destruct Hattained as ([[u direct] total] & Hin & Heq).
    { destruct (users net); [done|]. done. }
    split; [|by eexists].
    rewrite <- Heq. cbn [snd].
    destruct (Hrow u direct total Hin) as (Hu & _ & ->).
    pose proof (reach_set_size net u Hwf Hu). unfold stats_totalUsers. lia.
  - rewrite stats_totalReferrals_sum by done.
    by rewrite <- list_fmap_compose.
  - by apply stats_totalReferrals_referred.
  - rewrite stats_totalReferrals_referred by done.
    unfold stats_totalUsers.
    rewrite <- (size_all_users net Hwf), <- size_dom.
    rewrite <- (size_list_to_set (C := gset string)
                  (filter (fun u => referrerOf net !! u = None) (users net)))
      by (apply NoDup_filter, (wf_users net Hwf)).
    rewrite <- size_union.
    + f_equal. apply set_eq. intros u. unfold all_users.
      rewrite elem_of_union, elem_of_dom, !elem_of_list_to_set,
        list_elem_of_filter.
      split.
      * intros [[r Hr]|[_ Hu]]; [|done].
        apply (wf_referrer net Hwf) in Hr. by eapply (wf_candidate net Hwf).
      * intros Hu. destruct (referrerOf net !! u) eqn:E; [left; by eexists|].
        right. done.
    + intros u Hu1 Hu2. apply elem_of_dom in Hu1 as [r Hr].
      apply elem_of_list_to_set, list_elem_of_filter in Hu2 as [Hu2 _].
      congruence.
Qed.

Lemma networkStats_consistent_witness :
  exists rows : list (string * nat * nat),
    metrics tree_network = Some (Ok rows) /\
    rows.*1.*1 = users tree_network /\
    (forall u direct total, (u, direct, total) ∈ rows ->
       (exists l, getDirectReferrals tree_network u = Ok l
                  /\ direct = length l) /\
       totalReferrals tree_network u = Some (Ok total) /\
       direct <= total <= stats_maxTotalReach rows) /\
    (users tree_network <> [] ->
     stats_maxTotalReach rows < stats_totalUsers tree_network /\
     exists row, row ∈ rows /\ snd row = stats_maxTotalReach rows) /\
    stats_totalReferrals tree_network
    = sum_list ((fun row => snd (fst row)) <$> rows) /\
    stats_totalReferrals tree_network = size (referrerOf tree_network) /\
    stats_totalReferrals tree_network
      + length (filter (fun u => referrerOf tree_network !! u = None)
                  (users tree_network))
    = stats_totalUsers tree_network.
Proof.
  apply (networkStats_consistent tree_calls tree_network).
  vm_compute. reflexivity.
Defined.

(** ** getDirectReferrals *)

(** X20: [getDirectReferrals] on a network built by calls.  It throws
    for an unregistered user.  For a registered user it returns a list
    without repetition, which holds exactly the users whose referrer is
    that user: the map [directReferrals] agrees with the map
    [referrerOf].  Every user in the list is registered and is another
    user. *)
Theorem getDirectReferrals_view (cs : list call) (net : network) (u : string) :
  after_calls cs new_network = Some net ->
  (u ∉ users net -> getDirectReferrals net u = Throw UnknownUser) /\
  (u ∈ users net ->
     exists l : list string,
       getDirectReferrals net u = Ok l /\ NoDup l /\
       (forall c, c ∈ l <-> referrerOf net !! c = Some u) /\
       (forall c, c ∈ l -> c ∈ users net /\ c <> u)).
Proof.
  intros Hcs. pose proof (reachable_well_formed cs net Hcs) as Hwf. split.
  - intros Hu. unfold getDirectReferrals. apply has_user_false in Hu.
    by rewrite Hu.
  - intros Hu. exists (neighbors net u).
    split; [by apply direct_neighbors|].
    split; [apply (wf_nodup net Hwf)|]. split.
    + intros c. apply (wf_referrer net Hwf).
    + intros c Hc. split; [by apply (wf_candidate net Hwf u)|].
      intros ->. by apply (edge_irrefl net u).
Qed.

Lemma getDirectReferrals_view_witness :
  ("A" ∉ users tree_network ->
     getDirectReferrals tree_network "A" = Throw UnknownUser) /\
  ("A" ∈ users tree_network ->
     exists l : list string,
       getDirectReferrals tree_network "A" = Ok l /\ NoDup l /\
       (forall c, c ∈ l <-> referrerOf tree_network !! c = Some "A") /\
       (forall c, c ∈ l -> c ∈ users tree_network /\ c <> "A")).
Proof.
  apply (getDirectReferrals_view tree_calls tree_network "A").
  vm_compute. reflexivity.
Defined.

(** ** Sequences of calls *)

Lemma prefix_set_add (x : string) (s : list string) : s `prefix_of` set_add x s.
Proof.
  unfold set_add. destruct (decide (x ∈ s)); [done|]. by apply prefix_app_r.
Qed.

Lemma addReferral_grows (net net' : network) (r c : string)
    (out : result bool) :
  addReferral r c net = Some (out, net') ->
  users net' = users net /\
  (forall a, neighbors net a `prefix_of` neighbors net' a) /\
  (forall a b, edge net' a b -> edge net a b \/ (a = r /\ b = c)) /\
  (forall x y, referrerOf net !! x = Some y -> referrerOf net' !! x = Some y).
Proof.
  assert (Hsame : users net = users net /\
    (forall a, neighbors net a `prefix_of` neighbors net a) /\
    (forall a b, edge net a b -> edge net a b \/ (a = r /\ b = c)) /\
    (forall x y, referrerOf net !! x = Some y -> referrerOf net !! x = Some y)).
  { split; [done|]. split; [done|]. split; [by left|done]. }
  unfold addReferral. intros Hadd.
  destruct (negb (has_user net r)); [by injection Hadd as <- <-|].
  destruct (negb (has_user net c)); [by injection Hadd as <- <-|].
  destruct (decide (r = c)); [by injection Hadd as <- <-|].
  destruct (decide (is_Some (referrerOf net !! c))) as [|Hnone];
    [by injection Hadd as <- <-|].
  destruct (wouldCreateCycle net r c) as [[|]|]; cbn in Hadd;
    [by injection Hadd as <- <-| |done].
  destruct (graph net !! r) as [referred|] eqn:Hr; cbn in Hadd; [|done].
  destruct (directReferrals net !! r) as [direct|]; cbn in Hadd; [|done].
  injection Hadd as <- <-.
  assert (Hn : forall a, neighbors
            {| graph := <[r:=referred ++ [c]]> (graph net);
               users := users net;
               directReferrals := <[r:=set_add c direct]> (directReferrals net);
               referrerOf := <[c:=r]> (referrerOf net) |} a
            = if decide (a = r) then neighbors net r ++ [c]
              else neighbors net a).
  { intros a. unfold neighbors. cbn. destruct (decide (a = r)) as [->|Hne].
    - by rewrite lookup_insert_eq, Hr.
    - by rewrite lookup_insert_ne. }
  split; [done|]. split; [|split].
  - intros a. rewrite Hn. destruct (decide (a = r)) as [->|]; [|done].
    by apply prefix_app_r.
  - intros a b. unfold edge. rewrite Hn.
    destruct (decide (a = r)) as [->|]; [|by left].
    rewrite elem_of_app, list_elem_of_singleton. intros [H | ->]; auto.
  - intros x y Hxy. cbn. rewrite lookup_insert_ne; [done|].
    intros <-. apply Hnone. by eexists.
Qed.

Lemma after_calls_grows (cs : list call) (net0 net : network) :
  after_calls cs net0 = Some net ->
  users net0 `prefix_of` users net /\
  (forall r, neighbors net0 r `prefix_of` neighbors net r) /\
  (forall c r, referrerOf net0 !! c = Some r -> referrerOf net !! c = Some r).
Proof.
  revert net0. induction cs as [|call cs IH]; intros net0 Hcs.
  - by injection Hcs as <-.
  - cbn [after_calls] in Hcs.
    destruct (after_call call net0) as [net1|] eqn:Hcall; [|done].
    cbn in Hcs. destruct (IH net1 Hcs) as (Hu & Hn & Hr).
    destruct call as [u|r0 c0]; cbn in Hcall.
    + injection Hcall as <-. split; [|split].
      * etrans; [|exact Hu]. apply prefix_set_add.
      * intros r. specialize (Hn r). by rewrite neighbors_addUser in Hn.
      * intros c r Hc. by apply Hr.
    + destruct (addReferral r0 c0 net0) as [[out net1']|] eqn:Hadd;
        [|done]. injection Hcall as ->.
      destruct (addReferral_grows _ _ _ _ _ Hadd) as (Hu1 & Hn1 & _ & Hr1).
      split; [|split].
      * by rewrite <- Hu1.
      * intros r. etrans; [apply Hn1|apply Hn].
      * intros c r Hc. by apply Hr, Hr1.
Qed.

(** X21: calls only add.  From any network, a sequence of [addUser] and
    [addReferral] calls keeps the registration order it found and
    appends to it; it keeps every user's list of referrals and appends
    to it; it keeps every referrer.  The users of the result are the
    users there were and the arguments of the [addUser] calls, so
    [addReferral] registers nobody; and every edge of the result was
    there or is the pair of arguments of an [addReferral] call. *)
Theorem calls_only_add (cs : list call) (net0 net : network) :
  after_calls cs net0 = Some net ->
  users net0 `prefix_of` users net /\
  (forall r, neighbors net0 r `prefix_of` neighbors net r) /\
  (forall c r, referrerOf net0 !! c = Some r -> referrerOf net !! c = Some r) /\
  (forall x, x ∈ users net <-> x ∈ users net0 \/ AddUser x ∈ cs) /\
  (forall r c, edge net r c -> edge net0 r c \/ AddReferral r c ∈ cs).
Proof.
  intros Hcs. destruct (after_calls_grows cs net0 net Hcs) as (Hu & Hn & Hr).
  split; [done|]. split; [done|]. split; [done|].
  revert net0 Hcs Hu Hn Hr. induction cs as [|call cs IH];
    intros net0 Hcs _ _ _.
  - injection Hcs as <-. split.
    + intros x. split; [by left|]. intros [H|H]; [done|].
      by apply elem_of_nil in H.
    + intros r c H. by left.
  - cbn [after_calls] in Hcs.
    destruct (after_call call net0) as [net1|] eqn:Hcall; [|done].
    cbn in Hcs.
    destruct (after_calls_grows cs net1 net Hcs) as (Hu & Hn & Hr).
    destruct (IH net1 Hcs Hu Hn Hr) as (Hus & He).
    destruct call as [u|r0 c0]; cbn in Hcall.
    + injection Hcall as <-. split.
      * intros x. rewrite Hus. cbn. rewrite elem_of_set_add, elem_of_cons.
        split.
        -- intros [[->|H]|H]; auto.
        -- intros [H|[[= ->]|H]]; auto.
      * intros r c Hrc. destruct (He r c Hrc) as [H|H].
        -- left. by apply edge_addUser in H.
        -- right. by right.
    + destruct (addReferral r0 c0 net0) as [[out net1']|] eqn:Hadd;
        [|done]. injection Hcall as ->.
      destruct (addReferral_grows _ _ _ _ _ Hadd) as (Hu1 & _ & He1 & _).
      split.
      * intros x. rewrite Hus, Hu1, elem_of_cons. split.
        -- intros [H|H]; auto.
        -- intros [H|[[=]|H]]; auto.
      * intros r c Hrc. destruct (He r c Hrc) as [H|H].
        -- destruct (He1 r c H) as [H'|[-> ->]]; [by left|]. right. by left.
        -- right. by right.
Qed.

Lemma calls_only_add_witness :
  exists net : network,
    after_calls [AddUser "D"; AddReferral "C" "D"; AddReferral "D" "A"]
      chain_network = Some net /\
    users chain_network `prefix_of` users net /\
    (forall r, neighbors chain_network r `prefix_of` neighbors net r) /\
    (forall c r, referrerOf chain_network !! c = Some r ->
                 referrerOf net !! c = Some r) /\
    (forall x, x ∈ users net <->
       x ∈ users chain_network
       \/ AddUser x ∈ [AddUser "D"; AddReferral "C" "D"; AddReferral "D" "A"]) /\
    (forall r c, edge net r c ->
       edge chain_network r c
       \/ AddReferral r c
            ∈ [AddUser "D"; AddReferral "C" "D"; AddReferral "D" "A"]).
Proof.
  eexists. split; [vm_compute; reflexivity|].
  apply (calls_only_add
           [AddUser "D"; AddReferral "C" "D"; AddReferral "D" "A"]
           chain_network).
  vm_compute. reflexivity.
Defined.

Lemma after_calls_paths (cs : list call) (net0 net : network) (x y : string) :
  after_calls cs net0 = Some net -> path net0 x y -> path net x y.
Proof.
  intros Hcs Hp. destruct (after_calls_grows cs net0 net Hcs) as (_ & Hn & _).
  induction Hp as [|a b c Hab _ IH]; [constructor|].
  eapply rtc_l; [|exact IH]. unfold edge in *.
  destruct (Hn a) as [k ->]. apply elem_of_app. by left.
Qed.

(** X22: counts never go down.  If a network built by calls is taken
    further by more calls, every path of the first network is a path of
    the second, and for every user of the first network
    [totalReferrals] in the second is at least what it was. *)
Theorem totalReferrals_never_decreases (cs0 cs : list call)
    (net0 net : network) (u : string) :
  after_calls cs0 new_network = Some net0 ->
  after_calls cs net0 = Some net ->
  u ∈ users net0 ->
  (forall x, path net0 u x -> path net u x) /\
  exists n0 n : nat,
    totalReferrals net0 u = Some (Ok n0) /\
    totalReferrals net u = Some (Ok n) /\ n0 <= n.
Proof.
  intros Hcs0 Hcs Hu. pose proof (reachable_well_formed cs0 net0 Hcs0) as Hwf0.
  destruct (after_calls_well_formed cs net0 Hwf0) as (net' & Hnet' & Hwf).
  rewrite Hcs in Hnet'. injection Hnet' as <-.
  assert (Hu' : u ∈ users net).
  { destruct (after_calls_grows cs net0 net Hcs) as ([k ->] & _).
    apply elem_of_app. by left. }
  split; [intros x; by apply (after_calls_paths cs)|].
  exists (size (reach_set net0 u) - 1), (size (reach_set net u) - 1).
  split; [by apply totalReferrals_reach_set|].
  split; [by apply totalReferrals_reach_set|].
  assert (Hsub : reach_set net0 u ⊆ reach_set net u).
  { intros x Hx. apply elem_of_reach_set in Hx; [|done..].
    apply elem_of_reach_set; [done..|]. by apply (after_calls_paths cs net0). }
  apply subseteq_size in Hsub. lia.
Qed.

Lemma totalReferrals_never_decreases_witness :
  exists net : network,
    after_calls [AddUser "D"; AddReferral "C" "D"] chain_network = Some net /\
    (forall x, path chain_network "A" x -> path net "A" x) /\
    exists n0 n : nat,
      totalReferrals chain_network "A" = Some (Ok n0) /\
      totalReferrals net "A" = Some (Ok n) /\ n0 <= n.
Proof.
  eexists. split; [vm_compute; reflexivity|].
  apply (totalReferrals_never_decreases chain_calls
           [AddUser "D"; AddReferral "C" "D"] chain_network).
  - vm_compute. reflexivity.
  - vm_compute. reflexivity.
  - apply has_user_true. vm_compute. reflexivity.
Defined.

(** ** The forest *)

Lemma root_exists (net : network) (n : nat) :
  well_formed net ->
  forall u, u ∈ users net ->
    length (filter (fun s => is_Some (bfs_distance net s u)) (users net)) < n ->
    exists root, root ∈ users net /\ referrerOf net !! root = None
                 /\ path net root u.
Proof.
  intros Hwf. induction n as [|n IH]; intros u Hu Hn; [lia|].
  destruct (referrerOf net !! u) as [r|] eqn:Hr.
  2:{ exists u. split; [done|]. split; [done|]. constructor. }
  apply (wf_referrer net Hwf) in Hr.
  pose proof (edge_user net r u Hwf Hr) as Hru.
  destruct (IH r Hru) as (root & Hroot & Hnone & Hp).
  - assert (Hlt : length (filter (fun s => is_Some (bfs_distance net s r))
                            (users net))
                  < length (filter (fun s => is_Some (bfs_distance net s u))
                              (users net))); [|lia].
    rewrite <- !(size_list_to_set (C := gset string))
      by (apply NoDup_filter, (wf_users net Hwf)).
    apply subset_size. split.
    + intros s. rewrite !elem_of_list_to_set, !list_elem_of_filter.
      intros (Hd & Hs). split; [|done].
      apply bfs_distance_path; [done..|].
      apply bfs_distance_path in Hd; [|done..].
      eapply rtc_r; [exact Hd|exact Hr].
    + intros Hsub. specialize (Hsub u).
      rewrite !elem_of_list_to_set, !list_elem_of_filter in Hsub.
      destruct Hsub as (Hd & _).
      { split; [|done]. apply bfs_distance_path; [done..|]. constructor. }
      apply bfs_distance_path in Hd; [|done..].
      apply (wf_acyclic net Hwf u). eapply tc_rtc_l; [exact Hd|].
      by apply tc_once.
  - exists root. split; [done|]. split; [done|].
    eapply rtc_r; [exact Hp|exact Hr].
Qed.

(** X23: every user has one root.  In a network built by calls, each
    registered user can be reached from exactly one registered user that
    has no referrer (itself, when it has none): the network is a forest
    and every user sits in one tree. *)
Theorem unique_root (cs : list call) (net : network) (u : string) :
  after_calls cs new_network = Some net -> u ∈ users net ->
  exists root : string,
    root ∈ users net /\ referrerOf net !! root = None /\ path net root u /\
    (referrerOf net !! u = None -> root = u) /\
    forall root', referrerOf net !! root' = None -> path net root' u ->
                  root' = root.
Proof.
  intros Hcs Hu. pose proof (reachable_well_formed cs net Hcs) as Hwf.
  destruct (root_exists net _ Hwf u Hu (Nat.lt_succ_diag_r _))
    as (root & Hroot & Hnone & Hp).
  assert (Huniq : forall a b, referrerOf net !! a = None ->
            referrerOf net !! b = None -> path net a u -> path net b u ->
            a = b).
  { intros a b Ha Hb Hpa Hpb.
    destruct (forest_comparable net Hwf a b u Hpa Hpb) as [Hab|Hba].
    - apply rtc_inv_r in Hab as [->|(y & _ & Hy)]; [done|].
      apply (wf_referrer net Hwf) in Hy. congruence.
    - apply rtc_inv_r in Hba as [->|(y & _ & Hy)]; [done|].
      apply (wf_referrer net Hwf) in Hy. congruence. }
  exists root. split; [done|]. split; [done|]. split; [done|]. split.
  - intros Hu0. apply (Huniq root u); [done|done|done|constructor].
  - intros root' Hnone' Hp'. by apply (Huniq root' root).
Qed.

Lemma unique_root_witness :
  exists root : string,
    root ∈ users tree_network /\ referrerOf tree_network !! root = None /\
    path tree_network root "E" /\
    (referrerOf tree_network !! "E" = None -> root = "E") /\
    forall root', referrerOf tree_network !! root' = None ->
                  path tree_network root' "E" -> root' = root.
Proof.
  apply (unique_root tree_calls tree_network "E").
  - vm_compute. reflexivity.
  - apply has_user_true. vm_compute. reflexivity.
Defined.

End ReferralNetworkMore.
